(** * cidr2domains: a shallow embedding of [main.go] and its properties

    The program expands every CIDR range it is given into its addresses,
    asks Shodan for the hostnames of each address from a pool of worker
    goroutines, filters them, and prints each distinct hostname once.

    Layout of the development:
    - [net]       the parts of Go's [net] package the program calls
                  ([CIDRMask], [IP.Mask], [IP.To4], [IPNet.Contains]);
    - [incrementIP], [enqueue]   the address stepping loop of [processCIDR];
    - [fetchHostnamesFromShodan], [forward], [worker]   the worker body;
    - [parseFlags], [main_setup]   the command line and [main]'s set-up;
    - [aggregate] the printing loop of [main];
    - [Pool]      the goroutines of the program as a transition system;
    - [sequentialScan]   the sequential program the pool is compared with.
    The second part of the file states and proves the properties. *)

From Stdlib Require Import ZArith Lia Ascii String.
From stdpp Require Import base list strings gmap pretty.

Local Open Scope Z_scope.

#[local] Set Warnings "-clear-no-such-hyp".

(** ** Addresses

    Go's [net.IP] and [net.IPMask] are byte slices.  A byte is a [Z] in
    [0, 256); arithmetic on it wraps around modulo 256. *)

Abbreviation IP := (list Z).
Abbreviation IPMask := (list Z).

Definition byte_ok (b : Z) : Prop := 0 <= b < 256.
Definition wfIP (ip : IP) : Prop := Forall byte_ok ip.

#[global] Instance byte_ok_dec (b : Z) : Decision (byte_ok b).
Proof. unfold byte_ok. apply _. Defined.

#[global] Instance wfIP_dec (ip : IP) : Decision (wfIP ip).
Proof. unfold wfIP. apply _. Defined.

(** [ip[j]++] on a [uint8]. *)
Definition byte_incr (b : Z) : Z := (b + 1) mod 256.

(** The big-endian value of an address: the "natural integer ordering"
    of addresses is the ordering of these values. *)
Definition ipVal (ip : IP) : Z := fold_left (fun acc b => acc * 256 + b) ip 0.

(** [incrementIP]: the loop runs [j] from [len(ip) - 1] down to [0],
    increments [ip[j]] in place and stops at the first byte that did not
    wrap to zero.  [incrementIP_from n] is the loop with [j = n - 1]. *)
Fixpoint incrementIP_from (n : nat) (ip : IP) : IP :=
  match n with
  | O => ip
  | S j =>
      match ip !! j with
      | Some b =>
          let ip' := <[j := byte_incr b]> ip in
          if 0 <? byte_incr b then ip' else incrementIP_from j ip'
      | None => ip
      end
  end.

Definition incrementIP (ip : IP) : IP := incrementIP_from (length ip) ip.

(** ** The [net] package, as far as [processCIDR] uses it *)

Module net.

Definition IPv4len : nat := 4.
Definition IPv6len : nat := 16.

Record IPNet : Type := mkIPNet { ipnet_IP : IP; ipnet_Mask : IPMask }.

Definition v4InV6Prefix : list Z := [0; 0; 0; 0; 0; 0; 0; 0; 0; 0; 255; 255].

(** [CIDRMask]'s loop over the [l] bytes of the mask, [n] ones left. *)
Fixpoint CIDRMask_loop (l : nat) (n : Z) : IPMask :=
  match l with
  | O => []
  | S l' =>
      if 8 <=? n then 255 :: CIDRMask_loop l' (n - 8)
      else Z.lxor 255 (Z.shiftr 255 n) :: CIDRMask_loop l' 0
  end.

(** [CIDRMask(ones, bits)]; [None] is Go's [nil]. *)
Definition CIDRMask (ones bits : Z) : option IPMask :=
  if negb ((bits =? 32) || (bits =? 128)) then None
  else if (ones <? 0) || (bits <? ones) then None
  else Some (CIDRMask_loop (Z.to_nat (bits / 8)) ones).

Definition allFF (m : list Z) : bool := forallb (Z.eqb 255) m.
Definition isZeros (m : list Z) : bool := forallb (Z.eqb 0) m.

(** [ip.To4()]; [None] is [nil]. *)
Definition To4 (ip : IP) : option IP :=
  if (length ip =? IPv4len)%nat then Some ip
  else if (length ip =? IPv6len)%nat && isZeros (take 10 ip)
          && bool_decide (ip !! 10%nat = Some 255)
          && bool_decide (ip !! 11%nat = Some 255)
       then Some (drop 12 ip)
       else None.

(** [ip.Mask(mask)]; the empty slice is [nil]. *)
Definition Mask (ip : IP) (mask : IPMask) : IP :=
  let mask :=
    if (length mask =? IPv6len)%nat && (length ip =? IPv4len)%nat
       && allFF (take 12 mask)
    then drop 12 mask else mask in
  let ip :=
    if (length mask =? IPv4len)%nat && (length ip =? IPv6len)%nat
       && bool_decide (take 12 ip = v4InV6Prefix)
    then drop 12 ip else ip in
  if (length ip =? length mask)%nat then zip_with Z.land ip mask else [].

Definition networkNumberAndMask (n : IPNet) : IP * IPMask :=
  let ip4 := To4 (ipnet_IP n) in
  let ip := default (ipnet_IP n) ip4 in
  if bool_decide (ip4 = None) && negb (length ip =? IPv6len)%nat then ([], [])
  else
    let m := ipnet_Mask n in
    if (length m =? IPv4len)%nat then
      if negb (length ip =? IPv4len)%nat then ([], []) else (ip, m)
    else if (length m =? IPv6len)%nat then
      if (length ip =? IPv4len)%nat then (ip, drop 12 m) else (ip, m)
    else ([], []).

(** The comparison loop of [Contains]: it returns [false] at the first
    [i] below [len(ip)] with [nn[i]&m[i] != ip[i]&m[i]].  It is entered
    with [len(ip) = len(nn)], and [networkNumberAndMask] returns a mask as
    long as the network number, so the three slices have one length. *)
Fixpoint sameNetwork (nn : IP) (m : IPMask) (ip : IP) : bool :=
  match nn, m, ip with
  | a :: nn', c :: m', b :: ip' =>
      (Z.land a c =? Z.land b c) && sameNetwork nn' m' ip'
  | _, _, _ => true
  end.

(** [n.Contains(ip)]. *)
Definition Contains (n : IPNet) (ip : IP) : bool :=
  let '(nn, m) := networkNumberAndMask n in
  let ip := default ip (To4 ip) in
  if negb (length ip =? length nn)%nat then false
  else sameNetwork nn m ip.

(** What [ParseCIDR] returns for the text [a.b.c.d/ones]: the mask of
    [ones] leading one bits and the address masked with it. *)
Definition ParseCIDR_v4 (addr : IP) (ones : Z) : option IPNet :=
  m ← CIDRMask ones 32;
  Some (mkIPNet (Mask (v4InV6Prefix ++ addr) m) m).

End net.

(** ** The address loop of [processCIDR]

    [for ip := ipNet.IP.Mask(ipNet.Mask); ipNet.Contains(ip); { ipChan <- copy(ip); incrementIP(ip) }]

    [enqueue fuel n ip] is the list of addresses the loop sends when it is
    entered with the cursor at [ip], or [None] when [fuel] iterations do
    not bring it to its exit. *)
Fixpoint enqueue (fuel : nat) (n : net.IPNet) (ip : IP) : option (list IP) :=
  match fuel with
  | O => None
  | S f =>
      if net.Contains n ip
      then cons ip <$> enqueue f n (incrementIP ip)
      else Some []
  end.

Definition loopStart (n : net.IPNet) : IP :=
  net.Mask (net.ipnet_IP n) (net.ipnet_Mask n).

Definition expand (fuel : nat) (n : net.IPNet) : option (list IP) :=
  enqueue fuel n (loopStart n).

(** The first [k] addresses the loop sends, whether or not it ends. *)
Fixpoint enqueued (k : nat) (n : net.IPNet) (ip : IP) : list IP :=
  match k with
  | O => []
  | S k' =>
      if net.Contains n ip then ip :: enqueued k' n (incrementIP ip) else []
  end.

(** The number of IPv4 addresses, as a count of loop iterations. *)
Definition addressSpace : nat := Z.to_nat (2 ^ 32).

(** ** What the program takes from its environment

    The regular expressions of package [regexp], [net.ParseCIDR] and
    [net.IP.String], the HTTP client, the HTML parser of [goquery] and
    [strings.TrimSpace] are libraries: the program is modelled over any
    implementation of them. *)

(** [client.Get(url)]: an error, or a response with a status code and a
    body. *)
Inductive GetResult : Type :=
| GetError (err : string)
| GetOk (StatusCode : Z) (Body : string).

(** A [<b>] element of the parsed page: its text, and the data of the
    node before it when there is one ([s.Get(0).PrevSibling]). *)
Record BoldNode : Type := mkBold { b_text : string; b_prev : option string }.

Class Externals : Type := {
  (** [*regexp.Regexp] *)
  Regexp : Type;
  (** [regexp.MustCompile]; [None] when it panics *)
  MustCompile : string → option Regexp;
  MatchString : Regexp → string → bool;
  (** [net.ParseCIDR], the network of the result; [None] when [err != nil] *)
  ParseCIDR : string → option net.IPNet;
  (** [ip.String()] *)
  IP_String : IP → string;
  (** the responses the network may give to [client.Get(url)] *)
  clientGet : string → GetResult → Prop;
  (** [goquery.NewDocumentFromReader] followed by [doc.Find("b")];
      [inl err] when the body does not parse *)
  NewDocumentFromReader : string → string + list BoldNode;
  TrimSpace : string → string;
}.

(** ** The command line *)

Record Flags : Type := mkFlags {
  targetCIDR : string;
  listFile : string;
  concurrency : Z;
  filterRegex : string;
  matchRegex : string;
  verbose : bool;
}.

(** The values given on the command line; [None] for a flag that is not
    given. *)
Record CommandLine : Type := mkCommandLine {
  arg_t : option string;
  arg_l : option string;
  arg_c : option Z;
  arg_f : option string;
  arg_m : option string;
  arg_v : option bool;
}.

(** The [flag.String], [flag.Int] and [flag.Bool] declarations with their
    default values, and [flag.Parse]. *)
Definition parseFlags (args : CommandLine) : Flags :=
  {| targetCIDR := default EmptyString (arg_t args);
     listFile := default EmptyString (arg_l args);
     concurrency := default 5 (arg_c args);
     filterRegex := default EmptyString (arg_f args);
     matchRegex := default EmptyString (arg_m args);
     verbose := default false (arg_v args) |}.

Definition noArguments : CommandLine :=
  mkCommandLine None None None None None None.

(** Go's [int] on a 64-bit platform. *)
Definition wrap_int (z : Z) : Z := (z + 2 ^ 63) mod 2 ^ 64 - 2 ^ 63.

Section Program.
Context `{Externals}.
Local Open Scope string_scope.

(** What [main] hands to every [processCIDR]: the worker count, the two
    compiled filters ([None] is the [nil] pointer), the verbosity and the
    capacity of the result channel. *)
Record Config : Type := mkConfig {
  c_concurrency : Z;
  c_filter : option Regexp;
  c_match : option Regexp;
  c_verbose : bool;
  c_cap : Z;
}.

(** A filter pointer starts as [nil] and is set to the compiled flag
    only when the flag is not the empty string; the outer [None] is the
    panic of [MustCompile]. *)
Definition compileFilter (pattern : string) : option (option Regexp) :=
  if decide (pattern = EmptyString) then Some None
  else match MustCompile pattern with
       | Some re => Some (Some re)
       | None => None
       end.

(** The set-up of [main] up to the start of the jobs; [None] when
    [MustCompile] panics or [make] is asked for a result channel of
    negative size, ten times the worker count. *)
Definition main_setup (fl : Flags) : option Config :=
  filter ← compileFilter (filterRegex fl);
  match_ ← compileFilter (matchRegex fl);
  let cap := wrap_int (concurrency fl * 10) in
  if (cap <? 0)%Z then None
  else Some (mkConfig (concurrency fl) filter match_ (verbose fl) cap).

(** ** [fetchHostnamesFromShodan] *)

Definition shodanURL (ip : string) : string :=
  "https://www.shodan.io/host/" +:+ ip.

(** The callback of [doc.Find("b").Each]: the hostname a [<b>] element
    contributes, if any. *)
Definition domainOf (s : BoldNode) : list string :=
  match b_prev s with
  | Some data =>
      if decide (TrimSpace data = EmptyString) then []
      else [TrimSpace data +:+ b_text s]
  | None => []
  end.

(** The log line before the request (log lines are modelled without the
    time stamp that [log.Printf] puts in front). *)
Definition fetchBegin (v : bool) (ip : string) : list string :=
  if v then ["Fetching data for IP: " +:+ ip] else [].

(** The function from the return of [client.Get] on: the hostnames
    ([[]] is [nil]) and the log lines. *)
Definition fetchEnd (v : bool) (ip : string) (r : GetResult)
  : list string * list string :=
  match r with
  | GetError err =>
      ([], if v then ["Error fetching data for IP " +:+ ip +:+ ": " +:+ err] else [])
  | GetOk status body =>
      if negb (status =? 200)%Z then
        ([], if v then ["Non-200 status code for IP " +:+ ip +:+ ": " +:+ pretty status]
             else [])
      else
        match NewDocumentFromReader body with
        | inl err =>
            ([], if v then ["Error parsing HTML for IP " +:+ ip +:+ ": " +:+ err] else [])
        | inr bs =>
            let hostnames := mjoin (domainOf <$> bs) in
            (hostnames,
             if v && bool_decide (length hostnames = 0%nat)
             then ["No hostnames found for IP " +:+ ip] else [])
        end
  end.

(** [fetchHostnamesFromShodan(ip, client)] when the network answers [r]. *)
Definition fetchHostnamesFromShodan (v : bool) (ip : string) (r : GetResult)
  : list string * list string :=
  (fst (fetchEnd v ip r), (fetchBegin v ip ++ snd (fetchEnd v ip r))%list).

(** The three ways a lookup fails. *)
Definition lookupFailed (r : GetResult) : Prop :=
  match r with
  | GetError _ => True
  | GetOk status body =>
      status ≠ 200 ∨ ∃ err, NewDocumentFromReader body = inl err
  end.

(** ** The body of a worker *)

(** [filter != nil && filter.MatchString(hostname)]: the first [continue]. *)
Definition excluded (filter : option Regexp) (hostname : string) : bool :=
  match filter with
  | Some f => MatchString f hostname
  | None => false
  end.

(** [match != nil && !match.MatchString(hostname)]: the second [continue]. *)
Definition notIncluded (match_ : option Regexp) (hostname : string) : bool :=
  match match_ with
  | Some m => negb (MatchString m hostname)
  | None => false
  end.

(** One hostname of the inner loop: [true] when it reaches [ch <- hostname],
    [false] when one of the two [continue]s is taken. *)
Definition forwarded (filter match_ : option Regexp) (hostname : string) : bool :=
  if excluded filter hostname then false
  else if notIncluded match_ hostname then false
  else true.

(** [for _, hostname := range hostnames { ... }]: the hostnames sent on
    [ch], in order. *)
Fixpoint forward (filter match_ : option Regexp) (hostnames : list string)
  : list string :=
  match hostnames with
  | [] => []
  | hostname :: rest =>
      if forwarded filter match_ hostname
      then hostname :: forward filter match_ rest
      else forward filter match_ rest
  end.

(** The worker goroutine as a function of what it receives: the addresses
    read from [ipChan] until it is closed, each with the answer of the
    network to its one request.  It returns the requests made and the
    hostnames sent on [ch]. *)
Fixpoint worker (cfg : Config) (received : list (IP * GetResult))
  : list string * list string :=
  match received with
  | [] => ([], [])
  | (ip, r) :: rest =>
      let hostnames := fst (fetchHostnamesFromShodan (c_verbose cfg) (IP_String ip) r) in
      let '(urls, sent) := worker cfg rest in
      (shodanURL (IP_String ip) :: urls,
       (forward (c_filter cfg) (c_match cfg) hostnames ++ sent)%list)
  end.

(** ** The input of [main]: [isInputFromPipe], [getCIDRList] and the
    start of [main] *)

(** The standard input: what [os.Stdin.Stat()] gives ([None] for an
    error, else the mode bits) and the lines a [bufio.Scanner] reads. *)
Record Stdin : Type := mkStdin { stdin_mode : option Z; stdin_lines : list string }.

(** What [main] reads: [os.Open] of a path followed by a scan of the file
    ([inl err] when it cannot be opened), and [os.Stdin] ([None] is [nil]). *)
Record Inputs : Type := mkInputs {
  in_open : string → string + list string;
  in_stdin : option Stdin;
}.

(** [os.ModeCharDevice], bit 21 of a file mode. *)
Definition ModeCharDevice : Z := 2 ^ 21.

(** [isInputFromPipe]. *)
Definition isInputFromPipe (inp : Inputs) : bool :=
  match in_stdin inp with
  | Some (mkStdin (Some mode) _) => (Z.land mode ModeCharDevice =? 0)%Z
  | _ => false
  end.

(** The scanning loop of [getCIDRList]: each line is trimmed and kept
    unless empty. *)
Fixpoint scanLines (lines : list string) : list string :=
  match lines with
  | [] => []
  | text :: rest =>
      let line := TrimSpace text in
      if decide (line = EmptyString) then scanLines rest
      else line :: scanLines rest
  end.

(** [getCIDRList]: [inl line] when it writes [line] to the diagnostic
    stream and calls [os.Exit(1)].  A [nil] standard input gives the scanner
    nothing to read. *)
Definition getCIDRList (fl : Flags) (inp : Inputs) : string + list string :=
  if decide (listFile fl = EmptyString) then
    if decide (targetCIDR fl = EmptyString) then
      inr (scanLines (match in_stdin inp with
                      | Some st => stdin_lines st
                      | None => []
                      end))
    else inr [targetCIDR fl]
  else
    match in_open inp (listFile fl) with
    | inl err => inl ("Error opening file: " +:+ err)
    | inr lines => inr (scanLines lines)
    end.

Definition usageLine : string :=
  "Error: You must provide a CIDR with -t, a list of CIDRs with -l, or via stdin.".

(** How [main] gets to the start of its jobs: it exits with status 1
    after a line on the diagnostic stream, it panics, or it starts
    [processCIDR] on each descriptor of a list. *)
Inductive Start : Type :=
| StartExit (line : string)
| StartPanic
| StartRun (cfg : Config) (cidrList : list string).

(** [main] from [flag.Parse()] to the creation of the result channel. *)
Definition main_start (fl : Flags) (inp : Inputs) : Start :=
  if bool_decide (targetCIDR fl = EmptyString)
     && bool_decide (listFile fl = EmptyString)
     && (bool_decide (in_stdin inp = None) || negb (isInputFromPipe inp))
  then StartExit usageLine
  else
    match compileFilter (filterRegex fl) with
    | None => StartPanic
    | Some filter =>
        match compileFilter (matchRegex fl) with
        | None => StartPanic
        | Some match_ =>
            match getCIDRList fl inp with
            | inl line => StartExit line
            | inr cidrList =>
                let cap := wrap_int (concurrency fl * 10) in
                if (cap <? 0)%Z then StartPanic
                else StartRun (mkConfig (concurrency fl) filter match_
                                        (verbose fl) cap) cidrList
            end
        end
    end.

End Program.

(** ** The printing loop of [main] *)

(** [uniqueResults] and the lines written to the standard output. *)
Record Printer : Type := mkPrinter {
  uniqueResults : gset string;
  stdout : list string;
}.

Definition emptyPrinter : Printer := mkPrinter ∅ [].

(** The body of [for result := range ch]. *)
Definition receive (st : Printer) (result : string) : Printer :=
  if decide (result ∈ uniqueResults st) then st
  else mkPrinter ({[result]} ∪ uniqueResults st) (stdout st ++ [result]).

(** The loop over the hostnames that arrive on [ch], in arrival order. *)
Definition aggregate (arrivals : list string) : Printer :=
  foldl receive emptyPrinter arrivals.

(** ** The goroutines of the program as a transition system

    A job is one call of [processCIDR]: its producer (the body of
    [processCIDR] itself) and its workers.  [ipChan] is unbuffered, so a
    send on it and the matching receive are one step, and the worker that
    received an address is inside its lookup from that step on.  [ch] is
    buffered with the capacity [main] gave it: a send needs room in it
    (capacity zero would need the printing loop at the other end, but then
    the worker count is zero as well and nobody sends).  The closer
    goroutine and the printing loop of [main] complete the system.  Steps
    of different goroutines interleave freely. *)

Module Pool.

(** A worker: blocked on [range ipChan]; inside
    [fetchHostnamesFromShodan], the request in flight; in the loop over
    the hostnames still to be examined; returned. *)
Inductive Worker : Type :=
| WRecv
| WInLookup (ip : IP)
| WLoop (hostnames : list string)
| WExit.

(** The body of [processCIDR]: started; in the address loop with the
    cursor at [ip]; past [close(ipChan)], in [localWg.Wait()]; returned. *)
Inductive Producer : Type :=
| PStart
| PLoop (n : net.IPNet) (ip : IP)
| PWait
| PDone.

(** What a step of a worker does to the channels. *)
Inductive WLabel : Type :=
| LRecv (ip : IP)
| LClosed
| LReturn (r : GetResult)
| LSkip
| LSend (hostname : string)
| LNext.

(** What a step of a job does outside of the job. *)
Inductive Effect : Type :=
| ENone
| ELog (lines : list string)
| ESend (hostname : string)
| EDone (lines : list string).

(** The state of a job.  [j_inflight] counts the calls of
    [fetchHostnamesFromShodan] that have not returned; [j_enq], [j_urls]
    and [j_sent] record what was sent on [ipChan], requested from the
    network, and sent on [ch]. *)
Record Job : Type := mkJob {
  j_cidr : string;
  j_prod : Producer;
  j_workers : list Worker;
  j_localWg : nat;
  j_inflight : nat;
  j_enq : list IP;
  j_urls : list string;
  j_sent : list string;
}.

(** The state of the program once [main] has started its goroutines.
    [s_arrived] records what the printing loop has received. *)
Record Sys : Type := mkSys {
  s_jobs : list Job;
  s_wg : nat;
  s_ch : list string;
  s_chClosed : bool;
  s_mainDone : bool;
  s_printer : Printer;
  s_arrived : list string;
  s_stderr : list string;
}.

Definition newJob (cidr : string) : Job :=
  mkJob cidr PStart [] 0 0 [] [] [].

(** [wg.Add(1); go processCIDR(cidr, ...)] for each descriptor, the
    closer goroutine, and [main] at the head of its printing loop. *)
Definition init (cidrList : list string) : Sys :=
  mkSys (newJob <$> cidrList) (length cidrList) [] false false emptyPrinter [] [].

Definition setProd (j : Job) (p : Producer) : Job :=
  mkJob (j_cidr j) p (j_workers j) (j_localWg j) (j_inflight j)
        (j_enq j) (j_urls j) (j_sent j).

Definition setWorker (j : Job) (w : nat) (wk : Worker) : Job :=
  mkJob (j_cidr j) (j_prod j) (<[w := wk]> (j_workers j)) (j_localWg j)
        (j_inflight j) (j_enq j) (j_urls j) (j_sent j).

Definition setJobs (s : Sys) (jobs : list Job) : Sys :=
  mkSys jobs (s_wg s) (s_ch s) (s_chClosed s) (s_mainDone s) (s_printer s)
        (s_arrived s) (s_stderr s).

Section Steps.
Context `{Externals}.
Variable cfg : Config.

Definition parseErrorLine (cidr : string) : string :=
  ("Error parsing CIDR " +:+ cidr +:+ ": invalid CIDR address: " +:+ cidr)%string.

(** The steps of the worker goroutine. *)
Inductive worker_step : Worker → WLabel → Worker → Prop :=
| ws_recv ip :
    worker_step WRecv (LRecv ip) (WInLookup ip)
| ws_closed :
    worker_step WRecv LClosed WExit
| ws_return ip r :
    clientGet (shodanURL (IP_String ip)) r →
    worker_step (WInLookup ip) (LReturn r)
                (WLoop (fst (fetchEnd (c_verbose cfg) (IP_String ip) r)))
| ws_skip hostname rest :
    forwarded (c_filter cfg) (c_match cfg) hostname = false →
    worker_step (WLoop (hostname :: rest)) LSkip (WLoop rest)
| ws_send hostname rest :
    forwarded (c_filter cfg) (c_match cfg) hostname = true →
    worker_step (WLoop (hostname :: rest)) (LSend hostname) (WLoop rest)
| ws_next :
    worker_step (WLoop []) LNext WRecv.

(** The steps of a job. *)
Inductive processCIDR_step : Job → Effect → Job → Prop :=
| js_parse_err j :
    j_prod j = PStart → ParseCIDR (j_cidr j) = None →
    processCIDR_step j (EDone [parseErrorLine (j_cidr j)]) (setProd j PDone)
| js_parse_ok j n :
    j_prod j = PStart → ParseCIDR (j_cidr j) = Some n →
    processCIDR_step j ENone
      (mkJob (j_cidr j) (PLoop n (loopStart n))
             (replicate (Z.to_nat (c_concurrency cfg)) WRecv)
             (Z.to_nat (c_concurrency cfg)) (j_inflight j)
             (j_enq j) (j_urls j) (j_sent j))
| js_enqueue j n ip w wk wk' :
    j_prod j = PLoop n ip → net.Contains n ip = true →
    j_workers j !! w = Some wk → worker_step wk (LRecv ip) wk' →
    processCIDR_step j (ELog (fetchBegin (c_verbose cfg) (IP_String ip)))
      (mkJob (j_cidr j) (PLoop n (incrementIP ip)) (<[w := wk']> (j_workers j))
             (j_localWg j) (S (j_inflight j)) (j_enq j ++ [ip])
             (j_urls j ++ [shodanURL (IP_String ip)]) (j_sent j))
| js_close j n ip :
    j_prod j = PLoop n ip → net.Contains n ip = false →
    processCIDR_step j ENone (setProd j PWait)
| js_return j w ip r wk' :
    j_workers j !! w = Some (WInLookup ip) →
    worker_step (WInLookup ip) (LReturn r) wk' →
    processCIDR_step j (ELog (snd (fetchEnd (c_verbose cfg) (IP_String ip) r)))
      (mkJob (j_cidr j) (j_prod j) (<[w := wk']> (j_workers j)) (j_localWg j)
             (pred (j_inflight j)) (j_enq j) (j_urls j) (j_sent j))
| js_skip j w wk wk' :
    j_workers j !! w = Some wk → worker_step wk LSkip wk' →
    processCIDR_step j ENone (setWorker j w wk')
| js_send j w wk hostname wk' :
    j_workers j !! w = Some wk → worker_step wk (LSend hostname) wk' →
    processCIDR_step j (ESend hostname)
      (mkJob (j_cidr j) (j_prod j) (<[w := wk']> (j_workers j)) (j_localWg j)
             (j_inflight j) (j_enq j) (j_urls j) (j_sent j ++ [hostname]))
| js_next j w wk wk' :
    j_workers j !! w = Some wk → worker_step wk LNext wk' →
    processCIDR_step j ENone (setWorker j w wk')
| js_exit j w wk wk' :
    j_prod j = PWait →
    j_workers j !! w = Some wk → worker_step wk LClosed wk' →
    processCIDR_step j ENone
      (mkJob (j_cidr j) (j_prod j) (<[w := wk']> (j_workers j))
             (pred (j_localWg j)) (j_inflight j) (j_enq j) (j_urls j) (j_sent j))
| js_done j :
    j_prod j = PWait → j_localWg j = 0%nat →
    processCIDR_step j (EDone []) (setProd j PDone).

(** The effect of a job's step on the rest of the program; a send on a
    full [ch] cannot happen. *)
Definition applyEffect (e : Effect) (s : Sys) : option Sys :=
  match e with
  | ENone => Some s
  | ELog lines =>
      Some (mkSys (s_jobs s) (s_wg s) (s_ch s) (s_chClosed s) (s_mainDone s)
                  (s_printer s) (s_arrived s) (s_stderr s ++ lines))
  | ESend hostname =>
      if Z.of_nat (length (s_ch s)) <? c_cap cfg
      then Some (mkSys (s_jobs s) (s_wg s) (s_ch s ++ [hostname]) (s_chClosed s)
                       (s_mainDone s) (s_printer s) (s_arrived s) (s_stderr s))
      else None
  | EDone lines =>
      Some (mkSys (s_jobs s) (pred (s_wg s)) (s_ch s) (s_chClosed s)
                  (s_mainDone s) (s_printer s) (s_arrived s) (s_stderr s ++ lines))
  end.

(** The steps of the program: a job moves; the closer goroutine closes
    [ch] after [wg.Wait()]; the printing loop receives a hostname; the
    printing loop ends on the closed and drained [ch]. *)
Inductive main_step : Sys → Sys → Prop :=
| step_job s i j e j' s' :
    s_jobs s !! i = Some j → processCIDR_step j e j' →
    applyEffect e (setJobs s (<[i := j']> (s_jobs s))) = Some s' →
    main_step s s'
| step_close s :
    s_wg s = 0%nat → s_chClosed s = false →
    main_step s (mkSys (s_jobs s) (s_wg s) (s_ch s) true (s_mainDone s)
                  (s_printer s) (s_arrived s) (s_stderr s))
| step_recv s result rest :
    s_ch s = result :: rest → s_mainDone s = false →
    main_step s (mkSys (s_jobs s) (s_wg s) rest (s_chClosed s) (s_mainDone s)
                  (receive (s_printer s) result) (s_arrived s ++ [result])
                  (s_stderr s))
| step_exit s :
    s_ch s = [] → s_chClosed s = true → s_mainDone s = false →
    main_step s (mkSys (s_jobs s) (s_wg s) (s_ch s) (s_chClosed s) true
                  (s_printer s) (s_arrived s) (s_stderr s)).

(** The states the program can be in when started on [cidrList]. *)
Definition reachable (cidrList : list string) (s : Sys) : Prop :=
  rtc main_step (init cidrList) s.

(** Number of workers of a job that are inside a lookup. *)
Definition inLookup (wk : Worker) : bool :=
  match wk with WInLookup _ => true | _ => false end.

Definition exited (wk : Worker) : bool :=
  match wk with WExit => true | _ => false end.

End Steps.

(** ** Invariants of the pool *)

Section Invariants.
Context `{Externals}.
Variable cfg : Config.

(** Workers inside a lookup, and workers that have not returned. *)
Definition lookupsInFlight (ws : list Worker) : nat :=
  length (List.filter inLookup ws).

Definition running (ws : list Worker) : nat :=
  length (List.filter (λ wk, negb (exited wk)) ws).

(** The addresses the loop has sent so far, and its cursor. *)
Inductive loopTrace (n : net.IPNet) : list IP → IP → Prop :=
| trace_start : loopTrace n [] (loopStart n)
| trace_send enq ip :
    loopTrace n enq ip → net.Contains n ip = true →
    loopTrace n (enq ++ [ip]) (incrementIP ip).

(** The loop of the job has ended, having sent all of [j_enq]. *)
Definition expanded (j : Job) : Prop :=
  ∃ n, ParseCIDR (j_cidr j) = Some n ∧ expand (S (length (j_enq j))) n = Some (j_enq j).

(** A job that has not got past [ParseCIDR]. *)
Definition untouched (j : Job) : Prop :=
  j_workers j = [] ∧ j_localWg j = 0%nat ∧ j_inflight j = 0%nat
  ∧ j_enq j = [] ∧ j_urls j = [] ∧ j_sent j = [].

Definition job_ok (j : Job) : Prop :=
  j_inflight j = lookupsInFlight (j_workers j)
  ∧ j_urls j = (λ ip, shodanURL (IP_String ip)) <$> j_enq j
  ∧ match j_prod j with
    | PStart => untouched j
    | PLoop n ip =>
        ParseCIDR (j_cidr j) = Some n ∧ loopTrace n (j_enq j) ip
        ∧ length (j_workers j) = Z.to_nat (c_concurrency cfg)
        ∧ j_localWg j = length (j_workers j)
        ∧ running (j_workers j) = length (j_workers j)
    | PWait =>
        expanded j
        ∧ length (j_workers j) = Z.to_nat (c_concurrency cfg)
        ∧ j_localWg j = running (j_workers j)
    | PDone =>
        (ParseCIDR (j_cidr j) = None ∧ untouched j)
        ∨ (expanded j
           ∧ length (j_workers j) = Z.to_nat (c_concurrency cfg)
           ∧ j_localWg j = 0%nat ∧ running (j_workers j) = 0%nat)
    end.

Definition finished (j : Job) : bool :=
  match j_prod j with PDone => true | _ => false end.

Definition sys_ok (cidrList : list string) (s : Sys) : Prop :=
  Forall job_ok (s_jobs s)
  ∧ j_cidr <$> s_jobs s = cidrList
  ∧ s_wg s = length (List.filter (λ j, negb (finished j)) (s_jobs s))
  ∧ (s_chClosed s = true → s_wg s = 0%nat)
  ∧ (s_mainDone s = true → s_chClosed s = true ∧ s_ch s = [])
  ∧ s_printer s = aggregate (s_arrived s).

End Invariants.

(** The job of a descriptor that [ParseCIDR] rejected, and a state of
    the program with such a job, already returned, put at position [k]. *)
Definition skippedJob (cidr : string) : Job := setProd (newJob cidr) PDone.

(** The position in [withSkipped k cidr s] of the job at position [i] of [s]. *)
Definition shiftIndex (k i : nat) : nat := if decide (i < k)%nat then i else S i.

(** [s'] is [s] with the job of the rejected descriptor [cidr] at position
    [k], created or already returned, and with its report, if written,
    somewhere among the lines of the diagnostic stream. *)
Definition besideSkipped (k : nat) (cidr : string) (s s' : Sys) : Prop :=
  ∃ jb, (jb = newJob cidr ∨ jb = skippedJob cidr)
        ∧ s_jobs s' = take k (s_jobs s) ++ jb :: drop k (s_jobs s)
        ∧ (k <= length (s_jobs s))%nat
        ∧ s_ch s' = s_ch s ∧ s_chClosed s' = s_chClosed s
        ∧ s_mainDone s' = s_mainDone s ∧ s_printer s' = s_printer s
        ∧ s_arrived s' = s_arrived s
        ∧ s_stderr s `sublist_of` s_stderr s'.

Definition withSkipped (k : nat) (cidr : string) (s : Sys) : Sys :=
  mkSys (take k (s_jobs s) ++ skippedJob cidr :: drop k (s_jobs s))
        (s_wg s) (s_ch s) (s_chClosed s) (s_mainDone s) (s_printer s)
        (s_arrived s) (parseErrorLine cidr :: s_stderr s).

(** ** The way of a hostname through the pool *)

Section Flow.
Context `{Externals}.
Variable cfg : Config.

(** [hostname] is one of the hostnames that a lookup of one of the
    addresses [enq] returned. *)
Definition lookedUp (enq : list IP) (hostname : string) : Prop :=
  ∃ ip r, ip ∈ enq ∧ clientGet (shodanURL (IP_String ip)) r
          ∧ hostname ∈ fst (fetchHostnamesFromShodan (c_verbose cfg) (IP_String ip) r).

(** What a worker holds comes from the addresses handed out. *)
Definition worker_flow (enq : list IP) (wk : Worker) : Prop :=
  match wk with
  | WInLookup ip => ip ∈ enq
  | WLoop hostnames => Forall (lookedUp enq) hostnames
  | WRecv | WExit => True
  end.

(** A job without workers has handed out and sent nothing; what the
    workers hold and what they have sent on [ch] comes from lookups of
    the addresses handed out, and what was sent passed the filters. *)
Definition job_flow (j : Job) : Prop :=
  (j_workers j = [] → j_enq j = [] ∧ j_sent j = [])
  ∧ Forall (worker_flow (j_enq j)) (j_workers j)
  ∧ Forall (λ h, lookedUp (j_enq j) h
                 ∧ forwarded (c_filter cfg) (c_match cfg) h = true) (j_sent j).

(** A job that has returned on a descriptor [ParseCIDR] rejected. *)
Definition reported (j : Job) : bool :=
  finished j && match ParseCIDR (j_cidr j) with None => true | Some _ => false end.

(** What is in [ch] or has left it is what the workers have sent, each
    worker's hostnames in the order it sent them; [ch] never holds more
    than its capacity; without [-v] the diagnostic stream holds the
    reports of the rejected descriptors and nothing else. *)
Definition flow_ok (s : Sys) : Prop :=
  Forall job_flow (s_jobs s)
  ∧ s_arrived s ++ s_ch s ≡ₚ mjoin (j_sent <$> s_jobs s)
  ∧ Forall (λ j, j_sent j `sublist_of` s_arrived s ++ s_ch s) (s_jobs s)
  ∧ (s_ch s = [] ∨ Z.of_nat (length (s_ch s)) <= c_cap cfg)
  ∧ (c_verbose cfg = false →
     s_stderr s ≡ₚ (λ j, parseErrorLine (j_cidr j)) <$> List.filter reported (s_jobs s)).

End Flow.

(** ** What is left to do

    Two counts that the steps of the program bring down when no job
    hands out more than [fuel] addresses.  [pending] counts the addresses
    not yet handed out twice, the lookups in flight, and the jobs that
    have not called [ParseCIDR]; [work] counts what the goroutines can
    still do without a lookup. *)

Section Measure.
Variable fuel : nat.

Definition workerWork (wk : Worker) : nat :=
  match wk with
  | WLoop hostnames => 2 * length hostnames + 2
  | WRecv => 1
  | WInLookup _ | WExit => 0
  end.

Definition jobPending (j : Job) : nat :=
  2 * (fuel - length (j_enq j)) + j_inflight j
  + match j_prod j with PStart => 1 | _ => 0 end.

Definition jobWork (j : Job) : nat :=
  sum_list (workerWork <$> j_workers j)
  + match j_prod j with PStart | PDone => 0 | PLoop _ _ => 2 | PWait => 1 end.

Definition pending (s : Sys) : nat := sum_list (jobPending <$> s_jobs s).

Definition work (s : Sys) : nat :=
  sum_list (jobWork <$> s_jobs s) + length (s_ch s)
  + (if s_chClosed s then 0 else 1) + (if s_mainDone s then 0 else 1).

End Measure.

End Pool.

(** ** A sequential scan

    What the program would print if it looked the addresses up one
    after the other, in the order of the list: for each address the
    hostnames of its lookup are filtered and printed unless already
    printed.  [lookup] gives the answer of the network for an address. *)

Section Sequential.
Context `{Externals}.
Variable cfg : Config.
Variable lookup : IP → GetResult.

(** The hostnames that pass the filters, for one address. *)
Definition hostsOf (ip : IP) : list string :=
  forward (c_filter cfg) (c_match cfg)
    (fst (fetchHostnamesFromShodan (c_verbose cfg) (IP_String ip) (lookup ip))).

Definition sequentialScan (addresses : list IP) : Printer :=
  foldl (λ st ip, foldl receive st (hostsOf ip)) emptyPrinter addresses.

(** The same hostnames as one sequence. *)
Definition scanSends (addresses : list IP) : list string :=
  List.flat_map hostsOf addresses.

(** What the one worker of a job has sent on [ch], against the
    addresses it has received. *)
Definition workerSent (j : Pool.Job) (wk : Pool.Worker) : Prop :=
  match wk with
  | Pool.WRecv | Pool.WExit => Pool.j_sent j = scanSends (Pool.j_enq j)
  | Pool.WInLookup ip =>
      ∃ enq', Pool.j_enq j = enq' ++ [ip] ∧ Pool.j_sent j = scanSends enq'
  | Pool.WLoop hostnames =>
      ∃ enq' ip,
        Pool.j_enq j = enq' ++ [ip]
        ∧ Pool.j_sent j ++ forward (c_filter cfg) (c_match cfg) hostnames
          = scanSends (enq' ++ [ip])
  end.

(** The program with one job and one worker. *)
Definition seq_ok (s : Pool.Sys) : Prop :=
  ∃ j, Pool.s_jobs s = [j]
       ∧ Pool.s_arrived s ++ Pool.s_ch s = Pool.j_sent j
       ∧ ((Pool.j_workers j = [] ∧ Pool.j_sent j = [] ∧ Pool.j_enq j = [])
          ∨ ∃ wk, Pool.j_workers j = [wk] ∧ workerSent j wk).

(** A state of the program with one job and one worker in which [ch] is
    empty and everything sent has been printed. *)
Definition seqState (cidr : string) (prod : Pool.Producer) (wk : Pool.Worker)
    (localWg inflight : nat) (enq : list IP) (urls sent : list string)
    (wg : nat) (closed done : bool) (stderr : list string) : Pool.Sys :=
  Pool.mkSys [Pool.mkJob cidr prod [wk] localWg inflight enq urls sent]
             wg [] closed done (aggregate sent) sent stderr.

End Sequential.

(** ** What a job still owes

    With a network that answers each address in one way, every address
    a job has handed out accounts for the hostnames of its lookup that
    pass the filters: they have been sent on [ch], or the worker that
    took the address still has them before it. *)

Section Owed.
Context `{Externals}.
Variable cfg : Config.
Variable lookup : IP → GetResult.

Definition pendingOf (wk : Pool.Worker) : list string :=
  match wk with
  | Pool.WInLookup ip => hostsOf cfg lookup ip
  | Pool.WLoop hostnames => forward (c_filter cfg) (c_match cfg) hostnames
  | Pool.WRecv | Pool.WExit => []
  end.

Definition job_complete (j : Pool.Job) : Prop :=
  Pool.j_sent j ++ mjoin (pendingOf <$> Pool.j_workers j)
  ≡ₚ scanSends cfg lookup (Pool.j_enq j).

End Owed.

(** ** An instance of the environment, to run the program on examples

    Patterns are plain strings that match the hostnames containing them;
    descriptors are IPv4 only; the network answers with a page whose one
    [<b>] element is [.example.com], after the text found in [mockPages]. *)

Module Example.

Fixpoint containsStr (pat s : string) : bool :=
  String.prefix pat s
  || match s with
     | EmptyString => false
     | String _ s' => containsStr pat s'
     end.

Fixpoint splitOn (sep : Ascii.ascii) (s : string) : list string :=
  match s with
  | EmptyString => [EmptyString]
  | String c s' =>
      if Ascii.eqb c sep then EmptyString :: splitOn sep s'
      else match splitOn sep s' with
           | [] => [String c EmptyString]
           | x :: xs => String c x :: xs
           end
  end.

Definition digit (c : Ascii.ascii) : option Z :=
  let n := Z.of_N (Ascii.N_of_ascii c) in
  if (48 <=? n) && (n <=? 57) then Some (n - 48) else None.

Fixpoint digits (acc : Z) (s : string) : option Z :=
  match s with
  | EmptyString => Some acc
  | String c s' => d ← digit c; digits (acc * 10 + d) s'
  end.

Definition number (s : string) : option Z :=
  if decide (s = EmptyString) then None else digits 0 s.

Definition octet (s : string) : option Z :=
  n ← number s;
  if (String.length s <=? 3)%nat && (n <=? 255)
     && (bool_decide (s = "0"%string) || negb (String.prefix "0" s))
  then Some n else None.

(** [net.ParseCIDR] on the text [a.b.c.d/ones]. *)
Definition parseCIDRv4 (s : string) : option net.IPNet :=
  match splitOn "/"%char s with
  | [a; m] =>
      match splitOn "."%char a with
      | [x1; x2; x3; x4] =>
          o1 ← octet x1; o2 ← octet x2; o3 ← octet x3; o4 ← octet x4;
          ones ← number m;
          net.ParseCIDR_v4 [o1; o2; o3; o4] ones
      | _ => None
      end
  | _ => None
  end.

(** [ip.String()] on the four bytes of an IPv4 address. *)
Definition dottedQuad (ip : IP) : string :=
  match ip with
  | [a; b; c; d] =>
      (pretty a +:+ "." +:+ pretty b +:+ "." +:+ pretty c +:+ "." +:+ pretty d)%string
  | _ => "?"%string
  end.

Fixpoint trimLeft (s : string) : string :=
  match s with
  | String " "%char s' => trimLeft s'
  | _ => s
  end.

Definition trimSpace (s : string) : string :=
  String.rev (trimLeft (String.rev (trimLeft s))).

(** The pages of the mock network: one host behind [10.0.0.1] and the same
    host behind [10.0.0.3]; [10.0.0.2] answers with status 404. *)
Definition mockGet (url : string) : GetResult :=
  if decide (url = "https://www.shodan.io/host/10.0.0.1"%string) then GetOk 200 " a"
  else if decide (url = "https://www.shodan.io/host/10.0.0.3"%string) then GetOk 200 "a "
  else if decide (url = "https://www.shodan.io/host/10.0.0.2"%string) then GetOk 404 EmptyString
  else if decide (url = "https://www.shodan.io/host/10.0.0.5"%string) then GetOk 200 "internal"
  else GetError "timeout".

Definition mockDocument (body : string) : string + list BoldNode :=
  if decide (body = EmptyString) then inl "EOF"%string
  else inr [mkBold ".example.com" (Some body)].

#[local] Instance mock : Externals := {|
  Regexp := string;
  MustCompile := Some;
  MatchString := containsStr;
  ParseCIDR := parseCIDRv4;
  IP_String := dottedQuad;
  clientGet := λ url r, r = mockGet url;
  NewDocumentFromReader := mockDocument;
  TrimSpace := trimSpace;
|}.

End Example.

(* ===================================================================== *)
(** * Properties *)
(* ===================================================================== *)

Example expand_10_0_0_0_30 :
  (n ← net.ParseCIDR_v4 [10; 0; 0; 7] 30; expand 5 n)
  = Some [[10; 0; 0; 4]; [10; 0; 0; 5]; [10; 0; 0; 6]; [10; 0; 0; 7]].
Proof. reflexivity. Qed.

Example incrementIP_carry : incrementIP [10; 0; 255; 255] = [10; 1; 0; 0].
Proof. reflexivity. Qed.

Example incrementIP_wraps : incrementIP [255; 255; 255; 255] = [0; 0; 0; 0].
Proof. reflexivity. Qed.

(** ** Byte slices as numbers *)

Section IPValue.

Lemma ipVal_snoc (l : IP) (b : Z) : ipVal (l ++ [b]) = ipVal l * 256 + b.
Proof. unfold ipVal. by rewrite fold_left_app. Qed.

Lemma ipVal_app (l1 l2 : IP) :
  ipVal (l1 ++ l2) = ipVal l1 * 256 ^ Z.of_nat (length l2) + ipVal l2.
Proof.
  induction l2 as [|b l2 IH] using rev_ind.
  - rewrite app_nil_r. cbn. lia.
  - rewrite app_assoc, !ipVal_snoc, IH, length_app. cbn [length].
    replace (Z.of_nat (length l2 + 1)) with (Z.of_nat (length l2) + 1) by lia.
    rewrite Z.pow_add_r by lia. lia.
Qed.

Lemma ipVal_cons (b : Z) (l : IP) :
  ipVal (b :: l) = b * 256 ^ Z.of_nat (length l) + ipVal l.
Proof. change (b :: l) with ([b] ++ l). rewrite ipVal_app. cbn. lia. Qed.

Lemma ipVal_bounds (l : IP) :
  wfIP l → 0 <= ipVal l < 256 ^ Z.of_nat (length l).
Proof.
  induction l as [|b l IH] using rev_ind; intros Hwf.
  - cbn. lia.
  - apply Forall_app in Hwf as [Hl Hb]. rewrite Forall_singleton in Hb.
    specialize (IH Hl). rewrite ipVal_snoc, length_app. cbn [length].
    replace (Z.of_nat (length l + 1)) with (Z.of_nat (length l) + 1) by lia.
    rewrite Z.pow_add_r, Z.pow_1_r by lia. unfold byte_ok in Hb. lia.
Qed.

Lemma ipVal_inj (l1 l2 : IP) :
  wfIP l1 → wfIP l2 → length l1 = length l2 → ipVal l1 = ipVal l2 → l1 = l2.
Proof.
  revert l2. induction l1 as [|b1 l1 IH] using rev_ind; intros l2 H1 H2 Hlen Hval.
  - destruct l2; [done | discriminate].
  - destruct l2 as [|b2 l2 _] using rev_ind.
    { rewrite length_app in Hlen. cbn in Hlen. lia. }
    rewrite !length_app in Hlen. cbn in Hlen.
    apply Forall_app in H1 as [H1 Hb1]. rewrite Forall_singleton in Hb1.
    apply Forall_app in H2 as [H2 Hb2]. rewrite Forall_singleton in Hb2.
    rewrite !ipVal_snoc in Hval. unfold byte_ok in *.
    assert (ipVal l1 = ipVal l2 ∧ b1 = b2) as [Hv ->] by lia.
    f_equal. apply IH; [done | done | lia | done].
Qed.

End IPValue.

(** ** [incrementIP] adds one, modulo the size of the address space *)

Section Increment.

Lemma incrementIP_from_length (n : nat) (ip : IP) :
  length (incrementIP_from n ip) = length ip.
Proof.
  revert ip. induction n as [|j IH]; intros ip; cbn [incrementIP_from]; [done|].
  destruct (ip !! j) as [b|]; [|done].
  destruct (0 <? byte_incr b); [by rewrite length_insert|].
  by rewrite IH, length_insert.
Qed.

Lemma incrementIP_length (ip : IP) : length (incrementIP ip) = length ip.
Proof. apply incrementIP_from_length. Qed.

(** The loop entered at index [length pre - 1] rewrites [pre] only. *)
Lemma incrementIP_from_spec (pre suf : IP) :
  wfIP pre →
  ∃ pre', incrementIP_from (length pre) (pre ++ suf) = pre' ++ suf
          ∧ length pre' = length pre ∧ wfIP pre'
          ∧ ipVal pre' = (ipVal pre + 1) mod 256 ^ Z.of_nat (length pre).
Proof.
  revert suf. induction pre as [|b pre IH] using rev_ind; intros suf Hwf.
  - exists []. cbn. split; [done|]. split; [done|]. split; [constructor|done].
  - apply Forall_app in Hwf as [Hpre Hb]. rewrite Forall_singleton in Hb.
    rewrite length_app. cbn [length]. rewrite Nat.add_1_r. cbn [incrementIP_from].
    rewrite <- app_assoc. cbn [app].
    rewrite (list_lookup_middle pre suf b (length pre) eq_refl).
    rewrite insert_app_r_alt by lia. rewrite Nat.sub_diag.
      change (<[0%nat:=?x]> (b :: suf)) with (x :: suf).
    pose proof (ipVal_bounds pre Hpre) as Hbnd.
    assert (Hpow : 256 ^ Z.of_nat (S (length pre)) = 256 ^ Z.of_nat (length pre) * 256).
    { rewrite Nat2Z.inj_succ, Z.pow_succ_r by lia. lia. }
    unfold byte_ok in Hb. unfold byte_incr.
    destruct (Z.ltb_spec 0 ((b + 1) mod 256)) as [Hpos|Hzero].
    + assert (b < 255) by (destruct (Z.eq_dec b 255) as [->|]; [change ((255 + 1) mod 256) with 0 in Hpos|]; lia).
      rewrite Z.mod_small by lia.
      exists (pre ++ [b + 1]). rewrite <- app_assoc. cbn [app].
      split; [done|]. split; [rewrite !length_app; cbn; lia|].
      split.
      { apply Forall_app. split; [done|]. apply Forall_singleton. unfold byte_ok. lia. }
      rewrite !ipVal_snoc, Hpow. rewrite Z.mod_small; lia.
    + assert (b = 255) as ->.
      { destruct (Z.eq_dec b 255); [done|]. rewrite Z.mod_small in Hzero; lia. }
      change ((255 + 1) mod 256) with 0.
      destruct (IH (0 :: suf) Hpre) as (pre' & Heq & Hlen & Hwf' & Hval).
      rewrite Heq. exists (pre' ++ [0]). rewrite <- app_assoc. cbn [app].
      split; [done|]. split; [rewrite !length_app; cbn; lia|].
      split.
      { apply Forall_app. split; [done|]. apply Forall_singleton. unfold byte_ok. lia. }
      rewrite !ipVal_snoc, Hval, Hpow.
      replace (ipVal pre * 256 + 255 + 1) with ((ipVal pre + 1) * 256) by lia.
      rewrite Z.mul_mod_distr_r by lia. lia.
Qed.

Lemma incrementIP_spec (ip : IP) :
  wfIP ip →
  length (incrementIP ip) = length ip ∧ wfIP (incrementIP ip)
  ∧ ipVal (incrementIP ip) = (ipVal ip + 1) mod 256 ^ Z.of_nat (length ip).
Proof.
  intros Hwf. destruct (incrementIP_from_spec ip [] Hwf) as (pre' & Heq & Hlen & Hwf' & Hval).
  rewrite !app_nil_r in Heq. unfold incrementIP. rewrite Heq. done.
Qed.

Lemma iter_incrementIP (i : nat) (ip : IP) :
  wfIP ip → length ip = 4%nat →
  wfIP (Nat.iter i incrementIP ip) ∧ length (Nat.iter i incrementIP ip) = 4%nat
  ∧ ipVal (Nat.iter i incrementIP ip) = (ipVal ip + Z.of_nat i) mod 2 ^ 32.
Proof.
  intros Hwf Hl. induction i as [|i (IHwf & IHl & IHv)].
  - cbn [Nat.iter]. pose proof (ipVal_bounds ip Hwf) as Hi. rewrite Hl in Hi.
    change (256 ^ Z.of_nat 4) with (2 ^ 32) in Hi.
    rewrite Z.add_0_r, Z.mod_small by lia. done.
  - rewrite Nat.iter_succ. destruct (incrementIP_spec _ IHwf) as (Hl' & Hwf' & Hv').
    rewrite IHl in Hl', Hv'. change (256 ^ Z.of_nat 4) with (2 ^ 32) in Hv'.
    split; [done|]. split; [done|].
    rewrite Hv', IHv, Zplus_mod_idemp_l. f_equal. lia.
Qed.

End Increment.

(** ** Masks: byte-wise [&] against arithmetic on the value *)

Section Masks.

Lemma byte_land_ok (a c : Z) : byte_ok a → byte_ok c → byte_ok (Z.land a c).
Proof.
  unfold byte_ok. intros Ha Hc. split.
  - apply Z.land_nonneg. lia.
  - assert (Z.land a c = Z.land a c mod 256) as ->; [|apply Z.mod_pos_bound; lia].
    change 256 with (2 ^ 8). rewrite <- Z.land_ones by lia.
    rewrite <- Z.land_assoc, (Z.land_ones c) by lia.
    change (2 ^ 8) with 256. by rewrite (Z.mod_small c) by lia.
Qed.

Lemma wfIP_zip_land (a m : IP) : wfIP a → wfIP m → wfIP (zip_with Z.land a m).
Proof.
  intros Ha. revert m. induction Ha as [|x a Hx Ha IH]; intros m Hm; [constructor|].
  destruct Hm as [|y m Hy Hm]; [constructor|].
  cbn. constructor; [by apply byte_land_ok | by apply IH].
Qed.

Lemma land_snoc (x y b c : Z) :
  byte_ok b → byte_ok c →
  Z.land (x * 256 + b) (y * 256 + c) = Z.land x y * 256 + Z.land b c.
Proof.
  unfold byte_ok. intros Hb Hc.
  pose proof (byte_land_ok b c Hb Hc) as Hbc. unfold byte_ok in Hbc.
  set (L := Z.land (x * 256 + b) (y * 256 + c)).
  assert (Hdiv : L / 256 = Z.land x y).
  { replace (L / 256) with (Z.shiftr L 8) by (by rewrite Z.shiftr_div_pow2 by lia).
    unfold L. rewrite Z.shiftr_land, !Z.shiftr_div_pow2 by lia. change (2 ^ 8) with 256.
    rewrite !Z.div_add_l, !Z.div_small by lia. by rewrite !Z.add_0_r. }
  assert (Hmod : L mod 256 = Z.land b c).
  { replace (L mod 256) with (Z.land L (Z.ones 8)) by (by rewrite Z.land_ones by lia).
    unfold L.
    assert (Z.land (Z.land (x * 256 + b) (y * 256 + c)) (Z.ones 8)
            = Z.land (Z.land (x * 256 + b) (Z.ones 8))
                     (Z.land (y * 256 + c) (Z.ones 8))) as ->.
    { apply Z.bits_inj'. intros i _. rewrite !Z.land_spec.
      destruct (Z.testbit _ i), (Z.testbit _ i), (Z.testbit _ i); done. }
    rewrite !Z.land_ones by lia. change (2 ^ 8) with 256.
    rewrite (Z.add_comm (x * 256)), (Z.add_comm (y * 256)), !Z.mod_add by lia.
    by rewrite !Z.mod_small by lia. }
  rewrite (Z.div_mod L 256) by lia. lia.
Qed.

Lemma ipVal_zip_land (a m : IP) :
  wfIP a → wfIP m → length a = length m →
  ipVal (zip_with Z.land a m) = Z.land (ipVal a) (ipVal m).
Proof.
  revert m. induction a as [|b a IH] using rev_ind; intros m Ha Hm Hlen.
  - destruct m; [done | discriminate].
  - destruct m as [|c m _] using rev_ind.
    { rewrite length_app in Hlen. cbn in Hlen. lia. }
    rewrite !length_app in Hlen. cbn in Hlen.
    apply Forall_app in Ha as [Ha Hb]. rewrite Forall_singleton in Hb.
    apply Forall_app in Hm as [Hm Hc]. rewrite Forall_singleton in Hc.
    rewrite zip_with_app by lia. cbn [zip_with].
    rewrite !ipVal_snoc, IH by (done || lia). by rewrite land_snoc.
Qed.

Lemma testbit_above (v n i : Z) :
  0 <= v < 2 ^ n → n <= i → Z.testbit v i = false.
Proof.
  intros Hv Hi. destruct (Z.eq_dec v 0) as [->|Hne]; [apply Z.bits_0|].
  apply Z.bits_above_log2; [lia|].
  assert (Z.log2 v < n); [|lia]. apply Z.log2_lt_pow2; lia.
Qed.

(** Masking with [k] low zero bits clears the low [k] bits. *)
Lemma land_high_mask (k v : Z) :
  0 <= k <= 32 → 0 <= v < 2 ^ 32 →
  Z.land v (2 ^ 32 - 2 ^ k) = v / 2 ^ k * 2 ^ k.
Proof.
  intros Hk Hv.
  assert (2 ^ 32 - 2 ^ k = Z.shiftl (Z.ones (32 - k)) k) as ->.
  { rewrite Z.shiftl_mul_pow2, Z.ones_equiv by lia.
    replace 32 with ((32 - k) + k) at 1 by lia. rewrite Z.pow_add_r by lia.
    unfold Z.pred. ring. }
  rewrite <- Z.shiftr_div_pow2, <- Z.shiftl_mul_pow2 by lia.
  apply Z.bits_inj'. intros i Hi.
  rewrite Z.land_spec, !Z.shiftl_spec by lia.
  destruct (Z.ltb_spec i k) as [Hlt|Hge].
  - rewrite !(Z.testbit_neg_r _ (i - k)) by lia. apply andb_false_r.
  - rewrite Z.shiftr_spec by lia. replace (i - k + k) with i by lia.
    rewrite Z.testbit_ones_nonneg by lia.
    destruct (Z.ltb_spec (i - k) (32 - k)) as [Hin|Hout]; [apply andb_true_r|].
    rewrite (testbit_above v 32 i) by lia. done.
Qed.

End Masks.

(** ** [CIDRMask], [Mask] and [Contains] on IPv4 descriptors *)

Section CIDR.

Lemma prefix_cases (p : Z) :
  0 <= p <= 32 → ∃ i : nat, (i <= 32)%nat ∧ p = Z.of_nat i.
Proof. intros Hp. exists (Z.to_nat p). lia. Qed.

(** The mask of [p] leading ones is [2^32 - 2^(32-p)]: checked on each
    of the 33 prefix lengths. *)
Lemma CIDRMask_v4 (p : Z) :
  0 <= p <= 32 →
  ∃ m, net.CIDRMask p 32 = Some m ∧ length m = 4%nat ∧ wfIP m
       ∧ ipVal m = 2 ^ 32 - 2 ^ (32 - p).
Proof.
  intros Hp. destruct (prefix_cases p Hp) as (i & Hi & ->).
  do 33 (destruct i as [|i];
         [eexists; split; [reflexivity|]; split; [reflexivity|];
          split; [by apply (bool_decide_unpack (wfIP _)); vm_compute | reflexivity]|]).
  lia.
Qed.

Ltac four l :=
  destruct l as [|? [|? [|? [|? [|? ?]]]]]; try discriminate.

Lemma To4_v4 (ip : IP) : length ip = 4%nat → net.To4 ip = Some ip.
Proof. intros H. unfold net.To4. by rewrite H. Qed.

Lemma Mask_same_length (ip : IP) (m : IPMask) :
  length ip = 4%nat → length m = 4%nat → net.Mask ip m = zip_with Z.land ip m.
Proof. intros Hi Hm. four ip. four m. reflexivity. Qed.

Lemma Mask_v4_in_v6 (addr : IP) (m : IPMask) :
  length addr = 4%nat → length m = 4%nat →
  net.Mask (net.v4InV6Prefix ++ addr) m = zip_with Z.land addr m.
Proof.
  intros Ha Hm. four addr. four m. reflexivity.
Qed.

Lemma Contains_v4 (nn : IP) (m : IPMask) (ip : IP) :
  length nn = 4%nat → length m = 4%nat → length ip = 4%nat →
  net.Contains (net.mkIPNet nn m) ip = net.sameNetwork nn m ip.
Proof.
  intros Hn Hm Hi. four nn. four m. four ip. reflexivity.
Qed.

Lemma sameNetwork_spec (nn : IP) (m : IPMask) (ip : IP) :
  length nn = length m → length ip = length m →
  net.sameNetwork nn m ip = true ↔ zip_with Z.land nn m = zip_with Z.land ip m.
Proof.
  revert m ip. induction nn as [|a nn IH]; intros [|c m] [|b ip] Hn Hi;
    try discriminate; [done|].
  cbn. rewrite andb_true_iff, Z.eqb_eq, IH by (cbn in *; lia).
  split; [intros [-> ->]; done | intros [= -> ->]; done].
Qed.

End CIDR.

(** ** The address loop on an IPv4 descriptor [addr/p] *)

Section Range.

Variables (addr : IP) (p : Z) (n : net.IPNet).
Hypothesis Haddr : wfIP addr.
Hypothesis Hlen : length addr = 4%nat.
Hypothesis Hp : 0 <= p <= 32.
Hypothesis Hparse : net.ParseCIDR_v4 addr p = Some n.

(** Number of host bits, size of the range, and its first address. *)
Let k : Z := 32 - p.
Let size : Z := 2 ^ k.
Let base : Z := ipVal addr / size * size.

Lemma range_size_pos : 0 < size.
Proof. unfold size, k. apply Z.pow_pos_nonneg; lia. Qed.

Lemma range_base_bounds : 0 <= base ∧ base + size <= 2 ^ 32.
Proof.
  pose proof range_size_pos as Hs.
  pose proof (ipVal_bounds addr Haddr) as Hb. rewrite Hlen in Hb.
  change (256 ^ Z.of_nat 4) with (2 ^ 32) in Hb.
  assert (H32 : 2 ^ 32 = 2 ^ p * size).
  { unfold size, k. rewrite <- Z.pow_add_r by lia. f_equal. lia. }
  assert (0 <= ipVal addr / size < 2 ^ p).
  { split; [apply Z.div_pos; lia|]. apply Z.div_lt_upper_bound; lia. }
  unfold base. rewrite H32. nia.
Qed.

Lemma parsed_net :
  ∃ m, n = net.mkIPNet (zip_with Z.land addr m) m ∧ length m = 4%nat ∧ wfIP m
       ∧ ipVal m = 2 ^ 32 - size.
Proof.
  destruct (CIDRMask_v4 p Hp) as (m & Hm & Hl & Hwf & Hv).
  unfold net.ParseCIDR_v4 in Hparse. rewrite Hm in Hparse. cbn [mbind option_bind] in Hparse.
  rewrite Mask_v4_in_v6 in Hparse by done. exists m. by injection Hparse as <-.
Qed.

Lemma loopStart_spec :
  wfIP (loopStart n) ∧ length (loopStart n) = 4%nat ∧ ipVal (loopStart n) = base.
Proof.
  destruct parsed_net as (m & -> & Hl & Hwf & Hv).
  pose proof (ipVal_bounds addr Haddr) as Hb. rewrite Hlen in Hb.
  change (256 ^ Z.of_nat 4) with (2 ^ 32) in Hb.
  assert (Hz : wfIP (zip_with Z.land addr m)) by by apply wfIP_zip_land.
  assert (Hzl : length (zip_with Z.land addr m) = 4%nat).
  { rewrite length_zip_with. lia. }
  unfold loopStart. cbn [net.ipnet_IP net.ipnet_Mask].
  rewrite Mask_same_length by done.
  split; [by apply wfIP_zip_land|]. split; [rewrite length_zip_with; lia|].
  rewrite !ipVal_zip_land, Hv by (done || lia).
  rewrite <- Z.land_assoc, Z.land_diag. unfold size.
  rewrite land_high_mask by (unfold k; lia). done.
Qed.

(** [Contains] compares the bits above the host part. *)
Lemma Contains_spec (ip : IP) :
  wfIP ip → length ip = 4%nat →
  net.Contains n ip = true ↔ ipVal ip / size = ipVal addr / size.
Proof.
  intros Hwf Hl. destruct parsed_net as (m & -> & Hml & Hmwf & Hv).
  pose proof range_size_pos as Hs.
  pose proof (ipVal_bounds addr Haddr) as Hb. rewrite Hlen in Hb.
  pose proof (ipVal_bounds ip Hwf) as Hi. rewrite Hl in Hi.
  change (256 ^ Z.of_nat 4) with (2 ^ 32) in Hb, Hi.
  assert (Hzl : length (zip_with Z.land addr m) = 4%nat).
  { rewrite length_zip_with. lia. }
  rewrite Contains_v4, sameNetwork_spec by (done || lia).
  split.
  - intros Heq. apply (f_equal ipVal) in Heq.
    rewrite !ipVal_zip_land, Hv in Heq
      by (done || lia || by apply wfIP_zip_land).
    rewrite <- Z.land_assoc, Z.land_diag in Heq. unfold size in *.
    rewrite !land_high_mask in Heq by (unfold k; lia). nia.
  - intros Heq. apply ipVal_inj.
    + apply wfIP_zip_land; [by apply wfIP_zip_land | done].
    + by apply wfIP_zip_land.
    + rewrite !length_zip_with. lia.
    + rewrite !ipVal_zip_land, Hv by (done || lia || by apply wfIP_zip_land).
      rewrite <- Z.land_assoc, Z.land_diag. unfold size in *.
      rewrite !land_high_mask by (unfold k; lia). by rewrite Heq.
Qed.

Lemma Contains_inside (ip : IP) :
  wfIP ip → length ip = 4%nat →
  base <= ipVal ip < base + size → net.Contains n ip = true.
Proof.
  intros Hwf Hl Hin. apply Contains_spec; [done..|].
  pose proof range_size_pos as Hs. unfold base in Hin.
  set (q := ipVal addr / size) in *.
  replace (ipVal ip) with (q * size + (ipVal ip - q * size)) by lia.
  rewrite Z.div_add_l, Z.div_small by lia. lia.
Qed.

(** One past the range the cursor is outside of it, also when the
    increment wrapped around, as long as the prefix is not empty. *)
Lemma Contains_past (ip : IP) :
  1 <= p → wfIP ip → length ip = 4%nat →
  ipVal ip = (base + size) mod 2 ^ 32 → net.Contains n ip = false.
Proof.
  intros Hp1 Hwf Hl Hv. apply not_true_is_false. rewrite Contains_spec by done.
  pose proof range_size_pos as Hs. pose proof range_base_bounds as [Hb0 Hb1].
  rewrite Hv. unfold base in *. set (q := ipVal addr / size) in *.
  assert (H32 : 2 ^ 32 = 2 ^ p * size).
  { unfold size, k. rewrite <- Z.pow_add_r by lia. f_equal. lia. }
  assert (Hp2 : 2 <= 2 ^ p).
  { change 2 with (2 ^ 1) at 1. apply Z.pow_le_mono_r; lia. }
  destruct (Z.eq_dec (q * size + size) (2 ^ 32)) as [Heq|Hne].
  - rewrite Heq, Z.mod_same, Z.div_0_l by lia. nia.
  - rewrite Z.mod_small by lia.
    replace (q * size + size) with ((q + 1) * size) by lia.
    rewrite Z.div_mul by lia. lia.
Qed.

(** The loop entered [r] addresses before the end of the range sends
    exactly those [r] addresses, in increasing order, and stops. *)
Lemma enqueue_run (r : nat) (ip : IP) :
  1 <= p → wfIP ip → length ip = 4%nat → Z.of_nat r <= size →
  ipVal ip = (base + size - Z.of_nat r) mod 2 ^ 32 →
  ∃ l, enqueue (S r) n ip = Some l ∧ Forall wfIP l
       ∧ Forall (λ a : IP, length a = 4%nat) l
       ∧ ipVal <$> l = seqZ (base + size - Z.of_nat r) (Z.of_nat r).
Proof.
  intros Hp1. pose proof range_size_pos as Hs.
  pose proof range_base_bounds as [Hb0 Hb1].
  revert ip. induction r as [|r IH]; intros ip Hwf Hl Hr Hv.
  - exists []. cbn [enqueue]. rewrite Contains_past; [done..|].
    by rewrite Hv, Z.sub_0_r.
  - rewrite Z.mod_small in Hv by lia.
    destruct (incrementIP_spec ip Hwf) as (Hl' & Hwf' & Hv').
    rewrite Hl in Hl', Hv'. change (256 ^ Z.of_nat 4) with (2 ^ 32) in Hv'.
    destruct (IH (incrementIP ip)) as (l & Hrun & Hwfl & Hlenl & Hvals);
      [done | done | lia | rewrite Hv', Hv; f_equal; lia |].
    exists (ip :: l). split.
    { change (enqueue (S (S r)) n ip)
        with (if net.Contains n ip
              then cons ip <$> enqueue (S r) n (incrementIP ip) else Some []).
      rewrite Contains_inside by (done || lia). by rewrite Hrun. }
    split; [by constructor|]. split; [by constructor|].
    rewrite fmap_cons, Hvals, Hv, (seqZ_cons _ (Z.of_nat (S r))) by lia.
    f_equal. f_equal; lia.
Qed.

(** On [addr/0] every four-byte address is contained in the network. *)
Lemma Contains_slash0 (ip : IP) :
  p = 0 → wfIP ip → length ip = 4%nat → net.Contains n ip = true.
Proof.
  intros Hp0 Hwf Hl. apply Contains_spec; [done..|].
  pose proof (ipVal_bounds addr Haddr) as Hb. rewrite Hlen in Hb.
  pose proof (ipVal_bounds ip Hwf) as Hi. rewrite Hl in Hi.
  change (256 ^ Z.of_nat 4) with (2 ^ 32) in Hb, Hi.
  unfold size, k. rewrite Hp0, Z.sub_0_r. by rewrite !Z.div_small by lia.
Qed.

Lemma enqueue_slash0 (fuel : nat) (ip : IP) :
  p = 0 → wfIP ip → length ip = 4%nat → enqueue fuel n ip = None.
Proof.
  intros Hp0. revert ip. induction fuel as [|fuel IH]; intros ip Hwf Hl; [done|].
  cbn [enqueue]. rewrite Contains_slash0 by done.
  destruct (incrementIP_spec ip Hwf) as (Hl' & Hwf' & _).
  rewrite IH; [done | done | congruence].
Qed.

Lemma enqueued_slash0 (j : nat) (ip : IP) :
  p = 0 → wfIP ip → length ip = 4%nat →
  enqueued j n ip = (λ i, Nat.iter i incrementIP ip) <$> seq 0 j.
Proof.
  intros Hp0. revert ip. induction j as [|j IH]; intros ip Hwf Hl; [done|].
  cbn [enqueued]. rewrite Contains_slash0 by done.
  destruct (incrementIP_spec ip Hwf) as (Hl' & Hwf' & _).
  rewrite IH by (done || congruence). cbn [seq]. rewrite fmap_cons. f_equal.
  rewrite <- (fmap_S_seq 0), <- list_fmap_compose. apply list_fmap_ext.
  intros _ i _. symmetry. apply Nat.iter_succ_r.
Qed.

End Range.

(** ** Range expansion for prefix lengths 1 to 32

    For [addr/p] with [1 <= p <= 32] the loop of [processCIDR] ends after
    [2^(32-p)] addresses: the consecutive addresses from the network
    address [addr & mask] to the last address of the range. *)
Theorem expand_prefix_positive (addr : IP) (p : Z) :
  wfIP addr → length addr = 4%nat → 1 <= p <= 32 →
  ∃ m n l,
    net.CIDRMask p 32 = Some m ∧ net.ParseCIDR_v4 addr p = Some n
    ∧ expand (S (Z.to_nat (2 ^ (32 - p)))) n = Some l
    ∧ Forall wfIP l ∧ Forall (λ a : IP, length a = 4%nat) l
    ∧ ipVal <$> l = seqZ (ipVal (zip_with Z.land addr m)) (2 ^ (32 - p))
    ∧ length l = Z.to_nat (2 ^ (32 - p))
    ∧ (∀ i j a b, l !! i = Some a → l !! j = Some b → (i < j)%nat →
                  ipVal a < ipVal b)
    ∧ head l = Some (zip_with Z.land addr m)
    ∧ ipVal <$> last l
      = Some (ipVal (zip_with Z.land addr m) + 2 ^ (32 - p) - 1)
    ∧ (∀ ip, wfIP ip → length ip = 4%nat → net.Contains n ip = true → ip ∈ l).
Proof.
  intros Hwf Hlen Hp.
  assert (Hp' : 0 <= p <= 32) by lia.
  destruct (CIDRMask_v4 p Hp') as (m & Hm & Hml & Hmwf & Hmv).
  assert (Hparse : net.ParseCIDR_v4 addr p
                   = Some (net.mkIPNet (zip_with Z.land addr m) m)).
  { unfold net.ParseCIDR_v4. rewrite Hm. cbn [mbind option_bind].
    by rewrite Mask_v4_in_v6. }
  set (n := net.mkIPNet (zip_with Z.land addr m) m) in *.
  assert (Hs : 0 < 2 ^ (32 - p)) by (apply Z.pow_pos_nonneg; lia).
  pose proof (range_base_bounds addr p Hwf Hlen Hp') as [Hb0 Hb1].
  destruct (loopStart_spec addr p n Hwf Hlen Hp' Hparse) as (Hswf & Hsl & Hsv).
  set (size := 2 ^ (32 - p)) in *.
  assert (Hstart : loopStart n = zip_with Z.land addr m).
  { unfold loopStart, n. cbn [net.ipnet_IP net.ipnet_Mask].
    rewrite Mask_same_length by (done || rewrite length_zip_with; lia).
    apply ipVal_inj.
    - apply wfIP_zip_land; [by apply wfIP_zip_land | done].
    - by apply wfIP_zip_land.
    - rewrite !length_zip_with. lia.
    - rewrite (ipVal_zip_land (zip_with _ _ _))
        by (done || (by apply wfIP_zip_land) || rewrite length_zip_with; lia).
      rewrite ipVal_zip_land by (done || lia).
      by rewrite <- Z.land_assoc, Z.land_diag. }
  rewrite Hstart in Hswf, Hsl, Hsv.
  destruct (enqueue_run addr p n Hwf Hlen Hp' Hparse (Z.to_nat size)
              (zip_with Z.land addr m))
    as (l & Hrun & Hwfl & Hlenl & Hvals); [lia | done | done | | |].
  { fold size. lia. }
  { fold size. rewrite Hsv, Z2Nat.id by lia.
    rewrite Z.mod_small by lia. lia. }
  fold size in Hvals. rewrite Z2Nat.id in Hvals by lia.
  replace (ipVal addr / size * size + size - size)
    with (ipVal (zip_with Z.land addr m)) in Hvals by lia.
  assert (Hlength : length l = Z.to_nat size).
  { by rewrite <- (length_fmap ipVal), Hvals, length_seqZ. }
  exists m, n, l. split; [done|]. split; [done|].
  split; [unfold expand; by rewrite Hstart|].
  split; [done|]. split; [done|]. split; [done|]. split; [done|].
  split; [|split; [|split]].
  - intros i j a b Hi Hj Hij.
    assert (Ha : (ipVal <$> l) !! i = Some (ipVal a)) by by rewrite list_lookup_fmap, Hi.
    assert (Hb : (ipVal <$> l) !! j = Some (ipVal b)) by by rewrite list_lookup_fmap, Hj.
    rewrite Hvals in Ha, Hb. apply lookup_seqZ in Ha, Hb. lia.
  - assert (Hh : (ipVal <$> l) !! 0%nat = Some (ipVal (zip_with Z.land addr m))).
    { rewrite Hvals, lookup_seqZ_lt by lia. f_equal. lia. }
    rewrite list_lookup_fmap in Hh. destruct l as [|a l]; [done|].
    cbn in Hh. injection Hh as Hh. cbn. f_equal.
    apply Forall_cons in Hwfl as [Hawf _]. apply Forall_cons in Hlenl as [Hal _].
    apply ipVal_inj; [done | done | lia | done].
  - rewrite <- fmap_last, Hvals, last_lookup, length_seqZ.
    rewrite lookup_seqZ_lt by lia. f_equal. lia.
  - intros ip Hipwf Hipl Hin.
    apply (Contains_spec addr p n Hwf Hlen Hp' Hparse ip Hipwf Hipl) in Hin.
    fold size in Hin.
    pose proof (ipVal_bounds ip Hipwf) as Hi. rewrite Hipl in Hi.
    change (256 ^ Z.of_nat 4) with (2 ^ 32) in Hi.
    assert (Hrange : ipVal (zip_with Z.land addr m) <= ipVal ip
                     < ipVal (zip_with Z.land addr m) + size).
    { rewrite Hsv, <- Hin.
      pose proof (Z.mul_div_le (ipVal ip) size Hs).
      pose proof (Z.mul_succ_div_gt (ipVal ip) size Hs). lia. }
    apply elem_of_seqZ in Hrange. rewrite <- Hvals in Hrange.
    apply list_elem_of_fmap in Hrange as (a & Heq & Hel).
    assert (a = ip) as <-; [|done].
    rewrite Forall_forall in Hwfl, Hlenl.
    apply ipVal_inj; [by apply Hwfl | done | rewrite Hlenl by done; lia | done].
Qed.

(** ** Range expansion for prefix length 0 *)

Lemma addressSpace_Z : Z.of_nat addressSpace = 2 ^ 32.
Proof. unfold addressSpace. apply Z2Nat.id. lia. Qed.

#[local] Opaque addressSpace.

Lemma parse_slash0 :
  net.ParseCIDR_v4 [0; 0; 0; 0] 0
  = Some (net.mkIPNet [0; 0; 0; 0] [0; 0; 0; 0]).
Proof. reflexivity. Qed.

Lemma wfIP_zero : wfIP [0; 0; 0; 0].
Proof. by apply (bool_decide_unpack (wfIP _)); vm_compute. Qed.

(** C1, at the descriptor [0.0.0.0/0]: the loop of [processCIDR] starts
    at [0.0.0.0] and no number of iterations brings it to its exit: after
    [255.255.255.255] the cursor wraps to [0.0.0.0], which the network
    contains, so the loop goes on and keeps sending addresses. *)
Theorem processCIDR_slash0_never_stops :
  ∃ n, net.ParseCIDR_v4 [0; 0; 0; 0] 0 = Some n
       ∧ loopStart n = [0; 0; 0; 0]
       ∧ (∀ fuel, expand fuel n = None)
       ∧ (∀ j, length (enqueued j n (loopStart n)) = j).
Proof.
  eexists. split; [exact parse_slash0|]. split; [reflexivity|].
  pose proof wfIP_zero as Hz.
  split.
  - intros fuel. unfold expand.
    by apply (enqueue_slash0 [0; 0; 0; 0] 0 _ Hz eq_refl ltac:(lia) parse_slash0).
  - intros j.
    rewrite (enqueued_slash0 [0; 0; 0; 0] 0 _ Hz eq_refl ltac:(lia) parse_slash0)
      by done.
    by rewrite length_fmap, length_seq.
Qed.

(** C2, at the descriptor [0.0.0.0/0]: the loop sends more than [2^32]
    addresses, and the address sent at position [2^32 + j] is the one sent
    at position [j]: the sequence has not [2^32] elements, is not free of
    duplicates and is not increasing. *)
Theorem expand_slash0_repeats :
  ∃ n, net.ParseCIDR_v4 [0; 0; 0; 0] 0 = Some n
       ∧ ∀ j : nat,
           let l := enqueued (addressSpace + S j) n (loopStart n) in
           length l = (addressSpace + S j)%nat
           ∧ l !! addressSpace = Some [0; 0; 0; 0]
           ∧ l !! (addressSpace + j)%nat = l !! j.
Proof.
  eexists. split; [exact parse_slash0|]. intros j l. subst l.
  pose proof wfIP_zero as Hz. pose proof addressSpace_Z as HA.
  change (loopStart _) with [0; 0; 0; 0].
  rewrite (enqueued_slash0 [0; 0; 0; 0] 0 _ Hz eq_refl ltac:(lia) parse_slash0)
    by done.
  assert (Hiter : ∀ i, Nat.iter (addressSpace + i)%nat incrementIP [0; 0; 0; 0]
                       = Nat.iter i incrementIP [0; 0; 0; 0]).
  { intros i.
    destruct (iter_incrementIP (addressSpace + i)%nat [0; 0; 0; 0] Hz eq_refl)
      as (Hw1 & Hl1 & Hv1).
    destruct (iter_incrementIP i [0; 0; 0; 0] Hz eq_refl) as (Hw2 & Hl2 & Hv2).
    apply (ipVal_inj _ _ Hw1 Hw2); [exact (eq_trans Hl1 (eq_sym Hl2))|].
    rewrite Hv1, Hv2, Nat2Z.inj_add, HA.
    replace (ipVal [0; 0; 0; 0] + (2 ^ 32 + Z.of_nat i))
      with (ipVal [0; 0; 0; 0] + Z.of_nat i + 1 * 2 ^ 32) by lia.
    rewrite Z.mod_add; [reflexivity | lia]. }
  split; [by rewrite length_fmap, length_seq|]. split.
  - pose proof (Hiter 0%nat) as H0. rewrite Nat.add_0_r in H0.
    rewrite list_lookup_fmap, lookup_seq_lt by lia.
    cbn [fmap option_fmap option_map]. rewrite Nat.add_0_l, H0. reflexivity.
  - rewrite !list_lookup_fmap, !lookup_seq_lt by lia.
    cbn [fmap option_fmap option_map]. rewrite !Nat.add_0_l, Hiter. reflexivity.
Qed.

(** ** The command line and the filters *)

Example parseFlags_overrides :
  concurrency (parseFlags (mkCommandLine None None (Some 50) None None None)) = 50.
Proof. reflexivity. Qed.

(** C3, on a command line without [-c]: the worker count that
    [flag.Int] falls back to is 5, not the 100 of the README. *)
Theorem default_concurrency_is_5 :
  concurrency (parseFlags noArguments) = 5
  ∧ concurrency (parseFlags noArguments) ≠ 100.
Proof. split; [reflexivity | discriminate]. Qed.

Section Filters.
Context `{Externals}.

Lemma compileFilter_empty : compileFilter EmptyString = Some None.
Proof. unfold compileFilter. by rewrite decide_True. Qed.

Lemma setup_inv (fl : Flags) (cfg : Config) :
  main_setup fl = Some cfg →
  compileFilter (filterRegex fl) = Some (c_filter cfg)
  ∧ compileFilter (matchRegex fl) = Some (c_match cfg)
  ∧ c_concurrency cfg = concurrency fl
  ∧ c_verbose cfg = verbose fl
  ∧ c_cap cfg = wrap_int (concurrency fl * 10) ∧ 0 <= c_cap cfg.
Proof.
  unfold main_setup. intros Hs.
  destruct (compileFilter (filterRegex fl)) as [f|]; [|discriminate].
  destruct (compileFilter (matchRegex fl)) as [m|]; [|discriminate].
  cbn [mbind option_bind] in Hs.
  destruct (Z.ltb_spec (wrap_int (concurrency fl * 10)) 0); [discriminate|].
  injection Hs as <-. cbn. done.
Qed.

(** C5: a hostname returned by the lookup reaches [ch <- hostname] exactly
    when the exclude pattern is absent or does not match it, and the
    include pattern is absent or matches it; so the hostnames a worker
    sends for one lookup are those of the result that pass both checks,
    and a step of the worker on a hostname is a send exactly then. *)
Theorem filter_law (cfg : Config) (filter match_ : option Regexp) (h : string) :
  (forwarded filter match_ h = true
   ↔ (∀ f, filter = Some f → MatchString f h = false)
     ∧ (∀ m, match_ = Some m → MatchString m h = true))
  ∧ (∀ hostnames,
       h ∈ forward filter match_ hostnames
       ↔ h ∈ hostnames ∧ forwarded filter match_ h = true)
  ∧ (∀ rest l wk',
       Pool.worker_step cfg (Pool.WLoop (h :: rest)) l wk' ↔
       wk' = Pool.WLoop rest
       ∧ (if forwarded (c_filter cfg) (c_match cfg) h
          then l = Pool.LSend h else l = Pool.LSkip)).
Proof.
  split; [|split].
  - unfold forwarded, excluded, notIncluded. split.
    + intros Hfw. split.
      * intros f ->. by destruct (MatchString f h).
      * intros m ->.
        destruct filter as [f|]; [destruct (MatchString f h); [done|]|];
          by destruct (MatchString m h).
    + intros [Hf Hm]. destruct filter as [f|].
      * rewrite (Hf f eq_refl).
        destruct match_ as [m|]; [by rewrite (Hm m eq_refl) | done].
      * destruct match_ as [m|]; [by rewrite (Hm m eq_refl) | done].
  - intros hostnames. induction hostnames as [|x xs IH]; cbn [forward].
    + split; [by intros ?%elem_of_nil | by intros [?%elem_of_nil _]].
    + destruct (forwarded filter match_ x) eqn:Hx.
      * rewrite !elem_of_cons, IH.
        split; [intros [ -> | [? ?] ]; auto | intros [ [ -> | ? ] ?]; auto].
      * rewrite IH, elem_of_cons.
        split; [intros [? ?]; auto | intros [ [ -> | ? ] ?]; [congruence | auto]].
  - intros rest l wk'. split.
    + inversion 1; subst; split; try done;
        match goal with Hf : forwarded _ _ _ = _ |- _ => by rewrite Hf end.
    + intros [-> Hl]. destruct (forwarded _ _ h) eqn:Hf; subst l.
      * by apply Pool.ws_send.
      * by apply Pool.ws_skip.
Qed.

(** What the guard on the empty flag avoids: an exclude filter that
    matches every string, as the compiled empty pattern does, lets no
    hostname through. *)
Lemma match_all_filter_drops_all (re : Regexp) (match_ : option Regexp)
    (hostnames : list string) :
  (∀ h, MatchString re h = true) → forward (Some re) match_ hostnames = [].
Proof.
  intros Hall. induction hostnames as [|h t IH]; [done|].
  cbn [forward]. unfold forwarded, excluded. by rewrite Hall.
Qed.

(** C10: a pattern flag that is the empty string leaves its filter [nil],
    whatever [MustCompile] would make of the empty pattern, and a [nil]
    filter lets every hostname pass its check. *)
Theorem empty_pattern_is_no_filter (fl : Flags) (cfg : Config) :
  main_setup fl = Some cfg →
  (filterRegex fl = EmptyString →
     c_filter cfg = None ∧ ∀ hostname, excluded (c_filter cfg) hostname = false)
  ∧ (matchRegex fl = EmptyString →
     c_match cfg = None ∧ ∀ hostname, notIncluded (c_match cfg) hostname = false)
  ∧ (filterRegex fl = EmptyString → matchRegex fl = EmptyString →
     ∀ hostnames, forward (c_filter cfg) (c_match cfg) hostnames = hostnames).
Proof.
  intros (Hf & Hm & _)%setup_inv.
  assert (Hnil : ∀ p o, compileFilter p = Some o → p = EmptyString → o = None).
  { intros p o Hc ->. rewrite compileFilter_empty in Hc. by injection Hc as <-. }
  split; [|split].
  - intros He. rewrite (Hnil _ _ Hf He). done.
  - intros He. rewrite (Hnil _ _ Hm He). done.
  - intros He1 He2 hostnames. rewrite (Hnil _ _ Hf He1), (Hnil _ _ Hm He2).
    induction hostnames as [|x xs IH]; [done|]. cbn. by rewrite IH.
Qed.

End Filters.

(** Scenario 3 on the example environment: the exclude pattern [internal]. *)
Example exclude_internal :
  @forward Example.mock (Some "internal"%string) None
    ["internal.example.com"; "public.example.com"]%string
  = ["public.example.com"%string].
Proof. reflexivity. Qed.

(** On the default command line both filters are absent. *)
Lemma empty_pattern_is_no_filter_witness :
  @main_setup Example.mock (parseFlags noArguments)
  = Some (@mkConfig Example.mock 5 None None false 50)
  ∧ ∀ hostnames,
      @forward Example.mock None None hostnames = hostnames.
Proof.
  split; [reflexivity|].
  exact (proj2 (proj2 (@empty_pattern_is_no_filter Example.mock
                         (parseFlags noArguments)
                         (@mkConfig Example.mock 5 None None false 50)
                         eq_refl))
           eq_refl eq_refl).
Defined.

(** ** The printing loop *)

Section Aggregator.

Lemma aggregate_snoc (arrivals : list string) (h : string) :
  aggregate (arrivals ++ [h]) = receive (aggregate arrivals) h.
Proof. unfold aggregate. by rewrite foldl_app. Qed.

Lemma uniqueResults_aggregate (arrivals : list string) :
  uniqueResults (aggregate arrivals) = list_to_set arrivals.
Proof.
  induction arrivals as [|h arrivals IH] using rev_ind; [done|].
  rewrite aggregate_snoc, list_to_set_app_L. unfold receive.
  destruct (decide (h ∈ uniqueResults (aggregate arrivals))) as [Hin|Hout];
    cbn; rewrite IH in *; set_solver.
Qed.

Lemma stdout_aggregate_snoc (arrivals : list string) (h : string) :
  stdout (aggregate (arrivals ++ [h]))
  = stdout (aggregate arrivals) ++ (if decide (h ∈ arrivals) then [] else [h]).
Proof.
  rewrite aggregate_snoc. unfold receive.
  rewrite uniqueResults_aggregate.
  destruct (decide (h ∈ (list_to_set arrivals : gset string))) as [Hin|Hout].
  - rewrite decide_True by set_solver. by rewrite app_nil_r.
  - rewrite decide_False by set_solver. done.
Qed.

Lemma stdout_aggregate_elem (arrivals : list string) (h : string) :
  h ∈ stdout (aggregate arrivals) ↔ h ∈ arrivals.
Proof.
  induction arrivals as [|x arrivals IH] using rev_ind.
  - done.
  - rewrite stdout_aggregate_snoc, !elem_of_app, IH, list_elem_of_singleton.
    destruct (decide (x ∈ arrivals)) as [Hin|Hout].
    + split; [intros [Hh|Hh]; [auto | by apply elem_of_nil in Hh] | intros [ ? | -> ]; auto].
    + rewrite list_elem_of_singleton. done.
Qed.

(** C4: whatever sequence of hostnames arrives on [ch], the lines
    printed contain every hostname that arrived and nothing else, each
    once, in the order of the first arrivals; the arrival of a hostname
    adds one line when it is the first arrival of that hostname and
    nothing otherwise, so no hostname is printed before it arrives. *)
Theorem aggregate_emits_first_arrivals (arrivals : list string) :
  NoDup (stdout (aggregate arrivals))
  ∧ (∀ h, h ∈ stdout (aggregate arrivals) ↔ h ∈ arrivals)
  ∧ stdout (aggregate arrivals) `sublist_of` arrivals
  ∧ (∀ pre h post,
       arrivals = pre ++ h :: post →
       stdout (aggregate (pre ++ [h]))
       = stdout (aggregate pre) ++ (if decide (h ∈ pre) then [] else [h])
       ∧ stdout (aggregate (pre ++ [h])) `prefix_of` stdout (aggregate arrivals))
  ∧ uniqueResults (aggregate arrivals) = list_to_set arrivals.
Proof.
  split; [|split; [|split; [|split]]].
  - induction arrivals as [|x arrivals IH] using rev_ind; [constructor|].
    rewrite stdout_aggregate_snoc.
    destruct (decide (x ∈ arrivals)) as [Hin|Hout]; [by rewrite app_nil_r|].
    apply NoDup_app. split; [done|]. split; [|apply NoDup_singleton].
    intros y Hy ->%list_elem_of_singleton.
    by apply (proj1 (stdout_aggregate_elem _ _)) in Hy.
  - intros h. apply stdout_aggregate_elem.
  - induction arrivals as [|x arrivals IH] using rev_ind; [done|].
    rewrite stdout_aggregate_snoc.
    destruct (decide (x ∈ arrivals)) as [Hin|Hout].
    + rewrite app_nil_r. by apply sublist_inserts_r.
    + by apply sublist_app.
  - intros pre h post ->. split; [apply stdout_aggregate_snoc|].
    replace (pre ++ h :: post) with ((pre ++ [h]) ++ post)
      by (by rewrite <- app_assoc).
    generalize (pre ++ [h]). intros l.
    induction post as [|x post IH] using rev_ind; [by rewrite app_nil_r|].
    rewrite app_assoc, stdout_aggregate_snoc.
    by apply prefix_app_r.
  - apply uniqueResults_aggregate.
Qed.

End Aggregator.

(** Scenario 2: a hostname that arrives twice is printed once. *)
Example aggregate_dup :
  stdout (aggregate ["dup.example.com"; "a.example.com"; "dup.example.com"]%string)
  = ["dup.example.com"; "a.example.com"]%string.
Proof. by vm_compute. Qed.

(** ** Lookups *)

Section Lookup.
Context `{Externals}.

Lemma fetch_failed (v : bool) (ip : string) (r : GetResult) :
  lookupFailed r → fst (fetchEnd v ip r) = [].
Proof.
  destruct r as [err|status body]; cbn; [done|].
  intros [Hstatus|[err Hdoc]].
  - destruct (Z.eqb_spec status 200); [done|]. done.
  - destruct (Z.eqb_spec status 200); [|done]. cbn. by rewrite Hdoc.
Qed.

Lemma worker_cons (cfg : Config) (ip : IP) (r : GetResult)
    (rest : list (IP * GetResult)) :
  worker cfg ((ip, r) :: rest)
  = (shodanURL (IP_String ip) :: fst (worker cfg rest),
     forward (c_filter cfg) (c_match cfg)
       (fst (fetchEnd (c_verbose cfg) (IP_String ip) r))
     ++ snd (worker cfg rest)).
Proof. cbn [worker]. by destruct (worker cfg rest). Qed.

Lemma worker_app (cfg : Config) (l1 l2 : list (IP * GetResult)) :
  worker cfg (l1 ++ l2)
  = (fst (worker cfg l1) ++ fst (worker cfg l2),
     snd (worker cfg l1) ++ snd (worker cfg l2)).
Proof.
  induction l1 as [|[ip r] l1 IH].
  - cbn. by destruct (worker cfg l2).
  - rewrite <- app_comm_cons, !worker_cons, IH. cbn. by rewrite app_assoc.
Qed.

(** One request per received address, in the order of reception. *)
Lemma worker_requests (cfg : Config) (received : list (IP * GetResult)) :
  fst (worker cfg received) = (λ x, shodanURL (IP_String x.1)) <$> received.
Proof.
  induction received as [|[ip r] rest IH]; [done|].
  rewrite worker_cons. cbn. by rewrite IH.
Qed.

(** C6: a lookup that fails (on the connection, on the status, on the
    page) returns no hostname, as a lookup that finds none; the worker
    then takes the next address: what it sends is what it would send had
    the address not been there, it asks the network once for each address
    it receives, before and after the failure, and in the pool its next
    step after the failed lookup is back to [range ipChan]. *)
Theorem failed_lookup_is_empty_result (cfg : Config) (ip : IP) (r : GetResult) :
  lookupFailed r →
  fst (fetchHostnamesFromShodan (c_verbose cfg) (IP_String ip) r) = []
  ∧ (∀ pre post,
       snd (worker cfg (pre ++ (ip, r) :: post)) = snd (worker cfg (pre ++ post))
       ∧ fst (worker cfg (pre ++ (ip, r) :: post))
         = ((λ x, shodanURL (IP_String x.1)) <$> pre)
           ++ shodanURL (IP_String ip)
           :: ((λ x, shodanURL (IP_String x.1)) <$> post))
  ∧ (∀ wk', Pool.worker_step cfg (Pool.WInLookup ip) (Pool.LReturn r) wk' →
            wk' = Pool.WLoop []
            ∧ ∀ l wk'', Pool.worker_step cfg wk' l wk'' →
                        l = Pool.LNext ∧ wk'' = Pool.WRecv).
Proof.
  intros Hfail. pose proof (fetch_failed (c_verbose cfg) (IP_String ip) r Hfail) as Hnil.
  split; [done|]. split.
  - intros pre post. split.
    + rewrite !worker_app, worker_cons, Hnil. done.
    + by rewrite worker_requests, fmap_app, fmap_cons.
  - intros wk' Hstep. inversion Hstep; subst. rewrite Hnil. split; [done|].
    intros l wk'' Hnext. by inversion Hnext.
Qed.

End Lookup.

(** The mock network answers [10.0.0.2] with status 404. *)
Lemma failed_lookup_is_empty_result_witness :
  @lookupFailed Example.mock (GetOk 404 EmptyString)
  ∧ fst (@fetchHostnamesFromShodan Example.mock false
           (@IP_String Example.mock [10; 0; 0; 2]) (GetOk 404 EmptyString)) = [].
Proof.
  assert (Hf : @lookupFailed Example.mock (GetOk 404 EmptyString))
    by (left; discriminate).
  split; [exact Hf|].
  exact (proj1 (@failed_lookup_is_empty_result Example.mock
                  (@mkConfig Example.mock 5 None None false 50)
                  [10; 0; 0; 2] (GetOk 404 EmptyString) Hf)).
Defined.

(** ** The pool: invariants of jobs *)

Section PoolJobs.
Context `{Externals}.
Variable cfg : Config.

Import Pool.

Lemma filter_length_insert {A} (f : A → bool) (l : list A) (w : nat) (a b : A) :
  l !! w = Some a →
  (length (List.filter f (<[w := b]> l)) + (if f a then 1 else 0)
   = length (List.filter f l) + (if f b then 1 else 0))%nat.
Proof.
  intros Hw. pose proof (lookup_lt_Some _ _ _ Hw) as Hlt.
  rewrite insert_take_drop by done.
  rewrite <- (take_drop_middle l w a Hw) at 3.
  rewrite !List.filter_app, !length_app. cbn [List.filter].
  destruct (f a), (f b); cbn [length]; lia.
Qed.

Lemma filter_length_pos {A} (f : A → bool) (l : list A) (w : nat) (a : A) :
  l !! w = Some a → f a = true → (0 < length (List.filter f l))%nat.
Proof.
  intros Hw Hf.
  rewrite <- (take_drop_middle l w a Hw), List.filter_app, length_app.
  cbn [List.filter]. rewrite Hf. cbn. lia.
Qed.

Lemma filter_length_replicate {A} (f : A → bool) (k : nat) (a : A) :
  length (List.filter f (replicate k a)) = if f a then k else 0%nat.
Proof.
  induction k as [|k IH]; cbn; [by destruct (f a)|].
  destruct (f a); cbn; [by rewrite IH | done].
Qed.

Lemma loopTrace_enqueue (n : net.IPNet) (enq : list IP) (ip : IP) :
  loopTrace n enq ip →
  ∀ fuel l, enqueue fuel n ip = Some l →
            enqueue (length enq + fuel) n (loopStart n) = Some (enq ++ l).
Proof.
  induction 1 as [|enq ip Htr IH Hin]; intros fuel l Hrun; [done|].
  rewrite length_app, <- app_assoc. cbn [length app].
  replace (length enq + 1 + fuel)%nat with (length enq + S fuel)%nat by lia.
  apply IH. cbn [enqueue]. by rewrite Hin, Hrun.
Qed.

Lemma loopTrace_expand (n : net.IPNet) (enq : list IP) (ip : IP) :
  loopTrace n enq ip → net.Contains n ip = false →
  expand (S (length enq)) n = Some enq.
Proof.
  intros Htr Hout. unfold expand.
  pose proof (loopTrace_enqueue n enq ip Htr 1 []) as Hrun.
  rewrite app_nil_r, Nat.add_1_r in Hrun. apply Hrun. cbn. by rewrite Hout.
Qed.

Lemma loopTrace_enqueued (n : net.IPNet) (enq : list IP) (ip : IP) :
  loopTrace n enq ip →
  ∀ k, enqueued (length enq + k) n (loopStart n) = enq ++ enqueued k n ip.
Proof.
  induction 1 as [|enq ip Htr IH Hin]; intros k; [done|].
  rewrite length_app, <- app_assoc. cbn [length app].
  replace (length enq + 1 + k)%nat with (length enq + S k)%nat by lia.
  rewrite IH. cbn [enqueued]. by rewrite Hin.
Qed.

(** The flags [inLookup] and [exited] of a worker across each of its steps. *)
Lemma worker_step_flags (wk : Worker) (l : WLabel) (wk' : Worker) :
  worker_step cfg wk l wk' →
  exited wk = false
  ∧ match l with
    | LRecv _ => inLookup wk = false ∧ inLookup wk' = true ∧ exited wk' = false
    | LClosed => inLookup wk = false ∧ inLookup wk' = false ∧ exited wk' = true
    | LReturn _ => inLookup wk = true ∧ inLookup wk' = false ∧ exited wk' = false
    | _ => inLookup wk = false ∧ inLookup wk' = false ∧ exited wk' = false
    end.
Proof. by destruct 1. Qed.

Lemma worker_counts (ws : list Worker) (w : nat) (wk : Worker) (l : WLabel)
    (wk' : Worker) :
  ws !! w = Some wk → worker_step cfg wk l wk' →
  length (<[w := wk']> ws) = length ws
  ∧ match l with
    | LRecv _ =>
        lookupsInFlight (<[w := wk']> ws) = S (lookupsInFlight ws)
        ∧ running (<[w := wk']> ws) = running ws
    | LClosed =>
        lookupsInFlight (<[w := wk']> ws) = lookupsInFlight ws
        ∧ S (running (<[w := wk']> ws)) = running ws
    | LReturn _ =>
        S (lookupsInFlight (<[w := wk']> ws)) = lookupsInFlight ws
        ∧ running (<[w := wk']> ws) = running ws
    | _ =>
        lookupsInFlight (<[w := wk']> ws) = lookupsInFlight ws
        ∧ running (<[w := wk']> ws) = running ws
    end.
Proof.
  intros Hw Hstep. split; [apply length_insert|].
  pose proof (filter_length_insert inLookup _ w _ wk' Hw) as Hc1.
  pose proof (filter_length_insert (λ wk, negb (exited wk)) _ w _ wk' Hw) as Hc2.
  unfold lookupsInFlight, running.
  destruct (worker_step_flags _ _ _ Hstep) as [He Hflags].
  cbv beta in Hc2. rewrite He in Hc2.
  destruct l; destruct Hflags as (Hi & Hi' & He');
    rewrite Hi, Hi' in Hc1; rewrite He' in Hc2; cbn in Hc1, Hc2; lia.
Qed.

Ltac pool_done :=
  first [ done | lia | by constructor | by eapply loopTrace_expand | congruence ].

(** Every step of a job keeps the job well formed. *)
Lemma job_step_ok (j : Job) (e : Effect) (j' : Job) :
  processCIDR_step cfg j e j' → job_ok cfg j → job_ok cfg j'.
Proof.
  intros Hstep (Hfl & Hurls & Hprod).
  destruct Hstep as
    [ j Hp Hparse | j n Hp Hparse | j n ip w wk wk' Hp Hin Hw Hwk
    | j n ip Hp Hout | j w ip r wk' Hw Hwk | j w wk wk' Hw Hwk
    | j w wk h wk' Hw Hwk | j w wk wk' Hw Hwk | j w wk wk' Hp Hw Hwk
    | j Hp Hwg ];
    try (destruct (worker_counts _ _ _ _ _ Hw Hwk) as (Hlen' & Hc1 & Hc2));
    unfold job_ok, untouched, expanded in *;
    cbn [j_cidr j_prod j_workers j_localWg j_inflight j_enq
         j_urls j_sent setProd setWorker] in *;
    rewrite ?Hlen', ?Hp in *.
  - split; [done|]. split; [done|]. by left.
  - destruct Hprod as (Hws & Hwg & Hf & Henq & Hu & Hs).
    unfold lookupsInFlight, running. rewrite !filter_length_replicate. cbn.
    rewrite Hf, Henq, Hu, length_replicate.
    repeat split; pool_done.
  - destruct Hprod as (Hparse & Htr & Hlen & Hwg & Hrun).
    rewrite Hc1, Hc2, fmap_app, Hurls, Hfl. cbn.
    repeat split; pool_done.
  - destruct Hprod as (Hparse & Htr & Hlen & Hwg & Hrun).
    repeat split; try pool_done. exists n. split; [done|]. by eapply loopTrace_expand.
  - split; [lia|]. split; [done|]. rewrite Hc2.
    destruct (j_prod j);
      [ destruct Hprod as (Hnil & _); by rewrite Hnil in Hw
      | done | done
      | destruct Hprod as [[? (Hnil & _)]|?];
        [by rewrite Hnil in Hw | by right] ].
  - split; [lia|]. split; [done|]. rewrite Hc2.
    destruct (j_prod j);
      [ destruct Hprod as (Hnil & _); by rewrite Hnil in Hw
      | done | done
      | destruct Hprod as [[? (Hnil & _)]|?];
        [by rewrite Hnil in Hw | by right] ].
  - split; [lia|]. split; [done|]. rewrite Hc2.
    destruct (j_prod j);
      [ destruct Hprod as (Hnil & _); by rewrite Hnil in Hw
      | done | done
      | destruct Hprod as [[? (Hnil & _)]|?];
        [by rewrite Hnil in Hw | by right] ].
  - split; [lia|]. split; [done|]. rewrite Hc2.
    destruct (j_prod j);
      [ destruct Hprod as (Hnil & _); by rewrite Hnil in Hw
      | done | done
      | destruct Hprod as [[? (Hnil & _)]|?];
        [by rewrite Hnil in Hw | by right] ].
  - destruct Hprod as (Hexp & Hlen & Hwg).
    repeat split; pool_done.
  - destruct Hprod as (Hexp & Hlen & Hrun).
    split; [done|]. split; [done|]. right. repeat split; pool_done.
Qed.

End PoolJobs.

(** ** The pool: invariants of the program *)

Section PoolSys.
Context `{Externals}.
Variable cfg : Config.

Import Pool.

Lemma job_step_cidr (j : Job) (e : Effect) (j' : Job) :
  processCIDR_step cfg j e j' → j_cidr j' = j_cidr j.
Proof. by destruct 1. Qed.

Lemma running_pos (ws : list Worker) (w : nat) (wk : Worker) :
  ws !! w = Some wk → exited wk = false → (0 < running ws)%nat.
Proof.
  intros Hw He. unfold running.
  apply (filter_length_pos _ _ w wk Hw). by rewrite He.
Qed.

(** A job that moves has not returned; it returns by its [EDone] steps. *)
Lemma job_step_finished (j : Job) (e : Effect) (j' : Job) :
  processCIDR_step cfg j e j' → job_ok cfg j →
  finished j = false
  ∧ finished j' = match e with EDone _ => true | _ => false end.
Proof.
  intros Hstep (_ & _ & Hprod).
  assert (Hwork : ∀ w wk l wk',
             j_workers j !! w = Some wk → worker_step cfg wk l wk' →
             finished j = false).
  { intros w wk l wk' Hw Hwk. unfold finished.
    destruct (j_prod j); try done.
    destruct (worker_step_flags cfg _ _ _ Hwk) as [He _].
    pose proof (running_pos _ _ _ Hw He) as Hpos.
    destruct Hprod as [[_ (Hnil & _)]|(_ & _ & _ & Hrun)];
      [by rewrite Hnil in Hw | lia]. }
  destruct Hstep; cbn;
    try (split; [by eapply Hwork | by eapply Hwork]);
    unfold finished in *; cbn;
    repeat match goal with Hp : j_prod _ = _ |- _ => rewrite Hp in *; clear Hp end;
    done.
Qed.

Lemma init_ok (cidrList : list string) : sys_ok cfg cidrList (init cidrList).
Proof.
  unfold sys_ok, init. cbn. repeat split; try done.
  - apply Forall_fmap, Forall_true. intros cidr. by repeat split.
  - rewrite <- list_fmap_compose. by rewrite list_fmap_id.
  - induction cidrList as [|c l IH]; [done|]. cbn. by rewrite <- IH.
Qed.

Lemma applyEffect_inv (e : Effect) (s s' : Sys) :
  applyEffect cfg e s = Some s' →
  s_jobs s' = s_jobs s ∧ s_chClosed s' = s_chClosed s
  ∧ s_mainDone s' = s_mainDone s ∧ s_printer s' = s_printer s
  ∧ s_arrived s' = s_arrived s
  ∧ s_wg s' = match e with EDone _ => pred (s_wg s) | _ => s_wg s end
  ∧ s_ch s' = match e with ESend h => s_ch s ++ [h] | _ => s_ch s end
  ∧ s_stderr s' = match e with
                  | ELog lines | EDone lines => s_stderr s ++ lines
                  | _ => s_stderr s
                  end.
Proof.
  destruct e; cbn; try (intros [= <-]; cbn; by rewrite ?app_nil_r).
  destruct (_ <? _); [|done]. by intros [= <-].
Qed.

Lemma step_ok (cidrList : list string) (s s' : Sys) :
  sys_ok cfg cidrList s → main_step cfg s s' → sys_ok cfg cidrList s'.
Proof.
  intros (Hjobs & Hcidr & Hwg & Hclosed & Hdone & Hprint) Hstep.
  destruct Hstep as [s i j e j' s' Hi Hjs Heff | s Hz Hc | s result rest Hch Hm
                    | s Hch Hc Hm].
  - apply applyEffect_inv in Heff as (Ej & Ec & Em & Ep & Ea & Ew & _). cbn in *.
    pose proof (proj1 (Forall_lookup _ _) Hjobs i j Hi) as Hj.
    destruct (job_step_finished _ _ _ Hjs Hj) as [Hf Hf'].
    pose proof (filter_length_insert (λ j, negb (finished j)) _ i _ j' Hi) as Hcount.
    cbv beta in Hcount. rewrite Hf in Hcount. cbn in Hcount.
    assert (Hpos : (0 < length (List.filter (λ j, negb (finished j)) (s_jobs s)))%nat)
      by (apply (filter_length_pos _ _ i j Hi); by rewrite Hf).
    assert (Hopen : s_chClosed s = false).
    { destruct (s_chClosed s); [|done]. specialize (Hclosed eq_refl). lia. }
    unfold sys_ok. rewrite Ej, Ec, Em, Ep, Ea, Ew.
    split; [by apply Forall_insert; [|eapply job_step_ok]|].
    split.
    { rewrite list_fmap_insert, (job_step_cidr _ _ _ Hjs).
      rewrite list_insert_id; [done|]. by rewrite list_lookup_fmap, Hi. }
    split; [destruct e; rewrite Hf' in Hcount; cbn in Hcount; lia|].
    split; [by rewrite Hopen|].
    split; [|done]. intros Hmd. destruct (Hdone Hmd) as [Hcl _]. congruence.
  - unfold sys_ok. cbn.
    repeat split; try done; by edestruct Hdone.
  - unfold sys_ok. cbn.
    repeat split; try done; try congruence.
    by rewrite aggregate_snoc, Hprint.
  - unfold sys_ok. cbn. repeat split; done.
Qed.

Lemma reachable_ok (cidrList : list string) (s : Sys) :
  reachable cfg cidrList s → sys_ok cfg cidrList s.
Proof.
  unfold reachable. revert s. apply rtc_ind_r.
  - apply init_ok.
  - intros s s' _ Hstep IH. by eapply step_ok.
Qed.

(** In every state of the program the printing loop has printed the first
    arrivals of what it has received. *)
Lemma reachable_printer (cidrList : list string) (s : Sys) :
  reachable cfg cidrList s → s_printer s = aggregate (s_arrived s).
Proof. intros Hreach. by destruct (reachable_ok _ _ Hreach) as (_ & _ & _ & _ & _ & ?). Qed.

Lemma lookupsInFlight_le (ws : list Worker) :
  (lookupsInFlight ws <= length ws)%nat.
Proof. unfold lookupsInFlight. apply List.filter_length_le. Qed.

Lemma job_ok_workers (j : Job) :
  job_ok cfg j →
  j_workers j = [] ∨ length (j_workers j) = Z.to_nat (c_concurrency cfg).
Proof.
  intros (_ & _ & Hprod). destruct (j_prod j).
  - left. by destruct Hprod.
  - right. by destruct Hprod as (_ & _ & ? & _).
  - right. by destruct Hprod as (_ & ? & _).
  - destruct Hprod as [[_ (? & _)]|(_ & ? & _)]; [by left | by right].
Qed.

End PoolSys.

(** C9: for a worker count that is not negative, in every state the
    program can reach, the number of lookups of a job that have been
    called and have not returned is the number of its workers that are
    inside [fetchHostnamesFromShodan], and is at most the worker count; a
    job has no worker before [ParseCIDR] accepted its descriptor and
    exactly as many workers as the worker count from then on, in
    particular while its address loop runs. *)
Theorem lookups_in_flight_bounded `{Externals} (fl : Flags) (cfg : Config)
    (cidrList : list string) (s : Pool.Sys) (i : nat) (j : Pool.Job) :
  main_setup fl = Some cfg → 0 <= concurrency fl →
  Pool.reachable cfg cidrList s → Pool.s_jobs s !! i = Some j →
  Pool.j_inflight j = Pool.lookupsInFlight (Pool.j_workers j)
  ∧ Z.of_nat (Pool.j_inflight j) <= concurrency fl
  ∧ (Pool.j_workers j = []
     ∨ Z.of_nat (length (Pool.j_workers j)) = concurrency fl)
  ∧ (∀ n ip, Pool.j_prod j = Pool.PLoop n ip →
             Z.of_nat (length (Pool.j_workers j)) = concurrency fl).
Proof.
  intros Hsetup HN Hreach Hi.
  destruct (setup_inv _ _ Hsetup) as (_ & _ & Hc & _).
  destruct (reachable_ok cfg _ _ Hreach) as (Hjobs & _).
  pose proof (proj1 (Forall_lookup _ _) Hjobs i j Hi) as Hj.
  pose proof (lookupsInFlight_le (Pool.j_workers j)) as Hle.
  pose proof (job_ok_workers cfg j Hj) as Hws.
  destruct Hj as (Hfl & _ & Hprod). rewrite Hc in *.
  split; [done|]. split; [|split].
  - rewrite Hfl. destruct Hws as [Hnil|Hlen]; [rewrite Hnil; cbn; lia | lia].
  - destruct Hws as [Hnil|Hlen]; [by left | right; lia].
  - intros n ip Hp. rewrite Hp in Hprod. destruct Hprod as (_ & _ & Hlen & _). lia.
Qed.

(** With the default five workers on [10.0.0.0/30], after the descriptor
    is parsed and the first address is handed to a worker, one lookup is
    in flight. *)
Lemma lookups_in_flight_bounded_witness :
  ∃ s j,
    @Pool.reachable Example.mock (@mkConfig Example.mock 5 None None false 50)
      ["10.0.0.0/30"%string] s
    ∧ Pool.s_jobs s !! 0%nat = Some j
    ∧ Pool.j_inflight j = 1%nat
    ∧ Z.of_nat (Pool.j_inflight j) <= 5.
Proof.
  set (cfg := @mkConfig Example.mock 5 None None false 50).
  assert (Hreach : ∃ s, @Pool.reachable Example.mock cfg ["10.0.0.0/30"%string] s
                        ∧ Pool.j_inflight <$> Pool.s_jobs s = [1%nat]).
  { eexists. split.
    - eapply rtc_l.
      { eapply (Pool.step_job _ _ 0%nat).
        - reflexivity.
        - eapply Pool.js_parse_ok; reflexivity.
        - reflexivity. }
      eapply rtc_l; [|apply rtc_refl].
      eapply (Pool.step_job _ _ 0%nat).
      + reflexivity.
      + eapply (Pool.js_enqueue _ _ _ _ 0%nat); [reflexivity.. | constructor].
      + reflexivity.
    - reflexivity. }
  destruct Hreach as (s & Hreach & Hfl).
  destruct (Pool.s_jobs s) as [|j [|]] eqn:Hjobs; try discriminate.
  injection Hfl as Hfl. exists s, j. split; [done|].
  assert (Hj : Pool.s_jobs s !! 0%nat = Some j) by by rewrite Hjobs.
  split; [done|]. split; [done|].
  exact (proj1 (proj2 (@lookups_in_flight_bounded Example.mock
                         (parseFlags noArguments) cfg _ s 0%nat j
                         eq_refl ltac:(by vm_compute) Hreach Hj))).
Defined.

(** ** The pool: a descriptor that does not parse *)

Section Skipped.
Context `{Externals}.
Variable cfg : Config.

Import Pool.

Lemma lookup_shift {A} (l : list A) (k : nat) (x : A) (i : nat) (a : A) :
  l !! i = Some a → (take k l ++ x :: drop k l) !! shiftIndex k i = Some a.
Proof.
  intros Hi. pose proof (lookup_lt_Some _ _ _ Hi) as Hlt. unfold shiftIndex.
  destruct (decide (i < k)%nat) as [Hik|Hik].
  - rewrite lookup_app_l by (rewrite length_take; lia).
    by rewrite lookup_take_lt.
  - rewrite lookup_app_r by (rewrite length_take; lia).
    rewrite length_take_le by lia.
    replace (S i - k)%nat with (S (i - k)) by lia.
    change ((x :: drop k l) !! S (i - k)) with (drop k l !! (i - k)%nat).
    rewrite lookup_drop. by replace (k + (i - k))%nat with i by lia.
Qed.

Lemma insert_shift {A} (l : list A) (k : nat) (x : A) (i : nat) (a b : A) :
  l !! i = Some a →
  <[shiftIndex k i := b]> (take k l ++ x :: drop k l)
  = take k (<[i := b]> l) ++ x :: drop k (<[i := b]> l).
Proof.
  intros Hi. pose proof (lookup_lt_Some _ _ _ Hi) as Hlt. unfold shiftIndex.
  destruct (decide (i < k)%nat) as [Hik|Hik].
  - rewrite insert_app_l by (rewrite length_take; lia).
    by rewrite take_insert_lt, drop_insert_lt by lia.
  - rewrite insert_app_r_alt by (rewrite length_take; lia).
    rewrite length_take_le by lia.
    replace (S i - k)%nat with (S (i - k)) by lia.
    change (<[S (i - k) := b]> (x :: drop k l))
      with (x :: <[(i - k)%nat := b]> (drop k l)).
    by rewrite take_insert_ge, drop_insert_ge by lia.
Qed.

Lemma applyEffect_withSkipped (k : nat) (bad : string) (e : Effect) (s s' : Sys) :
  applyEffect cfg e s = Some s' →
  applyEffect cfg e (withSkipped k bad s) = Some (withSkipped k bad s').
Proof.
  destruct e; cbn; try (by intros [= <-]).
  destruct (_ <? _); [|done]. by intros [= <-].
Qed.

(** A step of the program is also a step next to a skipped job. *)
Lemma step_withSkipped (k : nat) (bad : string) (s s' : Sys) :
  main_step cfg s s' → main_step cfg (withSkipped k bad s) (withSkipped k bad s').
Proof.
  destruct 1 as [s i j e j' s' Hi Hjs Heff | s Hz Hc | s result rest Hch Hm
                | s Hch Hc Hm].
  - eapply (step_job cfg _ (shiftIndex k i) j e j').
    + by apply lookup_shift.
    + done.
    + cbn [withSkipped s_jobs]. rewrite (insert_shift _ _ _ _ j) by done.
      by apply (applyEffect_withSkipped k bad) in Heff.
  - by apply (step_close cfg (withSkipped k bad s)).
  - by apply (step_recv cfg (withSkipped k bad s) result rest).
  - by apply (step_exit cfg (withSkipped k bad s)).
Qed.

(** The first step of the job of a descriptor that does not parse. *)
Lemma skip_step (pre post : list string) (bad : string) :
  ParseCIDR bad = None →
  main_step cfg (init (pre ++ bad :: post))
           (withSkipped (length pre) bad (init (pre ++ post))).
Proof.
  intros Hbad.
  eapply (step_job cfg _ (length pre) (newJob bad)
            (EDone [parseErrorLine bad]) (skippedJob bad)).
  - unfold init. cbn [s_jobs]. rewrite list_lookup_fmap.
    by rewrite list_lookup_middle.
  - by apply (js_parse_err cfg (newJob bad)).
  - unfold init, withSkipped. cbn. f_equal.
    rewrite !fmap_app, fmap_cons. rewrite !length_app. cbn [length].
    assert (Hlen : length (newJob <$> pre) = length pre) by apply length_fmap.
    rewrite <- Hlen at 1. rewrite insert_app_r_alt, Nat.sub_diag by lia. cbn.
    rewrite <- Hlen at 2 3. rewrite take_app_length, drop_app_length.
    f_equal. lia.
Qed.

Lemma reachable_withSkipped (pre post : list string) (bad : string) (s : Sys) :
  ParseCIDR bad = None →
  reachable cfg (pre ++ post) s →
  reachable cfg (pre ++ bad :: post) (withSkipped (length pre) bad s).
Proof.
  intros Hbad. unfold reachable. revert s. apply rtc_ind_r.
  - apply rtc_once. by apply skip_step.
  - intros s s' _ Hstep IH. eapply rtc_r; [exact IH|].
    by apply step_withSkipped.
Qed.

(** A job whose descriptor does not parse is as it was created, or as it
    was created and returned. *)
Lemma unparsed_job (j : Job) :
  job_ok cfg j → ParseCIDR (j_cidr j) = None →
  j = newJob (j_cidr j) ∨ j = skippedJob (j_cidr j).
Proof.
  intros (_ & _ & Hprod) Hbad.
  destruct j as [cidr prod ws wg fl enq urls sent]. cbn in *.
  destruct prod as [|n ip| |]; unfold expanded, untouched in Hprod; cbn in Hprod.
  - destruct Hprod as (-> & -> & -> & -> & -> & ->). by left.
  - destruct Hprod as (Hparse & _). congruence.
  - destruct Hprod as ((n & Hparse & _) & _). congruence.
  - destruct Hprod as [[_ (-> & -> & -> & -> & -> & ->)]|((n & Hparse & _) & _)];
      [by right | congruence].
Qed.

(** The report of every skipped job is on the diagnostic stream. *)
Lemma reachable_reported (cidrList : list string) (s : Sys) :
  reachable cfg cidrList s →
  ∀ i j, s_jobs s !! i = Some j → finished j = true →
         ParseCIDR (j_cidr j) = None →
         parseErrorLine (j_cidr j) ∈ s_stderr s.
Proof.
  unfold reachable. revert s.
  apply (rtc_ind_r (λ s, ∀ i j, s_jobs s !! i = Some j → finished j = true →
                                ParseCIDR (j_cidr j) = None →
                                parseErrorLine (j_cidr j) ∈ s_stderr s)).
  - intros i j Hi Hf. unfold init in Hi. cbn in Hi.
    rewrite list_lookup_fmap in Hi.
    destruct (cidrList !! i); [|done]. by injection Hi as <-.
  - intros s s' Hreach Hstep IH i j Hi Hf Hbad.
    destruct (reachable_ok cfg _ _ Hreach) as (Hjobs & _).
    destruct Hstep as [s i0 j0 e j' s' Hi0 Hjs Heff | s Hz Hc | s result rest Hch Hm
                      | s Hch Hc Hm]; [|by apply (IH i j)..].
    apply applyEffect_inv in Heff as (Ej & _ & _ & _ & _ & _ & _ & Eerr).
    cbn in Ej. rewrite Ej in Hi.
    pose proof (proj1 (Forall_lookup _ _) Hjobs i0 j0 Hi0) as Hj0.
    destruct (decide (i = i0)) as [->|Hne].
    + rewrite list_lookup_insert_eq in Hi by (by eapply lookup_lt_Some).
      injection Hi as <-.
      destruct (job_step_finished cfg _ _ _ Hjs Hj0) as [_ Hf'].
      rewrite Hf in Hf'.
      destruct Hjs; try discriminate Hf'; cbn in *.
      * rewrite Eerr. apply elem_of_app. right. by apply list_elem_of_singleton.
      * destruct Hj0 as (_ & _ & Hprod).
        match goal with Hp : j_prod _ = PWait |- _ => rewrite Hp in Hprod end.
        destruct Hprod as ((n & Hparse & _) & _). congruence.
    + rewrite list_lookup_insert_ne in Hi by done.
      specialize (IH i j Hi Hf Hbad). rewrite Eerr.
      destruct e; try done; apply elem_of_app; by left.
Qed.

Lemma lookup_unshift {A} (l : list A) (k : nat) (x : A) (i' : nat) (a : A) :
  (take k l ++ x :: drop k l) !! i' = Some a → (k <= length l)%nat → i' ≠ k →
  ∃ i, i' = shiftIndex k i ∧ l !! i = Some a.
Proof.
  intros Hi Hk Hne. unfold shiftIndex.
  destruct (decide (i' < k)%nat) as [Hlt|Hge].
  - exists i'. rewrite decide_True by done. split; [done|].
    rewrite lookup_app_l in Hi by (rewrite length_take; lia).
    by rewrite lookup_take_lt in Hi.
  - exists (i' - 1)%nat. rewrite decide_False by lia. split; [lia|].
    rewrite lookup_app_r in Hi by (rewrite length_take; lia).
    rewrite length_take_le in Hi by lia.
    replace (i' - k)%nat with (S (i' - 1 - k)) in Hi by lia.
    change ((x :: drop k l) !! S (i' - 1 - k)) with (drop k l !! (i' - 1 - k)%nat) in Hi.
    rewrite lookup_drop in Hi. by replace (k + (i' - 1 - k))%nat with (i' - 1)%nat in Hi by lia.
Qed.

(** The job of a rejected descriptor has one step, its report. *)
Lemma skipped_job_step (bad : string) (jb : Job) (e : Effect) (j' : Job) :
  ParseCIDR bad = None → jb = newJob bad ∨ jb = skippedJob bad →
  processCIDR_step cfg jb e j' →
  e = EDone [parseErrorLine bad] ∧ j' = skippedJob bad.
Proof.
  intros Hbad Hjb Hstep.
  destruct Hstep as
    [ j Hp Hparse | j n Hp Hparse | j n ip w wk wk' Hp Hin Hw Hwk
    | j n ip Hp Hout | j w ip r wk' Hw Hwk | j w wk wk' Hw Hwk
    | j w wk h wk' Hw Hwk | j w wk wk' Hw Hwk | j w wk wk' Hp Hw Hwk
    | j Hp Hwg ];
    destruct Hjb as [-> | ->]; cbn in *; try done; congruence.
Qed.

Lemma unfinished_skip (l : list Job) (k : nat) (jb : Job) :
  (length (List.filter (λ j, negb (finished j)) l)
   <= length (List.filter (λ j, negb (finished j)) (take k l ++ jb :: drop k l)))%nat.
Proof.
  rewrite <- (take_drop k l) at 1. rewrite !List.filter_app, !length_app.
  cbn [List.filter]. destruct (negb (finished jb)); cbn [length]; lia.
Qed.

(** Every state the program reaches on the list with the malformed
    descriptor is a state it reaches on the list without it, beside the
    job of the malformed descriptor. *)
Lemma reachable_besideSkipped (pre post : list string) (bad : string) (s' : Sys) :
  ParseCIDR bad = None →
  reachable cfg (pre ++ bad :: post) s' →
  ∃ s, reachable cfg (pre ++ post) s ∧ besideSkipped (length pre) bad s s'.
Proof.
  intros Hbad. unfold reachable at 1. revert s'.
  apply (rtc_ind_r (λ s', ∃ s, reachable cfg (pre ++ post) s
                               ∧ besideSkipped (length pre) bad s s')).
  { exists (init (pre ++ post)). split; [apply rtc_refl|].
    exists (newJob bad). unfold init. cbn.
    assert (Hlen : length (newJob <$> pre) = length pre) by apply length_fmap.
    rewrite !fmap_app, fmap_cons, length_app.
    rewrite <- Hlen at 1 2. rewrite take_app_length, drop_app_length.
    repeat split; try done; [by left | lia]. }
  intros s1' s2' Hreach' Hstep (s1 & Hreach & jb & Hjb & Hjobs & Hk & Hch & Hcl & Hmd & Hpr & Har & Herr).
  pose proof (reachable_ok cfg _ _ Hreach) as (_ & _ & Hwg & _).
  pose proof (reachable_ok cfg _ _ Hreach') as (_ & _ & Hwg' & _).
  destruct Hstep as [s1' i' j e j' s2' Hi Hjs Heff | s1' Hz Hc | s1' result rest Hc Hm
                    | s1' Hc Hcd Hm].
  - assert (Hroom : match e with
                     | ESend _ => Z.of_nat (length (s_ch s1')) < c_cap cfg
                     | _ => True
                     end).
    { destruct e; try done. cbn in Heff.
      by destruct (Z.ltb_spec (Z.of_nat (length (s_ch s1'))) (c_cap cfg)). }
    apply applyEffect_inv in Heff as (Ej & Ec & Em & Ep & Ea & _ & Ech & Eerr).
    cbn in Ej, Ec, Em, Ep, Ea, Ech. rewrite Hjobs in Hi, Ej.
    destruct (decide (i' = length pre)) as [->|Hne].
    + rewrite list_lookup_middle in Hi by (rewrite length_take; lia).
      injection Hi as <-.
      destruct (skipped_job_step bad jb e j' Hbad Hjb Hjs) as [-> ->].
      exists s1. split; [done|]. exists (skippedJob bad).
      rewrite Ej, Ec, Em, Ep, Ea, Ech, Eerr.
      split; [by right|]. split.
      { assert (Hl : length (take (length pre) (s_jobs s1)) = length pre)
          by (rewrite length_take; lia).
        rewrite <- Hl at 1. rewrite insert_app_r_alt, Nat.sub_diag by lia. done. }
      repeat split; try done. by apply sublist_inserts_r.
    + destruct (lookup_unshift _ _ _ _ _ Hi Hk Hne) as (i & -> & Hi1).
      rewrite (insert_shift _ _ _ _ j) in Ej by done.
      assert (Heff1 : ∃ s2, applyEffect cfg e (setJobs s1 (<[i := j']> (s_jobs s1)))
                            = Some s2).
      { destruct e; cbn; try by eexists.
        destruct (Z.ltb_spec (Z.of_nat (length (s_ch s1))) (c_cap cfg)) as [?|Hfull];
          [by eexists|].
        rewrite Hch in Hroom. lia. }
      destruct Heff1 as (s2 & Heff1).
      exists s2. split.
      { eapply rtc_r; [exact Hreach|]. by eapply (step_job cfg s1 i j e j'). }
      apply applyEffect_inv in Heff1 as (Fj & Fc & Fm & Fp & Fa & _ & Fch & Ferr).
      cbn in Fj, Fc, Fm, Fp, Fa, Fch.
      exists jb. rewrite Ej, Ec, Em, Ep, Ea, Ech, Eerr, Fj, Fc, Fm, Fp, Fa, Fch, Ferr.
      rewrite length_insert.
      repeat split; try done; try congruence.
      * destruct e; congruence.
      * destruct e; try done; by apply sublist_app.
  - exists (mkSys (s_jobs s1) (s_wg s1) (s_ch s1) true (s_mainDone s1)
                  (s_printer s1) (s_arrived s1) (s_stderr s1)).
    split.
    { eapply rtc_r; [exact Hreach|]. apply step_close; [|congruence].
      pose proof (unfinished_skip (s_jobs s1) (length pre) jb) as Hle.
      rewrite <- Hjobs in Hle. lia. }
    exists jb. cbn. repeat split; done.
  - exists (mkSys (s_jobs s1) (s_wg s1) rest (s_chClosed s1) (s_mainDone s1)
                  (receive (s_printer s1) result) (s_arrived s1 ++ [result])
                  (s_stderr s1)).
    split.
    { eapply rtc_r; [exact Hreach|]. apply step_recv; congruence. }
    exists jb. cbn. repeat split; try done; congruence.
  - exists (mkSys (s_jobs s1) (s_wg s1) (s_ch s1) (s_chClosed s1) true
                  (s_printer s1) (s_arrived s1) (s_stderr s1)).
    split.
    { eapply rtc_r; [exact Hreach|]. apply step_exit; congruence. }
    exists jb. cbn. repeat split; done.
Qed.

End Skipped.

(** C7: when a descriptor of the list does not parse, its job sends no
    address, makes no request and sends no hostname: it stays as it was
    created until its one step, which writes the report to the diagnostic
    stream and returns, and which it can take whatever the others do;
    once it has returned the report is on the diagnostic stream.  The
    other jobs run as they run without it: every state the program
    reaches on the list without the malformed descriptor is reached on
    the list with it, next to the skipped job, and every state reached on
    the list with it is, beside that job and its report, a state reached
    on the list without it. *)
Theorem malformed_descriptor_is_skipped `{Externals} (cfg : Config)
    (pre post : list string) (bad : string) :
  ParseCIDR bad = None →
  (∀ s, Pool.reachable cfg (pre ++ bad :: post) s →
        (Pool.s_jobs s !! length pre = Some (Pool.newJob bad)
         ∧ ∃ s', Pool.main_step cfg s s'
                 ∧ Pool.s_jobs s'
                   = <[length pre := Pool.skippedJob bad]> (Pool.s_jobs s)
                 ∧ Pool.s_stderr s'
                   = Pool.s_stderr s ++ [Pool.parseErrorLine bad]
                 ∧ Pool.s_ch s' = Pool.s_ch s
                 ∧ Pool.s_printer s' = Pool.s_printer s)
        ∨ (Pool.s_jobs s !! length pre = Some (Pool.skippedJob bad)
           ∧ Pool.parseErrorLine bad ∈ Pool.s_stderr s))
  ∧ (∀ s, Pool.reachable cfg (pre ++ post) s →
          Pool.reachable cfg (pre ++ bad :: post)
            (Pool.withSkipped (length pre) bad s))
  ∧ (∀ s', Pool.reachable cfg (pre ++ bad :: post) s' →
           ∃ s, Pool.reachable cfg (pre ++ post) s
                ∧ Pool.besideSkipped (length pre) bad s s').
Proof.
  intros Hbad.
  split; [|split; [intros s; by apply reachable_withSkipped
                  |intros s'; by apply reachable_besideSkipped]].
  intros s Hreach.
  destruct (reachable_ok cfg _ _ Hreach) as (Hjobs & Hcidr & _).
  assert (Hc : (Pool.j_cidr <$> Pool.s_jobs s) !! length pre = Some bad)
    by (rewrite Hcidr; by apply list_lookup_middle).
  rewrite list_lookup_fmap in Hc.
  destruct (Pool.s_jobs s !! length pre) as [j|] eqn:Hj; [|done].
  injection Hc as Hc.
  pose proof (proj1 (Forall_lookup _ _) Hjobs _ j Hj) as Hok.
  rewrite <- Hc in Hbad.
  destruct (unparsed_job cfg j Hok Hbad) as [Hnew|Hskip]; rewrite Hc in *.
  - left. split; [by rewrite Hnew|].
    eexists. split.
    + eapply (Pool.step_job cfg s (length pre) j).
      * done.
      * apply Pool.js_parse_err; by rewrite Hnew.
      * reflexivity.
    + rewrite Hnew. cbn. done.
  - right. split; [by rewrite Hskip|].
    pose proof (reachable_reported cfg _ s Hreach _ j Hj) as Hrep.
    rewrite Hc in Hrep. apply Hrep; [by rewrite Hskip | done].
Qed.

(** ** One job with one worker *)

Section SingleWorker.
Context `{Externals}.
Variable cfg : Config.
Variable lookup : IP → GetResult.
Hypothesis Hone : c_concurrency cfg = 1.
Hypothesis Hdet : ∀ ip r, clientGet (shodanURL (IP_String ip)) r → r = lookup ip.

Import Pool.

Lemma scanSends_snoc (enq : list IP) (ip : IP) :
  scanSends cfg lookup (enq ++ [ip]) = scanSends cfg lookup enq ++ hostsOf cfg lookup ip.
Proof. unfold scanSends. rewrite List.flat_map_app. cbn. by rewrite app_nil_r. Qed.

Lemma sequentialScan_aggregate (addresses : list IP) :
  sequentialScan cfg lookup addresses = aggregate (scanSends cfg lookup addresses).
Proof.
  unfold sequentialScan, aggregate, scanSends. generalize emptyPrinter.
  induction addresses as [|ip l IH]; intros st; [done|].
  cbn [foldl List.flat_map]. by rewrite foldl_app, IH.
Qed.

Lemma aggregate_prefix (l1 l2 : list string) :
  l1 `prefix_of` l2 → stdout (aggregate l1) `prefix_of` stdout (aggregate l2).
Proof.
  intros [k ->]. induction k as [|x k IH] using rev_ind; [by rewrite app_nil_r|].
  rewrite app_assoc, stdout_aggregate_snoc. by apply prefix_app_r.
Qed.

(** A step of the job keeps what was sent in step with what was received. *)
Lemma seq_job_step (j : Job) (e : Effect) (j' : Job) :
  processCIDR_step cfg j e j' → job_ok cfg j →
  (j_workers j = [] ∧ j_sent j = [] ∧ j_enq j = [])
  ∨ (∃ wk, j_workers j = [wk] ∧ workerSent cfg lookup j wk) →
  ((j_workers j' = [] ∧ j_sent j' = [] ∧ j_enq j' = [])
   ∨ (∃ wk, j_workers j' = [wk] ∧ workerSent cfg lookup j' wk))
  ∧ j_sent j' = match e with ESend h => j_sent j ++ [h] | _ => j_sent j end.
Proof.
  intros Hstep Hok Hinv.
  assert (Hsingle : ∀ w wk0 wk, j_workers j !! w = Some wk0 →
                       j_workers j = [wk] → w = 0%nat ∧ wk = wk0).
  { intros w wk0 wk Hw Hws. rewrite Hws in Hw.
    destruct w as [|w]; [by injection Hw as <- | done]. }
  assert (Hsame : ∀ p, (j_workers j = [] ∧ j_sent j = [] ∧ j_enq j = [])
                       ∨ (∃ wk, j_workers j = [wk]
                                ∧ workerSent cfg lookup (setProd j p) wk)).
  { intros p. destruct Hinv as [?|(wk & ? & ?)]; [by left|].
    right. exists wk. split; [done|]. by destruct wk. }
  destruct Hstep as
    [ j Hp Hparse | j n Hp Hparse | j n ip w wk wk' Hp Hin Hw Hwk
    | j n ip Hp Hout | j w ip r wk' Hw Hwk | j w wk wk' Hw Hwk
    | j w wk h wk' Hw Hwk | j w wk wk' Hw Hwk | j w wk wk' Hp Hw Hwk
    | j Hp Hwg ];
    cbn [j_cidr j_prod j_workers j_localWg j_inflight j_enq
         j_urls j_sent setProd setWorker];
    (split; [|done]);
    try (destruct Hinv as [(Hnil & _)|(wk0 & Hws & Hsent)];
         [by rewrite Hnil in Hw|];
         destruct (Hsingle _ _ _ Hw Hws) as [-> ->]; rewrite Hws;
         right; eexists; (split; [reflexivity|])).
  - apply Hsame.
  - right. exists WRecv. rewrite Hone. split; [done|].
    destruct Hok as (_ & _ & Hprod). rewrite Hp in Hprod.
    destruct Hprod as (_ & _ & _ & Henq & _ & Hs). cbn. by rewrite Hs, Henq.
  - inversion Hwk; subst. cbn in *. by exists (j_enq j).
  - apply Hsame.
  - inversion Hwk as [| |ip' r' Hget| | |]; subst. cbn in *.
    destruct Hsent as (enq' & Henq & Hs). exists enq', ip. split; [done|].
    rewrite scanSends_snoc, Hs. unfold hostsOf. cbn.
    by rewrite (Hdet _ _ Hget).
  - inversion Hwk as [| | |h t Hfw| |]; subst. cbn in *.
    destruct Hsent as (enq' & ip & Henq & Hs). exists enq', ip. split; [done|].
    by rewrite Hfw in Hs.
  - inversion Hwk as [| | | |h' t Hfw|]; subst. cbn in *.
    destruct Hsent as (enq' & ip & Henq & Hs). exists enq', ip. split; [done|].
    rewrite Hfw in Hs. by rewrite <- app_assoc.
  - inversion Hwk; subst. cbn in *.
    destruct Hsent as (enq' & ip & Henq & Hs). by rewrite app_nil_r, <- Henq in Hs.
  - inversion Hwk; subst. cbn in *. done.
  - apply Hsame.
Qed.

Lemma enqueue_enqueued (fuel : nat) (n : net.IPNet) (ip : IP) (l : list IP) :
  enqueue fuel n ip = Some l → enqueued (length l) n ip = l.
Proof.
  revert ip l. induction fuel as [|fuel IH]; intros ip l; [done|].
  cbn [enqueue]. destruct (net.Contains n ip) eqn:Hin.
  - destruct (enqueue fuel n (incrementIP ip)) as [l'|] eqn:Hrun; [|done].
    intros [= <-]. cbn [length enqueued]. by rewrite Hin, (IH _ _ Hrun).
  - by intros [= <-].
Qed.

Lemma job_ok_enqueued (j : Job) (n : net.IPNet) :
  job_ok cfg j → ParseCIDR (j_cidr j) = Some n →
  enqueued (length (j_enq j)) n (loopStart n) = j_enq j.
Proof.
  intros (_ & _ & Hprod) Hparse.
  assert (Hexp : expanded j → enqueued (length (j_enq j)) n (loopStart n) = j_enq j).
  { intros (n' & Hparse' & Hrun). rewrite Hparse in Hparse'.
    injection Hparse' as <-. by apply enqueue_enqueued in Hrun. }
  destruct (j_prod j) as [|n' ip| |].
  - destruct Hprod as (_ & _ & _ & -> & _). done.
  - destruct Hprod as (Hparse' & Htr & _). rewrite Hparse in Hparse'.
    injection Hparse' as <-.
    pose proof (loopTrace_enqueued n _ _ Htr 0) as Hk.
    by rewrite Nat.add_0_r, app_nil_r in Hk.
  - destruct Hprod as (Hx & _). by apply Hexp.
  - destruct Hprod as [[Hnone _]|(Hx & _)]; [congruence | by apply Hexp].
Qed.

Lemma seq_init (cidr : string) : seq_ok cfg lookup (init [cidr]).
Proof. exists (newJob cidr). repeat split; try done. by left. Qed.

Lemma seq_step (cidrList : list string) (s s' : Sys) :
  sys_ok cfg cidrList s → seq_ok cfg lookup s → main_step cfg s s' →
  seq_ok cfg lookup s'.
Proof.
  intros (Hjobs & _) (j & Hj & Harr & Hws) Hstep.
  destruct Hstep as [s i j0 e j' s' Hi Hjs Heff | s Hz Hc | s result rest Hch Hm
                    | s Hch Hc Hm].
  - apply applyEffect_inv in Heff as (Ej & _ & _ & _ & Ea & _ & Ech & _).
    cbn in Ej, Ea, Ech. rewrite Hj in Hi, Ej.
    destruct i as [|i]; [|done]. injection Hi as <-.
    rewrite Hj in Hjobs. rewrite Forall_singleton in Hjobs.
    destruct (seq_job_step _ _ _ Hjs Hjobs Hws) as [Hws' Hsent'].
    exists j'. split; [done|]. split; [|done].
    rewrite Ea, Ech, Hsent'. destruct e; try done. by rewrite app_assoc, Harr.
  - by exists j.
  - exists j. cbn. split; [done|]. split; [|done].
    rewrite <- Harr, Hch, <- app_assoc. done.
  - by exists j.
Qed.

Lemma reachable_seq (cidr : string) (s : Sys) :
  reachable cfg [cidr] s → seq_ok cfg lookup s.
Proof.
  intros Hreach. pose proof Hreach as Hr. revert s Hr Hreach.
  unfold reachable at 1.
  apply (rtc_ind_r (λ s, reachable cfg [cidr] s → seq_ok cfg lookup s)).
  - intros _. apply seq_init.
  - intros s s' Hrs Hstep IH _.
    eapply seq_step; [by apply reachable_ok | by apply IH | done].
Qed.

(** *** A complete run of one job with one worker *)

Hypothesis Hcap : 0 < c_cap cfg.
Hypothesis Hnet : ∀ ip, clientGet (shodanURL (IP_String ip)) (lookup ip).

Lemma run_hosts (cidr : string) (prod : Producer) (enq : list IP)
    (urls : list string) (E : list string) (hostnames sent : list string) :
  rtc (main_step cfg)
    (seqState cidr prod (WLoop hostnames) 1 0 enq urls sent 1 false false E)
    (seqState cidr prod (WLoop []) 1 0 enq urls
       (sent ++ forward (c_filter cfg) (c_match cfg) hostnames) 1 false false E).
Proof.
  revert sent. induction hostnames as [|h t IH]; intros sent.
  { cbn [forward]. rewrite app_nil_r. apply rtc_refl. }
  cbn [forward]. destruct (forwarded (c_filter cfg) (c_match cfg) h) eqn:Hfw.
  - eapply rtc_l.
    { eapply (step_job cfg _ 0%nat).
      - reflexivity.
      - eapply (js_send cfg _ 0%nat); [reflexivity | by apply ws_send].
      - unfold applyEffect, seqState, setJobs. cbn [s_ch length].
        change (Z.of_nat 0) with 0. rewrite (proj2 (Z.ltb_lt _ _) Hcap).
        reflexivity. }
    eapply rtc_l.
    { eapply step_recv; reflexivity. }
    cbn. rewrite <- aggregate_snoc.
    replace (sent ++ h :: forward (c_filter cfg) (c_match cfg) t)
      with ((sent ++ [h]) ++ forward (c_filter cfg) (c_match cfg) t)
      by (by rewrite <- app_assoc).
    apply IH.
  - eapply rtc_l; [|apply IH].
    eapply (step_job cfg _ 0%nat).
    + reflexivity.
    + eapply (js_skip cfg _ 0%nat); [reflexivity | by apply ws_skip].
    + reflexivity.
Qed.

Lemma run_loop (cidr : string) (n : net.IPNet) (fuel : nat) :
  ∀ ip l enq urls E,
    enqueue fuel n ip = Some l →
    ∃ urls' E',
      rtc (main_step cfg)
        (seqState cidr (PLoop n ip) WRecv 1 0 enq urls
           (scanSends cfg lookup enq) 1 false false E)
        (seqState cidr PWait WRecv 1 0 (enq ++ l) urls'
           (scanSends cfg lookup (enq ++ l)) 1 false false E').
Proof.
  induction fuel as [|fuel IH]; intros ip l enq urls E Hrun; [done|].
  cbn [enqueue] in Hrun. destruct (net.Contains n ip) eqn:Hin.
  - destruct (enqueue fuel n (incrementIP ip)) as [l'|] eqn:Hrest; [|done].
    injection Hrun as <-.
    destruct (IH _ _ (enq ++ [ip]) (urls ++ [shodanURL (IP_String ip)])
                ((E ++ fetchBegin (c_verbose cfg) (IP_String ip))
                 ++ snd (fetchEnd (c_verbose cfg) (IP_String ip) (lookup ip)))
                Hrest) as (urls' & E' & Hrtc).
    exists urls', E'.
    replace (enq ++ ip :: l') with ((enq ++ [ip]) ++ l') by (by rewrite <- app_assoc).
    eapply rtc_l.
    { eapply (step_job cfg _ 0%nat).
      - reflexivity.
      - eapply (js_enqueue cfg _ n ip 0%nat WRecv); [reflexivity | done | reflexivity | apply ws_recv].
      - reflexivity. }
    eapply rtc_l.
    { eapply (step_job cfg _ 0%nat).
      - reflexivity.
      - eapply (js_return cfg _ 0%nat ip (lookup ip)); [reflexivity | apply ws_return, Hnet].
      - reflexivity. }
    eapply rtc_trans.
    { apply (run_hosts cidr (PLoop n (incrementIP ip)) (enq ++ [ip])
               (urls ++ [shodanURL (IP_String ip)])). }
    eapply rtc_l; [|rewrite scanSends_snoc in Hrtc; exact Hrtc].
    eapply (step_job cfg _ 0%nat).
    + reflexivity.
    + eapply (js_next cfg _ 0%nat); [reflexivity | apply ws_next].
    + reflexivity.
  - injection Hrun as <-. exists urls, E. rewrite app_nil_r.
    apply rtc_once. eapply (step_job cfg _ 0%nat).
    + reflexivity.
    + by eapply (js_close cfg _ n ip).
    + reflexivity.
Qed.

Lemma run_end (cidr : string) (enq : list IP) (urls sent E : list string) :
  ∃ E',
    rtc (main_step cfg)
      (seqState cidr PWait WRecv 1 0 enq urls sent 1 false false E)
      (seqState cidr PDone WExit 0 0 enq urls sent 0 true true E').
Proof.
  exists (E ++ []).
  eapply rtc_l.
  { eapply (step_job cfg _ 0%nat).
    - reflexivity.
    - eapply (js_exit cfg _ 0%nat); [reflexivity | reflexivity | apply ws_closed].
    - reflexivity. }
  eapply rtc_l.
  { eapply (step_job cfg _ 0%nat).
    - reflexivity.
    - eapply js_done; reflexivity.
    - reflexivity. }
  eapply rtc_l; [by apply step_close|].
  apply rtc_once. by apply step_exit.
Qed.

Lemma run_start (cidr : string) (n : net.IPNet) :
  ParseCIDR cidr = Some n →
  rtc (main_step cfg) (init [cidr])
    (seqState cidr (PLoop n (loopStart n)) WRecv 1 0 [] [] [] 1 false false []).
Proof.
  intros Hparse. apply rtc_once.
  eapply (step_job cfg _ 0%nat _ ENone).
  - reflexivity.
  - by eapply (js_parse_ok cfg _ n).
  - rewrite Hone. reflexivity.
Qed.

(** On a range whose loop ends, the program can run to its end. *)
Lemma run_complete_state (cidr : string) (n : net.IPNet) (fuel : nat) (l : list IP) :
  ParseCIDR cidr = Some n → expand fuel n = Some l →
  ∃ urls E,
    reachable cfg [cidr]
      (seqState cidr PDone WExit 0 0 l urls (scanSends cfg lookup l) 0 true true E).
Proof.
  intros Hparse Hexp.
  destruct (run_loop cidr n fuel (loopStart n) l [] [] [] Hexp) as (urls & E & Hloop).
  destruct (run_end cidr l urls (scanSends cfg lookup l) E) as (E' & Hend).
  exists urls, E'. unfold reachable.
  eapply rtc_trans; [by apply run_start|].
  eapply rtc_trans; [exact Hloop | exact Hend].
Qed.

Lemma run_complete (cidr : string) (n : net.IPNet) (fuel : nat) (l : list IP) :
  ParseCIDR cidr = Some n → expand fuel n = Some l →
  ∃ s, reachable cfg [cidr] s ∧ s_mainDone s = true
       ∧ s_printer s = sequentialScan cfg lookup l.
Proof.
  intros Hparse Hexp.
  destruct (run_complete_state cidr n fuel l Hparse Hexp) as (urls & E & Hreach).
  eexists. split; [exact Hreach|]. split; [reflexivity|].
  cbn. by rewrite sequentialScan_aggregate.
Qed.

(** When the printing loop has ended, everything was scanned, in order. *)
Lemma seq_final (cidr : string) (n : net.IPNet) (s : Sys) :
  ParseCIDR cidr = Some n → reachable cfg [cidr] s → s_mainDone s = true →
  ∃ l, expand (S (length l)) n = Some l
       ∧ s_printer s = sequentialScan cfg lookup l.
Proof.
  intros Hparse Hreach Hdone.
  destruct (reachable_ok cfg _ _ Hreach) as (Hjobs & Hcidr & Hwg & Hclosed & Hmd & Hprint).
  destruct (reachable_seq _ _ Hreach) as (j & Hj & Harr & Hws).
  destruct (Hmd Hdone) as [Hcl Hch]. specialize (Hclosed Hcl).
  rewrite Hj in Hjobs, Hcidr, Hwg. rewrite Forall_singleton in Hjobs.
  cbn in Hcidr, Hwg. injection Hcidr as Hcidr.
  rewrite Hclosed in Hwg. unfold finished in Hwg.
  pose proof Hjobs as (_ & _ & Hprod).
  destruct (j_prod j); try (cbn in Hwg; discriminate).
  destruct Hprod as [[Hnone _]|((n' & Hparse' & Hrun) & Hlen & _ & Hstop)];
    [congruence|].
  rewrite Hcidr, Hparse in Hparse'. injection Hparse' as <-.
  exists (j_enq j). split; [done|].
  rewrite Hprint, sequentialScan_aggregate. f_equal.
  rewrite Hch, app_nil_r in Harr. rewrite Harr.
  destruct Hws as [(Hnil & _)|(wk & Hwk & Hsent)].
  - rewrite Hnil, Hone in Hlen. done.
  - rewrite Hwk in Hstop. unfold running in Hstop. cbn in Hstop.
    destruct wk; try (cbn in Hstop; discriminate). done.
Qed.

(** At any moment, what is printed is the beginning of what the
    sequential scan prints on the addresses sent so far. *)
Lemma seq_prefix (cidr : string) (n : net.IPNet) (s : Sys) :
  ParseCIDR cidr = Some n → reachable cfg [cidr] s →
  ∃ k, stdout (s_printer s)
       `prefix_of` stdout (sequentialScan cfg lookup (enqueued k n (loopStart n))).
Proof.
  intros Hparse Hreach.
  destruct (reachable_ok cfg _ _ Hreach) as (Hjobs & Hcidr & _ & _ & _ & Hprint).
  destruct (reachable_seq _ _ Hreach) as (j & Hj & Harr & Hws).
  rewrite Hj in Hjobs, Hcidr. rewrite Forall_singleton in Hjobs.
  cbn in Hcidr. injection Hcidr as Hcidr. rewrite <- Hcidr in Hparse.
  exists (length (j_enq j)).
  rewrite (job_ok_enqueued j n Hjobs Hparse), Hprint, sequentialScan_aggregate.
  apply aggregate_prefix.
  transitivity (j_sent j); [by exists (s_ch s)|].
  destruct Hws as [(_ & -> & _)|(wk & _ & Hsent)]; [apply prefix_nil|].
  destruct wk; cbn in Hsent.
  - by rewrite Hsent.
  - destruct Hsent as (enq' & -> & ->). rewrite scanSends_snoc. by eexists.
  - destruct Hsent as (enq' & ip & -> & <-). by eexists.
  - by rewrite Hsent.
Qed.

End SingleWorker.

(** C8: with one worker and a network that answers each address in one
    way, the one job of the program prints as a loop over the addresses of
    the range in increasing order does.  At any moment the printed lines
    are the beginning of what the sequential scan prints on the addresses
    handed out so far; when the program has ended it has printed what the
    sequential scan prints on the whole range; and on a range whose
    address loop ends the program can run to that end. *)
Theorem single_worker_is_sequential `{Externals} (fl : Flags) (cfg : Config)
    (lookup : IP → GetResult) (cidr : string) (n : net.IPNet) :
  main_setup fl = Some cfg → concurrency fl = 1 → ParseCIDR cidr = Some n →
  (∀ ip r, clientGet (shodanURL (IP_String ip)) r ↔ r = lookup ip) →
  (∀ s, Pool.reachable cfg [cidr] s →
        (∃ k, stdout (Pool.s_printer s)
              `prefix_of` stdout (sequentialScan cfg lookup
                                    (enqueued k n (loopStart n))))
        ∧ (Pool.s_mainDone s = true →
           ∃ l, expand (S (length l)) n = Some l
                ∧ Pool.s_printer s = sequentialScan cfg lookup l))
  ∧ (∀ fuel l, expand fuel n = Some l →
               ∃ s, Pool.reachable cfg [cidr] s ∧ Pool.s_mainDone s = true
                    ∧ Pool.s_printer s = sequentialScan cfg lookup l).
Proof.
  intros Hsetup Hfl Hparse Hlookup.
  destruct (setup_inv _ _ Hsetup) as (_ & _ & Hc & _ & Hcap & _).
  rewrite Hfl in Hc, Hcap.
  assert (Hcap' : 0 < c_cap cfg) by (by rewrite Hcap).
  assert (Hdet : ∀ ip r, clientGet (shodanURL (IP_String ip)) r → r = lookup ip)
    by (intros ip r; apply Hlookup).
  assert (Hnet : ∀ ip, clientGet (shodanURL (IP_String ip)) (lookup ip))
    by (intros ip; by apply Hlookup).
  split.
  - intros s Hreach. split.
    + by apply (seq_prefix cfg lookup Hc Hdet cidr n s).
    + by apply (seq_final cfg lookup Hc Hdet cidr n s).
  - intros fuel l Hexp.
    by apply (run_complete cfg lookup Hc Hcap' Hnet cidr n fuel l).
Qed.

(** Scenario 1 on the example environment: [10.0.0.0/30] with one worker;
    the program can end, and then has printed the one hostname found. *)
Lemma single_worker_is_sequential_witness :
  ∃ s,
    @Pool.reachable Example.mock (@mkConfig Example.mock 1 None None false 10)
      ["10.0.0.0/30"%string] s
    ∧ Pool.s_mainDone s = true
    ∧ stdout (Pool.s_printer s) = ["a.example.com"%string].
Proof.
  destruct (proj2 (@single_worker_is_sequential Example.mock
                     (parseFlags (mkCommandLine None None (Some 1) None None None))
                     (@mkConfig Example.mock 1 None None false 10)
                     (λ ip, Example.mockGet (shodanURL (Example.dottedQuad ip)))
                     "10.0.0.0/30"%string
                     (net.mkIPNet [10; 0; 0; 0] [255; 255; 255; 252])
                     eq_refl eq_refl eq_refl (λ ip r, iff_refl _))
              5%nat
              [[10; 0; 0; 0]; [10; 0; 0; 1]; [10; 0; 0; 2]; [10; 0; 0; 3]]
              eq_refl)
    as (s & Hreach & Hdone & Hprint).
  exists s. split; [exact Hreach|]. split; [exact Hdone|].
  rewrite Hprint. by vm_compute.
Defined.

(** Scenario 4 on the example environment, with one worker: the list
    [not-a-range], [10.0.0.0/31].  The program can run to its end; the
    report of the malformed entry is then on the diagnostic stream and
    the two addresses of the valid entry have been scanned. *)
Lemma malformed_descriptor_is_skipped_witness :
  @ParseCIDR Example.mock "not-a-range"%string = None
  ∧ ∃ s,
      @Pool.reachable Example.mock (@mkConfig Example.mock 1 None None false 10)
        ["not-a-range"; "10.0.0.0/31"]%string s
      ∧ Pool.s_mainDone s = true
      ∧ "Error parsing CIDR not-a-range: invalid CIDR address: not-a-range"%string
        ∈ Pool.s_stderr s
      ∧ Pool.j_enq <$> Pool.s_jobs s = [[]; [[10; 0; 0; 0]; [10; 0; 0; 1]]]
      ∧ stdout (Pool.s_printer s) = ["a.example.com"%string].
Proof.
  split; [reflexivity|].
  set (cfg := @mkConfig Example.mock 1 None None false 10).
  set (lookup := λ ip : IP, Example.mockGet (shodanURL (Example.dottedQuad ip))).
  destruct (@run_complete_state Example.mock cfg lookup eq_refl eq_refl
              (λ ip, eq_refl) "10.0.0.0/31"%string
              (net.mkIPNet [10; 0; 0; 0] [255; 255; 255; 254]) 3%nat
              [[10; 0; 0; 0]; [10; 0; 0; 1]] eq_refl eq_refl)
    as (urls & E & Hrun).
  eexists. split.
  - exact (proj1 (proj2 (@malformed_descriptor_is_skipped Example.mock cfg
                           [] ["10.0.0.0/31"%string] "not-a-range"%string
                           eq_refl))
             _ Hrun).
  - split; [reflexivity|]. split; [apply list_elem_of_here|].
    split; [reflexivity|]. by vm_compute.
Defined.

(* ===================================================================== *)
(** * Further properties of the code *)
(* ===================================================================== *)

(** ** [incrementIP] *)

(** X1: on a slice of bytes of any length [incrementIP] keeps the length,
    keeps every element a byte, and adds one to the big-endian value of
    the slice modulo [256^len]: a carry runs through the trailing [255]s
    and the slice of all [255]s wraps to all zeros. *)
Theorem incrementIP_adds_one (ip : IP) :
  wfIP ip →
  length (incrementIP ip) = length ip
  ∧ wfIP (incrementIP ip)
  ∧ ipVal (incrementIP ip) = (ipVal ip + 1) mod 256 ^ Z.of_nat (length ip)
  ∧ (ipVal ip + 1 < 256 ^ Z.of_nat (length ip) →
     ipVal ip < ipVal (incrementIP ip))
  ∧ (ipVal ip + 1 = 256 ^ Z.of_nat (length ip) → ipVal (incrementIP ip) = 0).
Proof.
  intros Hwf. destruct (incrementIP_spec ip Hwf) as (Hl & Hw & Hv).
  pose proof (ipVal_bounds ip Hwf) as Hb.
  split; [done|]. split; [done|]. split; [done|]. split.
  - intros Hlt. rewrite Hv, Z.mod_small by lia. lia.
  - intros Heq. rewrite Hv, Heq, Z.mod_same; [done|lia].
Qed.

Lemma incrementIP_adds_one_witness :
  wfIP [10; 0; 255; 255]
  ∧ ipVal (incrementIP [10; 0; 255; 255]) = (ipVal [10; 0; 255; 255] + 1) mod 256 ^ 4.
Proof.
  assert (Hwf : wfIP [10; 0; 255; 255])
    by (by apply (bool_decide_unpack (wfIP _)); vm_compute).
  split; [exact Hwf|].
  exact (proj1 (proj2 (proj2 (incrementIP_adds_one [10; 0; 255; 255] Hwf)))).
Defined.

(** X2: [k] calls of [incrementIP] add [k] modulo [256^len], whatever
    the length of the slice; after [256^len] calls the slice is back at
    its first value. *)
Theorem incrementIP_iterated (k : nat) (ip : IP) :
  wfIP ip →
  length (Nat.iter k incrementIP ip) = length ip
  ∧ wfIP (Nat.iter k incrementIP ip)
  ∧ ipVal (Nat.iter k incrementIP ip)
    = (ipVal ip + Z.of_nat k) mod 256 ^ Z.of_nat (length ip)
  ∧ (Z.of_nat k = 256 ^ Z.of_nat (length ip) → Nat.iter k incrementIP ip = ip).
Proof.
  intros Hwf. pose proof (ipVal_bounds ip Hwf) as Hb.
  assert (Hiter : length (Nat.iter k incrementIP ip) = length ip
                  ∧ wfIP (Nat.iter k incrementIP ip)
                  ∧ ipVal (Nat.iter k incrementIP ip)
                    = (ipVal ip + Z.of_nat k) mod 256 ^ Z.of_nat (length ip)).
  { induction k as [|k (IHl & IHw & IHv)].
    - cbn [Nat.iter]. rewrite Z.add_0_r, Z.mod_small by lia. done.
    - rewrite Nat.iter_succ. destruct (incrementIP_spec _ IHw) as (Hl & Hw & Hv).
      rewrite IHl in Hl, Hv. split; [done|]. split; [done|].
      rewrite Hv, IHv, Zplus_mod_idemp_l. f_equal. lia. }
  destruct Hiter as (Hl & Hw & Hv).
  split; [done|]. split; [done|]. split; [done|].
  intros Hk. apply ipVal_inj; [done | done | done |].
  rewrite Hv, Hk.
  replace (ipVal ip + 256 ^ Z.of_nat (length ip))
    with (ipVal ip + 1 * 256 ^ Z.of_nat (length ip)) by lia.
  rewrite Z.mod_add, Z.mod_small by lia. done.
Qed.

Lemma incrementIP_iterated_witness :
  wfIP [255; 254]
  ∧ ipVal (Nat.iter 3 incrementIP [255; 254]) = (ipVal [255; 254] + 3) mod 256 ^ 2.
Proof.
  assert (Hwf : wfIP [255; 254])
    by (by apply (bool_decide_unpack (wfIP _)); vm_compute).
  split; [exact Hwf|].
  exact (proj1 (proj2 (proj2 (incrementIP_iterated 3 [255; 254] Hwf)))).
Defined.

(** ** [fetchHostnamesFromShodan] *)

Section FetchFacts.
Context `{Externals}.

(** X3: without [-v] the function writes no log line, whatever the
    network answers. *)
Theorem fetch_quiet (ip : string) (r : GetResult) :
  snd (fetchHostnamesFromShodan false ip r) = [].
Proof.
  unfold fetchHostnamesFromShodan, fetchBegin, fetchEnd. cbn.
  destruct r as [err|status body]; [done|].
  destruct (negb (status =? 200)); [done|].
  by destruct (NewDocumentFromReader body).
Qed.

Lemma domainOf_elem (b : BoldNode) (h : string) :
  h ∈ domainOf b
  ↔ ∃ data, b_prev b = Some data ∧ TrimSpace data ≠ EmptyString
            ∧ h = (TrimSpace data +:+ b_text b)%string.
Proof.
  unfold domainOf. destruct (b_prev b) as [data|].
  - destruct (decide (TrimSpace data = EmptyString)) as [He|Hne].
    + split; [by intros ?%elem_of_nil|]. intros (d & [= <-] & Hd & _). done.
    + rewrite list_elem_of_singleton. split.
      * intros ->. by exists data.
      * by intros (d & [= <-] & _ & ->).
  - split; [by intros ?%elem_of_nil|]. by intros (d & Hd & _).
Qed.

(** X4: a hostname is returned exactly when the request succeeded with
    status 200, the page parsed, and the hostname is the trimmed text
    before some [<b>] element, not blank, followed by the text of that
    element.  In particular nothing is returned for an error, another
    status or a page that does not parse, and the result does not depend
    on [-v]. *)
Theorem fetch_hostnames_iff (v : bool) (ip : string) (r : GetResult) (h : string) :
  h ∈ fst (fetchHostnamesFromShodan v ip r)
  ↔ ∃ body bs b data,
      r = GetOk 200 body ∧ NewDocumentFromReader body = inr bs
      ∧ b ∈ bs ∧ b_prev b = Some data ∧ TrimSpace data ≠ EmptyString
      ∧ h = (TrimSpace data +:+ b_text b)%string.
Proof.
  unfold fetchHostnamesFromShodan, fetchEnd. cbn [fst].
  destruct r as [err|status body].
  { split; [by intros ?%elem_of_nil|]. by intros (? & ? & ? & ? & ? & _). }
  destruct (Z.eqb_spec status 200) as [->|Hne]; cbn [negb].
  - destruct (NewDocumentFromReader body) as [err|bs] eqn:Hdoc.
    + split; [by intros ?%elem_of_nil|].
      intros (? & ? & ? & ? & [= <-] & Hd & _). congruence.
    + cbn [fst]. rewrite list_elem_of_join. split.
      * intros (l & Hh & Hl). apply list_elem_of_fmap in Hl as (b & -> & Hb).
        apply domainOf_elem in Hh as (data & ? & ? & ?).
        by exists body, bs, b, data.
      * intros (body' & bs' & b & data & [= <-] & Hd & Hb & Hp & Ht & ->).
        rewrite Hdoc in Hd. injection Hd as <-.
        exists (domainOf b). split; [|by apply list_elem_of_fmap_2].
        apply domainOf_elem. by exists data.
  - split; [by intros ?%elem_of_nil|].
    intros (? & ? & ? & ? & [= -> _] & _). done.
Qed.

(** X5: with [-v] the log starts with the line that announces the
    request; it has one more line exactly when no hostname is returned (the
    error, the status, the parse failure or the empty result), so every
    empty result is explained.  The hostnames are those returned
    without [-v]. *)
Theorem fetch_verbose_log (ip : string) (r : GetResult) :
  fst (fetchHostnamesFromShodan true ip r) = fst (fetchHostnamesFromShodan false ip r)
  ∧ head (snd (fetchHostnamesFromShodan true ip r))
    = Some ("Fetching data for IP: " +:+ ip)%string
  ∧ length (snd (fetchHostnamesFromShodan true ip r))
    = (if decide (fst (fetchHostnamesFromShodan true ip r) = []) then 2 else 1)%nat.
Proof.
  unfold fetchHostnamesFromShodan, fetchBegin, fetchEnd. cbn [fst snd].
  destruct r as [err|status body]; [done|].
  destruct (negb (status =? 200)); [done|].
  destruct (NewDocumentFromReader body) as [err|bs]; [done|].
  cbn [fst snd andb]. split; [done|]. split; [done|].
  destruct (mjoin (domainOf <$> bs)) as [|x l]; done.
Qed.

End FetchFacts.

(** ** The worker loop *)

Section WorkerFacts.
Context `{Externals}.

Lemma forward_app (filter match_ : option Regexp) (a b : list string) :
  forward filter match_ (a ++ b) = forward filter match_ a ++ forward filter match_ b.
Proof.
  induction a as [|h a IH]; [done|]. cbn [forward app].
  destruct (forwarded filter match_ h); by rewrite IH.
Qed.

Lemma forward_elem (filter match_ : option Regexp) (hostnames : list string)
    (h : string) :
  h ∈ forward filter match_ hostnames
  ↔ h ∈ hostnames ∧ forwarded filter match_ h = true.
Proof.
  induction hostnames as [|x xs IH]; cbn [forward].
  - split; [by intros ?%elem_of_nil|]. by intros [?%elem_of_nil _].
  - destruct (forwarded filter match_ x) eqn:Hx.
    + rewrite !elem_of_cons, IH.
      split; [intros [ -> | [? ?] ]; auto | intros [ [ -> | ? ] ?]; auto].
    + rewrite IH, elem_of_cons.
      split; [intros [? ?]; auto | intros [ [ -> | ? ] ?]; [congruence | auto]].
Qed.

(** X6: the hostnames a worker sends for one lookup are taken from the
    hostnames returned, in their order and with their repetitions: the
    loop sends nothing that was not returned, treats each hostname on its
    own (the sends for two lists in a row are the sends for each) and
    filtering what was already filtered changes nothing. *)
Theorem forward_keeps_order (filter match_ : option Regexp) (hostnames : list string) :
  forward filter match_ hostnames `sublist_of` hostnames
  ∧ (∀ more, forward filter match_ (hostnames ++ more)
             = forward filter match_ hostnames ++ forward filter match_ more)
  ∧ forward filter match_ (forward filter match_ hostnames)
    = forward filter match_ hostnames
  ∧ (length (forward filter match_ hostnames) <= length hostnames)%nat.
Proof.
  split; [|split; [|split]].
  - induction hostnames as [|h t IH]; [done|]. cbn [forward].
    destruct (forwarded filter match_ h); [by apply sublist_skip | by apply sublist_cons].
  - intros more. apply forward_app.
  - induction hostnames as [|h t IH]; [done|]. cbn [forward].
    destruct (forwarded filter match_ h) eqn:Hfw; [|done].
    cbn [forward]. by rewrite Hfw, IH.
  - induction hostnames as [|h t IH]; [done|]. cbn [forward].
    destruct (forwarded filter match_ h); cbn [length]; lia.
Qed.

(** X7: a worker carries nothing from one address to the next: on the
    addresses [a] followed by [b] it makes the requests and sends the
    hostnames it makes and sends on [a], then those on [b]; it makes one
    request per address received; and a hostname is sent exactly when it
    passes the filters and was returned for one of the addresses. *)
Theorem worker_composes (cfg : Config) (a b : list (IP * GetResult)) :
  fst (worker cfg (a ++ b)) = fst (worker cfg a) ++ fst (worker cfg b)
  ∧ snd (worker cfg (a ++ b)) = snd (worker cfg a) ++ snd (worker cfg b)
  ∧ length (fst (worker cfg a)) = length a
  ∧ (∀ h, h ∈ snd (worker cfg a)
          ↔ forwarded (c_filter cfg) (c_match cfg) h = true
            ∧ ∃ ip r, (ip, r) ∈ a
                      ∧ h ∈ fst (fetchHostnamesFromShodan (c_verbose cfg)
                                   (IP_String ip) r)).
Proof.
  rewrite worker_app. cbn [fst snd]. split; [done|]. split; [done|]. split.
  - by rewrite worker_requests, length_fmap.
  - intros h. induction a as [|[ip r] a IH].
    + cbn. split; [by intros ?%elem_of_nil|].
      intros (_ & ? & ? & ?%elem_of_nil & _). done.
    + rewrite worker_cons. cbn [snd]. rewrite elem_of_app, IH.
      rewrite forward_elem. cbn [fetchHostnamesFromShodan fst]. split.
      * intros [[Hin Hf]|[Hf (ip' & r' & Hin & Hh)]].
        -- split; [done|]. exists ip, r. split; [apply list_elem_of_here | done].
        -- split; [done|]. exists ip', r'. split; [by apply list_elem_of_further | done].
      * intros [Hf (ip' & r' & Hin & Hh)].
        apply elem_of_cons in Hin as [[= -> ->]|Hin]; [by left|].
        right. split; [done|]. by exists ip', r'.
Qed.

End WorkerFacts.

(** ** The start of [main] *)

Section StartFacts.
Context `{Externals}.

Lemma compileFilter_None (pattern : string) :
  compileFilter pattern = None
  ↔ pattern ≠ EmptyString ∧ MustCompile pattern = None.
Proof.
  unfold compileFilter. destruct (decide (pattern = EmptyString)) as [->|Hne].
  - split; [done | by intros [? _]].
  - destruct (MustCompile pattern); split; try done; by intros [_ ?].
Qed.

Lemma wrap_int_small (z : Z) : - 2 ^ 63 <= z < 2 ^ 63 → wrap_int z = z.
Proof. intros Hz. unfold wrap_int. rewrite Z.mod_small; lia. Qed.



(** X9: for a worker count [c] within [2^40] of zero, if the set-up of
    [main] does not panic then [c] is not negative, the result channel
    holds [10 * c] hostnames, and the configuration handed to the jobs
    carries the worker count and the verbosity of the flags, and for each
    pattern the compiled flag, or [nil] for the empty pattern. *)
Theorem result_channel_capacity (fl : Flags) (cfg : Config) :
  - 2 ^ 40 <= concurrency fl <= 2 ^ 40 →
  main_setup fl = Some cfg →
  0 <= concurrency fl
  ∧ c_cap cfg = 10 * concurrency fl
  ∧ c_concurrency cfg = concurrency fl
  ∧ c_verbose cfg = verbose fl
  ∧ Some (c_filter cfg) = compileFilter (filterRegex fl)
  ∧ Some (c_match cfg) = compileFilter (matchRegex fl).
Proof.
  intros Hc Hs. unfold main_setup in Hs.
  destruct (compileFilter (filterRegex fl)) as [f|]; [|done].
  destruct (compileFilter (matchRegex fl)) as [m|]; [|done].
  cbn [mbind option_bind] in Hs. rewrite wrap_int_small in Hs by lia.
  destruct (Z.ltb_spec (concurrency fl * 10) 0) as [Hneg|Hpos]; [done|].
  injection Hs as <-. cbn. repeat split; try done; lia.
Qed.

(** X10: [isInputFromPipe] is true exactly when the standard input is
    there, its [Stat] succeeds and bit 21 of the mode, the character
    device bit, is clear; no other bit of the mode matters. *)
Theorem isInputFromPipe_bit (inp : Inputs) :
  isInputFromPipe inp = true
  ↔ ∃ mode lines, in_stdin inp = Some (mkStdin (Some mode) lines)
                  ∧ Z.testbit mode 21 = false.
Proof.
  assert (Hbit : ∀ mode, Z.land mode ModeCharDevice = 0 ↔ Z.testbit mode 21 = false).
  { intros mode. unfold ModeCharDevice. split.
    - intros Hz. apply (f_equal (λ z, Z.testbit z 21)) in Hz.
      rewrite Z.land_spec, Z.pow2_bits_true, Z.bits_0, andb_true_r in Hz by lia. done.
    - intros Hb. apply Z.bits_inj'. intros i Hi.
      rewrite Z.land_spec, Z.bits_0, Z.pow2_bits_eqb by lia.
      destruct (Z.eqb_spec 21 i) as [<-|?]; [by rewrite Hb | apply andb_false_r]. }
  unfold isInputFromPipe. destruct (in_stdin inp) as [[[mode|] lines]|].
  - rewrite Z.eqb_eq, Hbit. split.
    + intros Hb. by exists mode, lines.
    + by intros (m & l & [= <- <-] & Hb).
  - split; [done|]. by intros (? & ? & ? & _).
  - split; [done|]. by intros (? & ? & ? & _).
Qed.

Lemma scanLines_spec (lines : list string) (c : string) :
  c ∈ scanLines lines
  ↔ c ≠ EmptyString ∧ ∃ text, text ∈ lines ∧ c = TrimSpace text.
Proof.
  induction lines as [|text rest IH]; cbn [scanLines].
  - split; [by intros ?%elem_of_nil|]. intros (_ & ? & ?%elem_of_nil & _). done.
  - destruct (decide (TrimSpace text = EmptyString)) as [He|Hne].
    + rewrite IH. split.
      * intros (Hc & t & Ht & ->). split; [done|]. exists t.
        split; [by apply list_elem_of_further | done].
      * intros (Hc & t & Ht & ->). split; [done|].
        apply elem_of_cons in Ht as [->|Ht]; [done|]. by exists t.
    + rewrite elem_of_cons, IH. split.
      * intros [->|(Hc & t & Ht & ->)].
        -- split; [done|]. exists text. split; [apply list_elem_of_here | done].
        -- split; [done|]. exists t. split; [by apply list_elem_of_further | done].
      * intros (Hc & t & Ht & ->).
        apply elem_of_cons in Ht as [->|Ht]; [by left|].
        right. split; [done|]. by exists t.
Qed.


(** X12: the order in which [main] starts.  Without [-t], without [-l]
    and without a piped standard input it prints the usage line and
    exits, whatever the other flags are.  Otherwise a pattern that does
    not compile makes it panic before the list file is opened; a list
    file that cannot be opened makes it exit with the message of
    [getCIDRList] before the result channel is made; and when it starts
    its jobs, the configuration is the one of the set-up and the
    descriptors are those of [getCIDRList], none of them empty. *)
Theorem main_start_order (fl : Flags) (inp : Inputs) :
  let noInput := targetCIDR fl = EmptyString ∧ listFile fl = EmptyString
                 ∧ (in_stdin inp = None ∨ isInputFromPipe inp = false) in
  (noInput → main_start fl inp = StartExit usageLine)
  ∧ (¬ noInput →
     (filterRegex fl ≠ EmptyString ∧ MustCompile (filterRegex fl) = None)
     ∨ (matchRegex fl ≠ EmptyString ∧ MustCompile (matchRegex fl) = None) →
     main_start fl inp = StartPanic)
  ∧ (∀ line, main_start fl inp = StartExit line →
             (noInput ∧ line = usageLine)
             ∨ ¬ noInput
               ∧ compileFilter (filterRegex fl) ≠ None
               ∧ compileFilter (matchRegex fl) ≠ None
               ∧ ∃ err, listFile fl ≠ EmptyString
                        ∧ in_open inp (listFile fl) = inl err
                        ∧ line = ("Error opening file: " +:+ err)%string)
  ∧ (∀ cfg cidrList, main_start fl inp = StartRun cfg cidrList →
                     ¬ noInput ∧ main_setup fl = Some cfg
                     ∧ getCIDRList fl inp = inr cidrList
                     ∧ Forall (λ cidr, cidr ≠ EmptyString) cidrList).
Proof.
  intros noInput.
  assert (Hcond : bool_decide (targetCIDR fl = EmptyString)
                  && bool_decide (listFile fl = EmptyString)
                  && (bool_decide (in_stdin inp = None) || negb (isInputFromPipe inp))
                  = true ↔ noInput).
  { unfold noInput.
    rewrite !andb_true_iff, orb_true_iff, negb_true_iff, !bool_decide_eq_true.
    tauto. }
  unfold main_start.
  destruct (bool_decide (targetCIDR fl = EmptyString)
            && bool_decide (listFile fl = EmptyString)
            && (bool_decide (in_stdin inp = None) || negb (isInputFromPipe inp)))
    eqn:Hb.
  { assert (Hn : noInput) by (by apply Hcond).
    split; [done|]. split; [done|]. split; [|done].
    intros line [= <-]. by left. }
  assert (Hno : ¬ noInput) by (intros Hn; by apply Hcond in Hn).
  split; [done|]. split; [|split].
  - intros _ [Hc|Hc]; apply compileFilter_None in Hc; rewrite Hc; [done|].
    by destruct (compileFilter (filterRegex fl)).
  - intros line Hline. right.
    destruct (compileFilter (filterRegex fl)) as [f|] eqn:Hf; [|done].
    destruct (compileFilter (matchRegex fl)) as [m|] eqn:Hm; [|done].
    assert (Hopen : ∃ err, listFile fl ≠ EmptyString
                           ∧ in_open inp (listFile fl) = inl err
                           ∧ line = ("Error opening file: " +:+ err)%string).
    { unfold getCIDRList in Hline.
      destruct (decide (listFile fl = EmptyString)) as [Hl|Hl].
      - destruct (decide (targetCIDR fl = EmptyString)); cbn in Hline.
        + by destruct (wrap_int (concurrency fl * 10) <? 0).
        + by destruct (wrap_int (concurrency fl * 10) <? 0).
      - destruct (in_open inp (listFile fl)) as [err|lines].
        + injection Hline as <-. by exists err.
        + by destruct (wrap_int (concurrency fl * 10) <? 0). }
    done.
  - intros cfg cidrList Hrun.
    unfold main_setup.
    destruct (compileFilter (filterRegex fl)) as [f|] eqn:Hf; [|done].
    destruct (compileFilter (matchRegex fl)) as [m|] eqn:Hm; [|done].
    destruct (getCIDRList fl inp) as [line|l] eqn:Hl; [done|].
    cbn [mbind option_bind] in *.
    destruct (wrap_int (concurrency fl * 10) <? 0); [done|].
    injection Hrun as <- <-. split; [done|]. split; [done|]. split; [done|].
    unfold getCIDRList in Hl. apply Forall_forall. intros c Hc.
    destruct (decide (listFile fl = EmptyString)).
    + destruct (decide (targetCIDR fl = EmptyString)).
      * injection Hl as <-. by apply scanLines_spec in Hc as [? _].
      * injection Hl as <-. by apply list_elem_of_singleton in Hc as ->.
    + destruct (in_open inp (listFile fl)); [done|].
      injection Hl as <-. by apply scanLines_spec in Hc as [? _].
Qed.

End StartFacts.


Lemma result_channel_capacity_witness :
  @main_setup Example.mock (parseFlags noArguments)
  = Some (@mkConfig Example.mock 5 None None false 50)
  ∧ 50 = 10 * concurrency (parseFlags noArguments).
Proof.
  split; [reflexivity|].
  exact (proj1 (proj2 (@result_channel_capacity Example.mock
                         (parseFlags noArguments)
                         (@mkConfig Example.mock 5 None None false 50)
                         ltac:(by vm_compute) eq_refl))).
Defined.


(** ** The printing loop of [main] *)

Lemma stdout_aggregate_app (a b : list string) :
  stdout (aggregate (a ++ b))
  = stdout (aggregate a) ++ List.filter (λ h, bool_decide (h ∉ a)) (stdout (aggregate b)).
Proof.
  induction b as [|h b IH] using rev_ind.
  - by rewrite !app_nil_r.
  - rewrite app_assoc, !stdout_aggregate_snoc, IH, List.filter_app, <- app_assoc.
    f_equal. f_equal.
    destruct (decide (h ∈ b)) as [Hb|Hb], (decide (h ∈ a)) as [Ha|Ha],
      (decide (h ∈ a ++ b)) as [Hab|Hab];
      try (exfalso; rewrite elem_of_app in Hab; tauto); cbn; try done.
    + by rewrite bool_decide_eq_false_2 by (by intros ?).
    + by rewrite bool_decide_eq_true_2.
Qed.

Lemma stdout_aggregate_NoDup (l : list string) :
  NoDup l → stdout (aggregate l) = l.
Proof.
  induction l as [|h l IH] using rev_ind; [done|].
  intros [Hl [Hh _]]%NoDup_app. rewrite stdout_aggregate_snoc, IH by done.
  rewrite decide_False; [done|]. intros Hin. apply (Hh h Hin), list_elem_of_here.
Qed.

(** X13: the printing loop of [main] can be split at any point of the
    arrivals: what is printed for [a ++ b] is what is printed for [a]
    followed by what would be printed for [b] alone without the hostnames
    that are in [a].  Arrivals without a repetition are printed as they
    are, so printing the output again changes nothing, and the number of
    lines is at most the number of arrivals. *)
Theorem aggregate_splits (a b : list string) :
  stdout (aggregate (a ++ b))
  = stdout (aggregate a) ++ List.filter (λ h, bool_decide (h ∉ a)) (stdout (aggregate b))
  ∧ (NoDup a → stdout (aggregate a) = a)
  ∧ stdout (aggregate (stdout (aggregate a))) = stdout (aggregate a)
  ∧ (length (stdout (aggregate a)) ≤ length a)%nat.
Proof.
  assert (Hnd : ∀ l, NoDup (stdout (aggregate l))).
  { induction l as [|x l IH] using rev_ind; [constructor|].
    rewrite stdout_aggregate_snoc.
    destruct (decide (x ∈ l)) as [Hin|Hout]; [by rewrite app_nil_r|].
    apply NoDup_app. split; [done|]. split; [|apply NoDup_singleton].
    intros y Hy ->%list_elem_of_singleton.
    by apply (proj1 (stdout_aggregate_elem _ _)) in Hy. }
  split; [apply stdout_aggregate_app|]. split; [apply stdout_aggregate_NoDup|].
  split; [apply stdout_aggregate_NoDup, Hnd|].
  induction a as [|x a IH] using rev_ind; [done|].
  rewrite stdout_aggregate_snoc, !length_app.
  destruct (decide (x ∈ a)); cbn; lia.
Qed.

(** ** The way of a hostname through the pool *)

Lemma insert_not_nil {A} (l : list A) (i : nat) (a b : A) :
  l !! i = Some a → <[i := b]> l ≠ [].
Proof.
  intros Hl Hi. apply lookup_lt_Some in Hl. apply (f_equal length) in Hi.
  rewrite length_insert in Hi. cbn in Hi. lia.
Qed.

Lemma filter_insert_perm {A} (f : A → bool) (l : list A) (i : nat) (a b : A) :
  l !! i = Some a → f a = false → f b = true →
  List.filter f (<[i := b]> l) ≡ₚ b :: List.filter f l.
Proof.
  intros Hl Ha Hb.
  rewrite <- (take_drop_middle l i a Hl) at 2.
  rewrite insert_take_drop by (by eapply lookup_lt_Some).
  rewrite !List.filter_app. cbn. rewrite Ha, Hb.
  by rewrite Permutation_middle.
Qed.

Lemma filter_insert_same {A} (f : A → bool) (l : list A) (i : nat) (a b : A) :
  l !! i = Some a → f a = false → f b = false →
  List.filter f (<[i := b]> l) = List.filter f l.
Proof.
  intros Hl Ha Hb.
  rewrite <- (take_drop_middle l i a Hl) at 2.
  rewrite insert_take_drop by (by eapply lookup_lt_Some).
  rewrite !List.filter_app. cbn. by rewrite Ha, Hb.
Qed.

Lemma filter_length_pos_inv {A} (f : A → bool) (l : list A) :
  (0 < length (List.filter f l))%nat → ∃ i a, l !! i = Some a ∧ f a = true.
Proof.
  induction l as [|x l IH]; cbn; [lia|].
  destruct (f x) eqn:Hx.
  - intros _. by exists 0%nat, x.
  - intros Hpos. destruct (IH Hpos) as (i & a & Hi & Ha). by exists (S i), a.
Qed.

Lemma filter_length_zero {A} (f : A → bool) (l : list A) (i : nat) (a : A) :
  length (List.filter f l) = 0%nat → l !! i = Some a → f a = false.
Proof.
  intros Hz Hl. destruct (f a) eqn:Ha; [|done].
  pose proof (filter_length_pos f l i a Hl Ha). lia.
Qed.

Lemma filter_length_all {A} (f : A → bool) (l : list A) (i : nat) (a : A) :
  length (List.filter f l) = length l → l !! i = Some a → f a = true.
Proof.
  revert i. induction l as [|x l IH]; intros i; [done|]. cbn.
  pose proof (List.filter_length_le f l) as Hle.
  destruct (f x) eqn:Hx; cbn; [|lia].
  intros Hlen. destruct i as [|i]; cbn.
  - by intros [= <-].
  - apply IH. lia.
Qed.

Lemma mjoin_insert_snoc {A} (ls : list (list A)) (i : nat) (l : list A) (x : A) :
  ls !! i = Some l → mjoin (<[i := l ++ [x]]> ls) ≡ₚ mjoin ls ++ [x].
Proof.
  intros Hl.
  rewrite <- (take_drop_middle ls i l Hl) at 2.
  rewrite insert_take_drop by (by eapply lookup_lt_Some).
  rewrite !join_app. cbn. rewrite <- !app_assoc.
  do 2 f_equiv. apply Permutation_app_comm.
Qed.

Section PoolFlow.
Context `{Externals}.
Variable cfg : Config.

Lemma lookedUp_mono (enq enq' : list IP) (h : string) :
  enq ⊆ enq' → Pool.lookedUp cfg enq h → Pool.lookedUp cfg enq' h.
Proof. intros Hsub (ip & r & Hip & Hget & Hh). exists ip, r. auto. Qed.

Lemma worker_flow_mono (enq enq' : list IP) (wk : Pool.Worker) :
  enq ⊆ enq' → Pool.worker_flow cfg enq wk → Pool.worker_flow cfg enq' wk.
Proof.
  intros Hsub. destruct wk as [|ip|hostnames|]; cbn; try done.
  - apply Hsub.
  - intros Hf. eapply Forall_impl; [exact Hf|]. intros h. by apply lookedUp_mono.
Qed.

Lemma fetch_silent (ip : string) (r : GetResult) :
  fetchBegin false ip = [] ∧ snd (fetchEnd false ip r) = [].
Proof.
  split; [done|]. unfold fetchEnd. destruct r as [err|status body]; [done|].
  destruct (negb (status =? 200)); [done|].
  by destruct (NewDocumentFromReader body).
Qed.

(** A step of a job keeps the flow, and adds to [j_sent] exactly what it
    sends on [ch]. *)
Lemma job_step_flow (j : Pool.Job) (e : Pool.Effect) (j' : Pool.Job) :
  Pool.processCIDR_step cfg j e j' → Pool.job_ok cfg j → Pool.job_flow cfg j →
  Pool.job_flow cfg j'
  ∧ Pool.j_sent j' = match e with
                     | Pool.ESend h => Pool.j_sent j ++ [h]
                     | _ => Pool.j_sent j
                     end.
Proof.
  intros Hstep Hok (Hnil & Hws & Hsent).
  assert (Hmono : ∀ ip, Pool.j_enq j ⊆ Pool.j_enq j ++ [ip])
    by (intros ip x Hx; apply elem_of_app; by left).
  destruct Hstep as [j Hp Hn|j n Hp Hn|j n ip w wk wk' Hp Hc Hw Hwk|j n ip Hp Hc
                    |j w ip r wk' Hw Hwk|j w wk wk' Hw Hwk|j w wk h wk' Hw Hwk
                    |j w wk wk' Hw Hwk|j w wk wk' Hp Hw Hwk|j Hp Hz];
    (split; [|done]); unfold Pool.job_flow; cbn.
  - done.
  - destruct Hok as (_ & _ & Hun). rewrite Hp in Hun.
    destruct Hun as (_ & _ & _ & Henq & _ & Hs). rewrite Henq, Hs.
    split; [done|]. split; [|constructor].
    apply Forall_replicate. exact I.
  - inversion Hwk; subst. split; [|split].
    + intros Hi. by apply insert_not_nil with (b := Pool.WInLookup ip) in Hw.
    + apply Forall_insert.
      * eapply Forall_impl; [exact Hws|]. intros wk.
        apply worker_flow_mono, Hmono.
      * cbn. apply elem_of_app. right. apply list_elem_of_here.
    + eapply Forall_impl; [exact Hsent|]. intros h [Hl Hf]. split; [|done].
      exact (lookedUp_mono _ _ _ (Hmono ip) Hl).
  - done.
  - inversion Hwk; subst. split; [|split; [|done]].
    + intros Hi. by eapply insert_not_nil in Hw.
    + apply Forall_insert; [done|]. cbn. apply Forall_forall. intros h Hh.
      exists ip, r. split; [|done].
      by apply (proj1 (Forall_lookup _ _) Hws w _ Hw).
  - inversion Hwk; subst. split; [|split; [|done]].
    + intros Hi. by eapply insert_not_nil in Hw.
    + apply Forall_insert; [done|].
      pose proof (proj1 (Forall_lookup _ _) Hws w _ Hw) as Hl. cbn in Hl |- *.
      by apply Forall_cons in Hl as [_ ?].
  - inversion Hwk; subst.
    pose proof (proj1 (Forall_lookup _ _) Hws w _ Hw) as Hl. cbn in Hl.
    apply Forall_cons in Hl as [Hh Hrest].
    split; [|split].
    + intros Hi. by eapply insert_not_nil in Hw.
    + by apply Forall_insert.
    + apply Forall_app. split; [done|]. by apply Forall_singleton.
  - inversion Hwk; subst. split; [|split; [|done]].
    + intros Hi. by eapply insert_not_nil in Hw.
    + by apply Forall_insert.
  - inversion Hwk; subst. split; [|split; [|done]].
    + intros Hi. by eapply insert_not_nil in Hw.
    + by apply Forall_insert.
  - done.
Qed.

(** A step of a job changes whether the job is a reported one only when
    it is the step that writes the report. *)
Lemma job_step_reported (j : Pool.Job) (e : Pool.Effect) (j' : Pool.Job) :
  Pool.processCIDR_step cfg j e j' → Pool.job_ok cfg j →
  Pool.reported j = false
  ∧ match e with
    | Pool.EDone lines =>
        (lines = [Pool.parseErrorLine (Pool.j_cidr j')] ∧ Pool.reported j' = true)
        ∨ (lines = [] ∧ Pool.reported j' = false)
    | Pool.ELog lines =>
        Pool.reported j' = false ∧ (c_verbose cfg = false → lines = [])
    | _ => Pool.reported j' = false
    end.
Proof.
  intros Hstep Hok.
  destruct (job_step_finished cfg _ _ _ Hstep Hok) as [Hf Hf'].
  unfold Pool.reported. rewrite Hf, Hf'. split; [done|].
  destruct Hstep; cbn; try done.
  - left. by rewrite H1.
  - split; [done|]. by intros ->.
  - split; [done|]. intros ->. exact (proj2 (fetch_silent _ _)).
  - right. split; [done|]. destruct Hok as (_ & _ & Hp). rewrite H0 in Hp.
    destruct Hp as ((n & -> & _) & _). done.
Qed.

Lemma init_flow (cidrList : list string) : Pool.flow_ok cfg (Pool.init cidrList).
Proof.
  unfold Pool.flow_ok, Pool.init. cbn. split; [|split; [|split; [|split]]].
  - apply Forall_fmap, Forall_forall. intros cidr _.
    unfold compose, Pool.job_flow. cbn. repeat split; constructor.
  - induction cidrList; [done|]. by cbn.
  - apply Forall_fmap, Forall_forall. intros cidr _. cbn. constructor.
  - by left.
  - intros _. induction cidrList as [|c l IH]; [done|]. cbn. exact IH.
Qed.

Lemma step_flow (cidrList : list string) (s s' : Pool.Sys) :
  Pool.sys_ok cfg cidrList s → Pool.flow_ok cfg s → Pool.main_step cfg s s' →
  Pool.flow_ok cfg s'.
Proof.
  intros (Hjobs & _) (Hfl & Hperm & Hsub & Hcap & Herr) Hstep.
  destruct Hstep as [s i j e j' s' Hi Hj He|s Hwg Hcl|s result rest Hch Hdone|s Hch Hcl Hdone].
  - assert (Hok : Pool.job_ok cfg j)
      by exact (proj1 (Forall_lookup _ _) Hjobs i j Hi).
    assert (Hjf : Pool.job_flow cfg j)
      by exact (proj1 (Forall_lookup _ _) Hfl i j Hi).
    destruct (job_step_flow _ _ _ Hj Hok Hjf) as [Hjf' Hsent'].
    destruct (job_step_reported _ _ _ Hj Hok) as [Hrep Hrep'].
    assert (Hroom : ∀ h, e = Pool.ESend h →
                         Z.of_nat (length (Pool.s_ch s)) < c_cap cfg).
    { intros h ->. cbn in He.
      destruct (Z.ltb_spec (Z.of_nat (length (Pool.s_ch s))) (c_cap cfg)); [done|done]. }
    apply applyEffect_inv in He.
    destruct He as (Hj' & _ & _ & _ & Harr & _ & Hch' & Herr').
    cbn in Hj', Harr, Hch', Herr'.
    unfold Pool.flow_ok. rewrite Hj', Harr, Hch', Herr'.
    assert (Hsame : (∀ h, e ≠ Pool.ESend h) →
                    Pool.j_sent <$> <[i := j']> (Pool.s_jobs s)
                    = Pool.j_sent <$> Pool.s_jobs s).
    { intros Hne. rewrite list_fmap_insert.
      apply list_insert_id. rewrite list_lookup_fmap, Hi. cbn. f_equal.
      destruct e; try done. by destruct (Hne hostname). }
    split; [by apply Forall_insert|].
    split; [|split; [|split]].
    + destruct e as [|lines|h|lines]; try (rewrite Hsame by done; exact Hperm).
      rewrite list_fmap_insert, Hsent', app_assoc.
      rewrite mjoin_insert_snoc by (by rewrite list_lookup_fmap, Hi).
      by rewrite Hperm.
    + destruct e as [|lines|h|lines];
        try (apply Forall_insert; [done|]; rewrite Hsent';
             exact (proj1 (Forall_lookup _ _) Hsub i j Hi)).
      rewrite app_assoc. apply Forall_insert.
      * eapply Forall_impl; [exact Hsub|]. intros j0 Hj0.
        by apply sublist_inserts_r.
      * rewrite Hsent'. apply sublist_app; [|done].
        exact (proj1 (Forall_lookup _ _) Hsub i j Hi).
    + destruct e as [|lines|h|lines]; try exact Hcap.
      right. rewrite length_app. cbn. specialize (Hroom h eq_refl). lia.
    + intros Hv. specialize (Herr Hv).
      destruct e as [|lines|h|lines].
      * by rewrite (filter_insert_same _ _ _ _ _ Hi Hrep Hrep').
      * destruct Hrep' as [Hrep' Hlines]. rewrite (Hlines Hv), app_nil_r.
        by rewrite (filter_insert_same _ _ _ _ _ Hi Hrep Hrep').
      * by rewrite (filter_insert_same _ _ _ _ _ Hi Hrep Hrep').
      * destruct Hrep' as [[-> Hrep']|[-> Hrep']].
        -- rewrite (filter_insert_perm _ _ _ _ _ Hi Hrep Hrep'). cbn.
           rewrite <- Herr. by rewrite Permutation_app_comm.
        -- rewrite app_nil_r.
           by rewrite (filter_insert_same _ _ _ _ _ Hi Hrep Hrep').
  - done.
  - unfold Pool.flow_ok. cbn. rewrite Hch in *.
    rewrite <- !app_assoc. cbn.
    split; [done|]. split; [done|]. split; [done|]. split; [|done].
    destruct Hcap as [?|Hcap]; [done|]. right. cbn in Hcap. lia.
  - done.
Qed.

Lemma reachable_flow (cidrList : list string) (s : Pool.Sys) :
  Pool.reachable cfg cidrList s → Pool.flow_ok cfg s.
Proof.
  intros Hreach.
  enough (Pool.sys_ok cfg cidrList s ∧ Pool.flow_ok cfg s) as [_ ?]; [done|].
  revert s Hreach.
  apply (rtc_ind_r (λ s, Pool.sys_ok cfg cidrList s ∧ Pool.flow_ok cfg s)).
  - split; [apply init_ok | apply init_flow].
  - intros s s' _ Hstep [Hok Hfl].
    split; [by eapply step_ok | by eapply step_flow].
Qed.

End PoolFlow.

Section PoolFacts.
Context `{Externals}.
Variable cfg : Config.

Lemma loopTrace_contains (n : net.IPNet) (enq : list IP) (ip : IP) :
  Pool.loopTrace n enq ip → Forall (λ a, net.Contains n a = true) enq.
Proof.
  induction 1 as [|enq ip _ IH Hc]; [constructor|].
  apply Forall_app. split; [done|]. by apply Forall_singleton.
Qed.

Lemma enqueue_contains (fuel : nat) (n : net.IPNet) (ip : IP) (l : list IP) :
  enqueue fuel n ip = Some l → Forall (λ a, net.Contains n a = true) l.
Proof.
  revert ip l. induction fuel as [|fuel IH]; intros ip l; cbn; [done|].
  destruct (net.Contains n ip) eqn:Hc; [|intros [= <-]; constructor].
  destruct (enqueue fuel n (incrementIP ip)) as [l'|] eqn:He; cbn; [|done].
  intros [= <-]. constructor; [done|]. by eapply IH.
Qed.

(** The addresses a job has handed out are addresses of its network. *)
Lemma job_ok_contains (j : Pool.Job) (n : net.IPNet) :
  Pool.job_ok cfg j → ParseCIDR (Pool.j_cidr j) = Some n →
  Forall (λ a, net.Contains n a = true) (Pool.j_enq j).
Proof.
  intros (_ & _ & Hp) Hn.
  assert (Hexp : Pool.expanded j → Forall (λ a, net.Contains n a = true) (Pool.j_enq j)).
  { intros (n' & Hn' & Hexp). rewrite Hn in Hn'. injection Hn' as <-.
    by eapply enqueue_contains. }
  destruct (Pool.j_prod j) as [|n' ip| |].
  - destruct Hp as (_ & _ & _ & -> & _). constructor.
  - destruct Hp as (Hn' & Htr & _). rewrite Hn in Hn'. injection Hn' as <-.
    by eapply loopTrace_contains.
  - destruct Hp as (He & _). by apply Hexp.
  - destruct Hp as [[Hnone _]|[He _]]; [congruence | by apply Hexp].
Qed.

(** A job that has handed out an address has a descriptor that parses. *)
Lemma job_ok_parsed (j : Pool.Job) :
  Pool.job_ok cfg j → Pool.j_enq j ≠ [] → ∃ n, ParseCIDR (Pool.j_cidr j) = Some n.
Proof.
  intros (_ & _ & Hp) Hne.
  destruct (Pool.j_prod j) as [|n' ip| |].
  - by destruct Hp as (_ & _ & _ & ? & _).
  - destruct Hp as (Hn' & _). by exists n'.
  - destruct Hp as ((n & Hn & _) & _). by exists n.
  - destruct Hp as [[_ (_ & _ & _ & ? & _)]|[(n & Hn & _) _]]; [done | by exists n].
Qed.

Lemma job_cidr_listed (cidrList : list string) (s : Pool.Sys) (i : nat) (j : Pool.Job) :
  Pool.sys_ok cfg cidrList s → Pool.s_jobs s !! i = Some j →
  cidrList !! i = Some (Pool.j_cidr j).
Proof.
  intros (_ & <- & _) Hi. by rewrite list_lookup_fmap, Hi.
Qed.

Lemma elem_of_sent (s : Pool.Sys) (h : string) :
  h ∈ mjoin (Pool.j_sent <$> Pool.s_jobs s)
  ↔ ∃ i j, Pool.s_jobs s !! i = Some j ∧ h ∈ Pool.j_sent j.
Proof.
  rewrite list_elem_of_join. split.
  - intros (l & Hh & Hl). apply list_elem_of_fmap in Hl as (j & -> & Hj).
    apply list_elem_of_lookup in Hj as [i Hi]. by exists i, j.
  - intros (i & j & Hi & Hh). exists (Pool.j_sent j). split; [done|].
    apply list_elem_of_fmap. exists j. split; [done|].
    by eapply list_elem_of_lookup_2.
Qed.

(** X14: no hostname is lost or made up between the workers and the
    printing loop.  In every state of the program the hostnames that
    have arrived at the printing loop, followed by those waiting in
    [ch], are the hostnames the workers of all jobs have sent, each as
    often as it was sent, and those of one job in the order in which
    the job sent them; [ch] never holds more than its capacity; and when
    [main] has left its loop every hostname sent has arrived, so the
    lines printed are the hostnames sent. *)
Theorem results_conserved (cidrList : list string) (s : Pool.Sys) :
  Pool.reachable cfg cidrList s →
  Pool.s_arrived s ++ Pool.s_ch s ≡ₚ mjoin (Pool.j_sent <$> Pool.s_jobs s)
  ∧ (∀ i j, Pool.s_jobs s !! i = Some j →
            Pool.j_sent j `sublist_of` Pool.s_arrived s ++ Pool.s_ch s)
  ∧ Z.of_nat (length (Pool.s_ch s)) <= Z.max 0 (c_cap cfg)
  ∧ (Pool.s_mainDone s = true →
     Pool.s_arrived s ≡ₚ mjoin (Pool.j_sent <$> Pool.s_jobs s)
     ∧ ∀ h, h ∈ stdout (Pool.s_printer s)
            ↔ ∃ i j, Pool.s_jobs s !! i = Some j ∧ h ∈ Pool.j_sent j).
Proof.
  intros Hreach.
  destruct (reachable_flow cfg _ _ Hreach) as (_ & Hperm & Hsub & Hcap & _).
  destruct (reachable_ok cfg _ _ Hreach) as (_ & _ & _ & _ & Hdone & Hpr).
  split; [done|]. split; [|split].
  - intros i j Hi. exact (proj1 (Forall_lookup _ _) Hsub i j Hi).
  - destruct Hcap as [-> | Hcap]; cbn; lia.
  - intros Hd. destruct (Hdone Hd) as [_ Hch]. rewrite Hch, app_nil_r in Hperm.
    split; [done|]. intros h.
    by rewrite Hpr, stdout_aggregate_elem, <- elem_of_sent, <- Hperm.
Qed.

(** X15: every line the program prints is a hostname that Shodan's page
    for an address gave, for an address inside the network of one of the
    descriptors of the list, and that neither the [-f] pattern excluded
    nor the [-m] pattern left out. *)
Theorem printed_hostname_provenance (cidrList : list string) (s : Pool.Sys)
    (h : string) :
  Pool.reachable cfg cidrList s → h ∈ stdout (Pool.s_printer s) →
  ∃ cidr n ip r,
    cidr ∈ cidrList ∧ ParseCIDR cidr = Some n ∧ net.Contains n ip = true
    ∧ clientGet (shodanURL (IP_String ip)) r
    ∧ h ∈ fst (fetchHostnamesFromShodan (c_verbose cfg) (IP_String ip) r)
    ∧ excluded (c_filter cfg) h = false
    ∧ notIncluded (c_match cfg) h = false.
Proof.
  intros Hreach Hh.
  destruct (reachable_flow cfg _ _ Hreach) as (Hfl & Hperm & _).
  pose proof (reachable_ok cfg _ _ Hreach) as Hok.
  destruct Hok as (Hjobs & Hcidr & _ & _ & _ & Hpr).
  rewrite Hpr in Hh. apply (proj1 (stdout_aggregate_elem _ _)) in Hh.
  assert (Hin : h ∈ Pool.s_arrived s ++ Pool.s_ch s)
    by (apply elem_of_app; by left).
  rewrite Hperm in Hin. apply elem_of_sent in Hin as (i & j & Hi & Hs).
  pose proof (proj1 (Forall_lookup _ _) Hjobs i j Hi) as Hj.
  destruct (proj1 (Forall_lookup _ _) Hfl i j Hi) as (_ & _ & Hsent).
  destruct (proj1 (Forall_forall _ _) Hsent h Hs) as [(ip & r & Hip & Hget & Hhost) Hfw].
  destruct (job_ok_parsed j Hj) as [n Hn].
  { intros Hnil. rewrite Hnil in Hip. by apply elem_of_nil in Hip. }
  exists (Pool.j_cidr j), n, ip, r.
  split. { rewrite <- Hcidr. apply list_elem_of_fmap. exists j. split; [done|].
           by eapply list_elem_of_lookup_2. }
  split; [done|].
  split. { exact (proj1 (Forall_forall _ _) (job_ok_contains j n Hj Hn) ip Hip). }
  split; [done|]. split; [done|].
  unfold forwarded in Hfw.
  destruct (excluded (c_filter cfg) h); [done|].
  by destruct (notIncluded (c_match cfg) h).
Qed.


(** X17: without [-v] the diagnostic stream holds one report for each
    job that has returned on a descriptor [ParseCIDR] rejected, and
    nothing else: every line of it is the report of a rejected
    descriptor of the list, and there are at most as many lines as
    descriptors. *)
Theorem quiet_stderr (cidrList : list string) (s : Pool.Sys) :
  c_verbose cfg = false → Pool.reachable cfg cidrList s →
  Pool.s_stderr s
  ≡ₚ (λ j, Pool.parseErrorLine (Pool.j_cidr j)) <$> List.filter Pool.reported (Pool.s_jobs s)
  ∧ (∀ line, line ∈ Pool.s_stderr s →
             ∃ cidr, cidr ∈ cidrList ∧ ParseCIDR cidr = None
                     ∧ line = Pool.parseErrorLine cidr)
  ∧ (length (Pool.s_stderr s) ≤ length cidrList)%nat.
Proof.
  intros Hv Hreach.
  destruct (reachable_flow cfg _ _ Hreach) as (_ & _ & _ & _ & Herr).
  destruct (reachable_ok cfg _ _ Hreach) as (_ & Hcidr & _).
  specialize (Herr Hv). split; [done|]. split.
  - intros line Hline. rewrite Herr in Hline.
    apply list_elem_of_fmap in Hline as (j & -> & Hj).
    apply (proj1 (list_elem_of_In _ _)) in Hj.
    apply (proj1 (List.filter_In _ _ _)) in Hj as [Hj Hrep].
    exists (Pool.j_cidr j). split.
    + rewrite <- Hcidr. apply list_elem_of_fmap. exists j. split; [done|].
      by apply list_elem_of_In.
    + unfold Pool.reported in Hrep. apply andb_true_iff in Hrep as [_ Hrep].
      by destruct (ParseCIDR (Pool.j_cidr j)).
  - rewrite Herr, length_fmap, <- Hcidr, length_fmap.
    apply List.filter_length_le.
Qed.

End PoolFacts.

(** ** Progress of the pool *)

Section Progress.
Context `{Externals}.
Variable cfg : Config.

(** Every request gets an answer or an error; the client of [main] has a
    timeout of five seconds. *)
Hypothesis Hnet : ∀ url, ∃ r, clientGet url r.

(** A worker that is neither waiting on [ipChan] nor returned has a step. *)
Lemma busy_worker_step (j : Pool.Job) (w : nat) (wk : Pool.Worker) :
  Pool.j_workers j !! w = Some wk → wk ≠ Pool.WRecv → Pool.exited wk = false →
  ∃ e j', Pool.processCIDR_step cfg j e j'.
Proof.
  intros Hw Hrecv Hex. destruct wk as [|ip|[|h rest]|]; try done.
  - destruct (Hnet (shodanURL (IP_String ip))) as [r Hr].
    eexists _, _. eapply Pool.js_return; [exact Hw|]. by apply Pool.ws_return.
  - eexists _, _. eapply Pool.js_next; [exact Hw|]. apply Pool.ws_next.
  - destruct (forwarded (c_filter cfg) (c_match cfg) h) eqn:Hf.
    + eexists _, _. eapply Pool.js_send; [exact Hw|]. by apply Pool.ws_send.
    + eexists _, _. eapply Pool.js_skip; [exact Hw|]. by apply Pool.ws_skip.
Qed.

(** With at least one worker a job that has not returned can take a step. *)
Lemma job_can_step (j : Pool.Job) :
  1 <= c_concurrency cfg → Pool.job_ok cfg j → Pool.finished j = false →
  ∃ e j', Pool.processCIDR_step cfg j e j'.
Proof.
  intros Hc (_ & _ & Hp) Hfin. unfold Pool.finished in Hfin.
  destruct (Pool.j_prod j) as [|n ip| |] eqn:Hprod; [| | |done].
  - destruct (ParseCIDR (Pool.j_cidr j)) as [n|] eqn:Hn.
    + eexists _, _. by eapply Pool.js_parse_ok.
    + eexists _, _. by eapply Pool.js_parse_err.
  - destruct Hp as (_ & _ & Hlen & _ & Hrun).
    destruct (net.Contains n ip) eqn:Hcont.
    + destruct (Pool.j_workers j !! 0%nat) as [wk|] eqn:Hw.
      2:{ apply lookup_ge_None in Hw. lia. }
      pose proof (filter_length_all _ _ _ _ Hrun Hw) as Hex.
      apply negb_true_iff in Hex.
      assert (wk = Pool.WRecv ∨ wk ≠ Pool.WRecv) as [->|Hne]
        by (destruct wk; (by left) || (by right)).
      * eexists _, _. eapply Pool.js_enqueue; [done | done | exact Hw|].
        apply Pool.ws_recv.
      * by eapply busy_worker_step.
    + eexists _, _. by eapply Pool.js_close.
  - destruct Hp as (_ & Hlen & Hwg).
    destruct (Pool.j_localWg j) as [|k] eqn:Hl.
    + eexists _, _. by eapply Pool.js_done.
    + destruct (filter_length_pos_inv (λ wk, negb (Pool.exited wk)) (Pool.j_workers j))
        as (w & wk & Hw & Hex).
      { unfold Pool.running in Hwg. lia. }
      apply negb_true_iff in Hex.
      assert (wk = Pool.WRecv ∨ wk ≠ Pool.WRecv) as [->|Hne]
        by (destruct wk; (by left) || (by right)).
      * eexists _, _. eapply Pool.js_exit; [done | exact Hw|]. apply Pool.ws_closed.
      * by eapply busy_worker_step.
Qed.

(** With at least one worker and room in [ch], a state in which [main]
    has not left the printing loop has a step. *)
Lemma some_step (cidrList : list string) (s : Pool.Sys) :
  1 <= c_concurrency cfg → 1 <= c_cap cfg →
  Pool.reachable cfg cidrList s → Pool.s_mainDone s = false →
  ∃ s', Pool.main_step cfg s s'.
Proof.
  intros Hc Hcap Hreach Hdone.
  destruct (reachable_ok cfg _ _ Hreach) as (Hjobs & _ & Hwg & _).
  destruct (Pool.s_ch s) as [|result rest] eqn:Hch.
  2:{ eexists. by eapply Pool.step_recv. }
  destruct (Pool.s_chClosed s) eqn:Hcl.
  { eexists. by eapply Pool.step_exit. }
  destruct (Pool.s_wg s) as [|k] eqn:Hk.
  { eexists. by eapply Pool.step_close. }
  destruct (filter_length_pos_inv (λ j, negb (Pool.finished j)) (Pool.s_jobs s))
    as (i & j & Hi & Hfin); [lia|].
  apply negb_true_iff in Hfin.
  pose proof (proj1 (Forall_lookup _ _) Hjobs i j Hi) as Hj.
  destruct (job_can_step j Hc Hj Hfin) as (e & j' & Hstep).
  destruct (Pool.applyEffect cfg e (Pool.setJobs s (<[i := j']> (Pool.s_jobs s))))
    as [s'|] eqn:He.
  - exists s'. by eapply Pool.step_job.
  - destruct e; cbn in He; try done. rewrite Hch in He.
    change (Z.of_nat (length [])) with 0 in He.
    destruct (Z.ltb_spec 0 (c_cap cfg)); [done | lia].
Qed.

(** Once [main] has left the printing loop nothing moves any more. *)
Lemma ended_no_step (cidrList : list string) (s s' : Pool.Sys) :
  Pool.reachable cfg cidrList s → Pool.s_mainDone s = true →
  ¬ Pool.main_step cfg s s'.
Proof.
  intros Hreach Hdone Hstep.
  destruct (reachable_ok cfg _ _ Hreach) as (Hjobs & _ & Hwg & Hclosed & Hd & _).
  destruct (Hd Hdone) as [Hcl Hch]. specialize (Hclosed Hcl).
  destruct Hstep as [s i j e j' s' Hi Hj He|s Hwg' Hcl'|s result rest Hch' Hdone'|s Hch' Hcl' Hdone'];
    try congruence.
  pose proof (proj1 (Forall_lookup _ _) Hjobs i j Hi) as Hjok.
  destruct (job_step_finished cfg _ _ _ Hj Hjok) as [Hf _].
  rewrite Hclosed in Hwg. symmetry in Hwg.
  apply (filter_length_zero _ _ i j) in Hwg; [|done].
  apply negb_false_iff in Hwg. congruence.
Qed.

(** X18: with at least one worker, and so with room for at least one
    hostname in [ch], the program never gets stuck: as long as every
    request returns, the states it can reach in which no goroutine can
    take a step are exactly those in which [main] has left the printing
    loop. *)
Theorem deadlock_free (cidrList : list string) (s : Pool.Sys) :
  1 <= c_concurrency cfg → 1 <= c_cap cfg →
  Pool.reachable cfg cidrList s →
  Pool.s_mainDone s = false ↔ ∃ s', Pool.main_step cfg s s'.
Proof.
  intros Hc Hcap Hreach. split.
  - by apply (some_step cidrList).
  - intros [s' Hstep]. destruct (Pool.s_mainDone s) eqn:Hdone; [|done].
    by destruct (ended_no_step cidrList s s' Hreach Hdone).
Qed.

End Progress.

Section NoWorker.
Context `{Externals}.
Variable cfg : Config.

(** X19: with a worker count of zero (or less) no address is ever handed
    out: nothing is requested, sent or printed.  A job whose network
    contains its first address then never returns, because the loop of
    [processCIDR] waits for a worker to take that address; so if the
    list has such a descriptor [ch] is never closed and [main] never
    leaves the printing loop. *)
Theorem no_worker_no_end (cidrList : list string) (s : Pool.Sys) :
  c_concurrency cfg <= 0 → Pool.reachable cfg cidrList s →
  Pool.s_arrived s = [] ∧ Pool.s_ch s = [] ∧ stdout (Pool.s_printer s) = []
  ∧ (∀ i j, Pool.s_jobs s !! i = Some j →
            Pool.j_workers j = [] ∧ Pool.j_enq j = [] ∧ Pool.j_urls j = []
            ∧ Pool.j_sent j = [])
  ∧ ((∃ cidr n, cidr ∈ cidrList ∧ ParseCIDR cidr = Some n
                ∧ net.Contains n (loopStart n) = true) →
     Pool.s_chClosed s = false ∧ Pool.s_mainDone s = false).
Proof.
  intros Hc Hreach.
  destruct (reachable_flow cfg _ _ Hreach) as (Hfl & Hperm & _).
  destruct (reachable_ok cfg _ _ Hreach) as (Hjobs & Hcidr & Hwg & Hclosed & Hdone & Hpr).
  assert (Hidle : ∀ i j, Pool.s_jobs s !! i = Some j →
                         Pool.j_workers j = [] ∧ Pool.j_enq j = []
                         ∧ Pool.j_urls j = [] ∧ Pool.j_sent j = []).
  { intros i j Hi.
    pose proof (proj1 (Forall_lookup _ _) Hjobs i j Hi) as Hj.
    destruct (proj1 (Forall_lookup _ _) Hfl i j Hi) as (Hnil & _).
    assert (Hw : Pool.j_workers j = []).
    { destruct (job_ok_workers cfg j Hj) as [?|Hlen]; [done|].
      apply length_zero_iff_nil. lia. }
    destruct (Hnil Hw) as [Henq Hsent]. destruct Hj as (_ & Hurls & _).
    rewrite Henq in Hurls. done. }
  assert (Hempty : Pool.s_arrived s ++ Pool.s_ch s = []).
  { destruct (Pool.s_arrived s ++ Pool.s_ch s) as [|h t] eqn:Hl; [done|].
    assert (Hin : h ∈ mjoin (Pool.j_sent <$> Pool.s_jobs s))
      by (rewrite <- Hperm; apply list_elem_of_here).
    apply elem_of_sent in Hin as (i & j & Hi & Hh).
    destruct (Hidle i j Hi) as (_ & _ & _ & Hs). rewrite Hs in Hh.
    by apply elem_of_nil in Hh. }
  apply app_eq_nil in Hempty as [Harr Hch].
  split; [done|]. split; [done|]. split; [by rewrite Hpr, Harr|].
  split; [done|].
  intros (cidr & n & Hin & Hn & Hcont).
  rewrite <- Hcidr in Hin. apply list_elem_of_fmap in Hin as (j & -> & Hj).
  apply list_elem_of_lookup in Hj as [i Hi].
  pose proof (proj1 (Forall_lookup _ _) Hjobs i j Hi) as (_ & _ & Hp).
  destruct (Hidle i j Hi) as (_ & Henq & _).
  assert (Hfin : Pool.finished j = false).
  { unfold Pool.finished. destruct (Pool.j_prod j); try done.
    destruct Hp as [[Hnone _]|[(n' & Hn' & Hexp) _]]; [congruence|].
    rewrite Hn in Hn'. injection Hn' as <-.
    rewrite Henq in Hexp. unfold expand in Hexp. cbn in Hexp.
    by rewrite Hcont in Hexp. }
  assert (Hpos : (0 < Pool.s_wg s)%nat).
  { rewrite Hwg. apply (filter_length_pos _ _ i j Hi). by rewrite Hfin. }
  assert (Hcl : Pool.s_chClosed s = false).
  { destruct (Pool.s_chClosed s); [|done]. specialize (Hclosed eq_refl). lia. }
  split; [done|].
  destruct (Pool.s_mainDone s); [|done].
  destruct (Hdone eq_refl) as [? _]. congruence.
Qed.

End NoWorker.

(** ** The addresses a job hands out *)

Lemma enqueue_take (fuel : nat) (n : net.IPNet) (ip : IP) (l : list IP) :
  enqueue fuel n ip = Some l → ∀ k, enqueued k n ip = take k l.
Proof.
  revert ip l. induction fuel as [|fuel IH]; intros ip l; cbn; [done|].
  destruct (net.Contains n ip) eqn:Hc.
  - destruct (enqueue fuel n (incrementIP ip)) as [l'|] eqn:He; cbn; [|done].
    intros [= <-] [|k]; cbn; [done|]. rewrite Hc. f_equal. by apply IH.
  - intros [= <-] [|k]; cbn; [done|]. by rewrite Hc.
Qed.

Lemma enqueue_total (fuel : nat) (n : net.IPNet) (ip : IP) (l l' : list IP) :
  enqueue fuel n ip = Some l → enqueued (length l') n ip = l' →
  (length l < fuel)%nat ∧ l' `prefix_of` l.
Proof.
  intros He Hl'. split.
  - clear Hl'. revert ip l He. induction fuel as [|fuel IH]; intros ip l; cbn; [done|].
    destruct (net.Contains n ip); [|intros [= <-]; cbn; lia].
    destruct (enqueue fuel n (incrementIP ip)) as [l0|] eqn:He; cbn; [|done].
    intros [= <-]. cbn. specialize (IH _ _ He). lia.
  - rewrite (enqueue_take _ _ _ _ He) in Hl'. rewrite <- Hl'. apply prefix_take.
Qed.

Lemma range_values (addr : IP) (p : Z) (n : net.IPNet) :
  wfIP addr → length addr = 4%nat → 1 <= p <= 32 →
  net.ParseCIDR_v4 addr p = Some n →
  ∃ l, expand (S (Z.to_nat (2 ^ (32 - p)))) n = Some l
       ∧ ipVal <$> l
         = seqZ (ipVal addr / 2 ^ (32 - p) * 2 ^ (32 - p)) (2 ^ (32 - p)).
Proof.
  intros Hwf Hlen Hp Hparse.
  assert (Hp' : 0 <= p <= 32) by lia.
  assert (Hs : 0 < 2 ^ (32 - p)) by (apply Z.pow_pos_nonneg; lia).
  pose proof (range_base_bounds addr p Hwf Hlen Hp') as [Hb0 Hb1].
  destruct (loopStart_spec addr p n Hwf Hlen Hp' Hparse) as (Hswf & Hsl & Hsv).
  destruct (enqueue_run addr p n Hwf Hlen Hp' Hparse (Z.to_nat (2 ^ (32 - p)))
              (loopStart n))
    as (l & Hrun & _ & _ & Hvals); [lia | done | done | lia | |].
  { rewrite Hsv, Z2Nat.id by lia. rewrite Z.mod_small by lia. lia. }
  exists l. split; [exact Hrun|].
  rewrite Hvals, Z2Nat.id by lia. f_equal. lia.
Qed.

Section Addresses.
Context `{Externals}.
Variable cfg : Config.

(** X20: a job on a descriptor whose network is [addr/p] with
    [1 <= p <= 32] hands out, at any moment, the first addresses of the
    range in increasing order, starting at the network address and one
    apart: never an address twice and never more than the [2^(32-p)]
    addresses of the range; there is one request for each address handed
    out; and when the job has returned it has handed out the whole
    range. *)
Theorem job_addresses_once (cidrList : list string) (s : Pool.Sys) (i : nat)
    (j : Pool.Job) (addr : IP) (p : Z) (n : net.IPNet) :
  wfIP addr → length addr = 4%nat → 1 <= p <= 32 →
  net.ParseCIDR_v4 addr p = Some n →
  Pool.reachable cfg cidrList s → Pool.s_jobs s !! i = Some j →
  ParseCIDR (Pool.j_cidr j) = Some n →
  ipVal <$> Pool.j_enq j
  = seqZ (ipVal addr / 2 ^ (32 - p) * 2 ^ (32 - p)) (Z.of_nat (length (Pool.j_enq j)))
  ∧ Z.of_nat (length (Pool.j_enq j)) <= 2 ^ (32 - p)
  ∧ NoDup (Pool.j_enq j)
  ∧ Pool.j_urls j = (λ ip, shodanURL (IP_String ip)) <$> Pool.j_enq j
  ∧ (Pool.j_prod j = Pool.PDone →
     Z.of_nat (length (Pool.j_enq j)) = 2 ^ (32 - p)
     ∧ Pool.j_inflight j = 0%nat).
Proof.
  intros Hwf Hlen Hp Hparse Hreach Hi Hn.
  destruct (reachable_ok cfg _ _ Hreach) as (Hjobs & _).
  pose proof (proj1 (Forall_lookup _ _) Hjobs i j Hi) as Hj.
  assert (Hs : 0 < 2 ^ (32 - p)) by (apply Z.pow_pos_nonneg; lia).
  destruct (range_values addr p n Hwf Hlen Hp Hparse) as (l & Hexp & Hvals).
  pose proof (job_ok_enqueued cfg j n Hj Hn) as Henq.
  destruct (enqueue_total _ _ _ _ _ Hexp Henq) as [_ [rest Hl]].
  assert (Hlength : length l = Z.to_nat (2 ^ (32 - p)))
    by (by rewrite <- (length_fmap ipVal), Hvals, length_seqZ).
  assert (Hle : Z.of_nat (length (Pool.j_enq j)) <= 2 ^ (32 - p)).
  { apply (f_equal length) in Hl. rewrite length_app in Hl. lia. }
  assert (Hpre : ipVal <$> Pool.j_enq j
                 = seqZ (ipVal addr / 2 ^ (32 - p) * 2 ^ (32 - p))
                        (Z.of_nat (length (Pool.j_enq j)))).
  { apply (f_equal (take (length (Pool.j_enq j)))) in Hvals.
    rewrite <- fmap_take, Hl, take_app_length in Hvals. rewrite Hvals.
    replace (2 ^ (32 - p))
      with (Z.of_nat (length (Pool.j_enq j))
            + (2 ^ (32 - p) - Z.of_nat (length (Pool.j_enq j)))) at 3 by lia.
    rewrite seqZ_app by lia.
    apply take_app_length'. rewrite length_seqZ. lia. }
  split; [done|]. split; [done|]. split; [|split].
  - apply (NoDup_fmap_1 ipVal). rewrite Hpre. apply NoDup_seqZ.
  - by destruct Hj as (_ & ? & _).
  - intros Hprod. destruct Hj as (Hinf & _ & Hprod'). rewrite Hprod in Hprod'.
    destruct Hprod' as [[Hnone _]|((n' & Hn' & Hexp') & _ & _ & Hrun)]; [congruence|].
    rewrite Hn in Hn'. injection Hn' as <-.
    split.
    + pose proof (enqueue_enqueued _ _ _ _ Hexp) as Hfull.
      destruct (enqueue_total _ _ _ _ _ Hexp' Hfull) as [_ [rest' Hl']].
      apply (f_equal length) in Hl, Hl'. rewrite length_app in Hl, Hl'. lia.
    + rewrite Hinf. unfold Pool.lookupsInFlight.
      destruct (length (List.filter Pool.inLookup (Pool.j_workers j))) eqn:Hcount; [done|].
      destruct (filter_length_pos_inv Pool.inLookup (Pool.j_workers j))
        as (w & wk & Hw & Hin); [lia|].
      apply (filter_length_zero _ _ w wk) in Hrun; [|done].
      apply negb_false_iff in Hrun. by destruct wk.
Qed.

End Addresses.

(** ** The further properties on the example environment *)

(** The run of [10.0.0.0/31] with one worker to the end of [main]: all
    that was sent has arrived. *)
Lemma results_conserved_witness :
  ∃ s,
    @Pool.reachable Example.mock (@mkConfig Example.mock 1 None None false 10)
      ["10.0.0.0/31"%string] s
    ∧ Pool.s_mainDone s = true
    ∧ Pool.s_arrived s ≡ₚ mjoin (Pool.j_sent <$> Pool.s_jobs s).
Proof.
  set (cfg := @mkConfig Example.mock 1 None None false 10).
  set (lookup := λ ip : IP, Example.mockGet (shodanURL (Example.dottedQuad ip))).
  destruct (@run_complete_state Example.mock cfg lookup eq_refl eq_refl
              (λ ip, eq_refl) "10.0.0.0/31"%string
              (net.mkIPNet [10; 0; 0; 0] [255; 255; 255; 254]) 3%nat
              [[10; 0; 0; 0]; [10; 0; 0; 1]] eq_refl eq_refl)
    as (urls & E & Hrun).
  eexists. split; [exact Hrun|]. split; [reflexivity|].
  exact (proj1 (proj2 (proj2 (proj2 (@results_conserved Example.mock cfg _ _ Hrun)))
                 eq_refl)).
Defined.

(** The hostname printed by that run comes from a lookup of an address
    of [10.0.0.0/31]. *)
Lemma printed_hostname_provenance_witness :
  ∃ cidr n ip r,
    cidr ∈ ["10.0.0.0/31"%string]
    ∧ @ParseCIDR Example.mock cidr = Some n ∧ net.Contains n ip = true
    ∧ @clientGet Example.mock (shodanURL (@IP_String Example.mock ip)) r
    ∧ "a.example.com"%string
      ∈ fst (@fetchHostnamesFromShodan Example.mock false (@IP_String Example.mock ip) r)
    ∧ @excluded Example.mock None "a.example.com" = false
    ∧ @notIncluded Example.mock None "a.example.com" = false.
Proof.
  set (cfg := @mkConfig Example.mock 1 None None false 10).
  set (lookup := λ ip : IP, Example.mockGet (shodanURL (Example.dottedQuad ip))).
  destruct (@run_complete_state Example.mock cfg lookup eq_refl eq_refl
              (λ ip, eq_refl) "10.0.0.0/31"%string
              (net.mkIPNet [10; 0; 0; 0] [255; 255; 255; 254]) 3%nat
              [[10; 0; 0; 0]; [10; 0; 0; 1]] eq_refl eq_refl)
    as (urls & E & Hrun).
  refine (@printed_hostname_provenance Example.mock cfg _ _ "a.example.com"%string
            Hrun _).
  vm_compute. apply list_elem_of_here.
Defined.


(** The list [not-a-range] after the job has returned: one line on the
    diagnostic stream, the report of that descriptor. *)
Lemma quiet_stderr_witness :
  let cfg := @mkConfig Example.mock 5 None None false 50 in
  ∃ s, Pool.reachable cfg ["not-a-range"%string] s
       ∧ Pool.s_stderr s
         = ["Error parsing CIDR not-a-range: invalid CIDR address: not-a-range"%string]
       ∧ ∀ line, line ∈ Pool.s_stderr s →
                 ∃ cidr, cidr ∈ ["not-a-range"%string]
                         ∧ @ParseCIDR Example.mock cidr = None
                         ∧ line = Pool.parseErrorLine cidr.
Proof.
  intros cfg.
  assert (Hreach : Pool.reachable cfg ["not-a-range"%string]
                     (Pool.mkSys [Pool.skippedJob "not-a-range"] 0 [] false false
                        emptyPrinter []
                        [Pool.parseErrorLine "not-a-range"])).
  { apply rtc_once.
    apply (Pool.step_job cfg (Pool.init ["not-a-range"%string]) 0
             (Pool.newJob "not-a-range")
             (Pool.EDone [Pool.parseErrorLine "not-a-range"])
             (Pool.skippedJob "not-a-range")).
    - reflexivity.
    - apply (Pool.js_parse_err cfg (Pool.newJob "not-a-range")); reflexivity.
    - reflexivity. }
  eexists. split; [exact Hreach|]. split; [reflexivity|].
  exact (proj1 (proj2 (@quiet_stderr Example.mock cfg _ _ eq_refl Hreach))).
Defined.

(** At the start of the program on [10.0.0.0/30] a goroutine can move. *)
Lemma deadlock_free_witness :
  let cfg := @mkConfig Example.mock 1 None None false 10 in
  ∃ s', Pool.main_step cfg (Pool.init ["10.0.0.0/30"%string]) s'.
Proof.
  intros cfg.
  apply (proj1 (@deadlock_free Example.mock cfg (λ url, ex_intro _ _ eq_refl)
                  ["10.0.0.0/30"%string] (Pool.init ["10.0.0.0/30"%string])
                  ltac:(by vm_compute) ltac:(by vm_compute) (rtc_refl _ _))).
  reflexivity.
Defined.

(** [10.0.0.0/30] without a worker, after [ParseCIDR]: the job is in its
    loop and stays there. *)
Lemma no_worker_no_end_witness :
  let cfg := @mkConfig Example.mock 0 None None false 0 in
  let n := net.mkIPNet [10; 0; 0; 0] [255; 255; 255; 252] in
  let s := Pool.mkSys [Pool.mkJob "10.0.0.0/30" (Pool.PLoop n [10; 0; 0; 0])
                         [] 0 0 [] [] []]
             1 [] false false emptyPrinter [] [] in
  Pool.reachable cfg ["10.0.0.0/30"%string] s
  ∧ Pool.s_chClosed s = false ∧ Pool.s_mainDone s = false.
Proof.
  intros cfg n s.
  assert (Hreach : Pool.reachable cfg ["10.0.0.0/30"%string] s).
  { apply rtc_once.
    apply (Pool.step_job cfg (Pool.init ["10.0.0.0/30"%string]) 0
             (Pool.newJob "10.0.0.0/30") Pool.ENone
             (Pool.mkJob "10.0.0.0/30" (Pool.PLoop n [10; 0; 0; 0]) [] 0 0 [] [] [])).
    - reflexivity.
    - apply (Pool.js_parse_ok cfg (Pool.newJob "10.0.0.0/30") n); reflexivity.
    - reflexivity. }
  split; [exact Hreach|].
  apply (proj2 (proj2 (proj2 (proj2
           (@no_worker_no_end Example.mock cfg ["10.0.0.0/30"%string] s
              ltac:(by vm_compute) Hreach))))).
  exists "10.0.0.0/30"%string, n.
  split; [apply list_elem_of_here|]. split; reflexivity.
Defined.

(** The job of [10.0.0.0/31] at the end of the run with one worker has
    handed out the two addresses of the range, each once. *)
Lemma job_addresses_once_witness :
  ∃ s j,
    @Pool.reachable Example.mock (@mkConfig Example.mock 1 None None false 10)
      ["10.0.0.0/31"%string] s
    ∧ Pool.s_jobs s !! 0%nat = Some j
    ∧ ipVal <$> Pool.j_enq j = seqZ 167772160 2
    ∧ NoDup (Pool.j_enq j).
Proof.
  set (cfg := @mkConfig Example.mock 1 None None false 10).
  set (lookup := λ ip : IP, Example.mockGet (shodanURL (Example.dottedQuad ip))).
  destruct (@run_complete_state Example.mock cfg lookup eq_refl eq_refl
              (λ ip, eq_refl) "10.0.0.0/31"%string
              (net.mkIPNet [10; 0; 0; 0] [255; 255; 255; 254]) 3%nat
              [[10; 0; 0; 0]; [10; 0; 0; 1]] eq_refl eq_refl)
    as (urls & E & Hrun).
  eexists _, _. split; [exact Hrun|]. split; [reflexivity|].
  destruct (@job_addresses_once Example.mock cfg _ _ 0%nat _ [10; 0; 0; 0] 31
              (net.mkIPNet [10; 0; 0; 0] [255; 255; 255; 254])
              ltac:(by apply (bool_decide_unpack (wfIP _)); vm_compute) eq_refl ltac:(lia) eq_refl Hrun eq_refl eq_refl)
    as (Hvals & _ & Hnodup & _).
  split; [exact Hvals | exact Hnodup].
Defined.

(** The range of [10.0.0.7/30]. *)
Lemma expand_prefix_positive_witness :
  ∃ m n l,
    net.CIDRMask 30 32 = Some m ∧ net.ParseCIDR_v4 [10; 0; 0; 7] 30 = Some n
    ∧ expand 5 n = Some l
    ∧ ipVal <$> l = seqZ (ipVal (zip_with Z.land [10; 0; 0; 7] m)) 4
    ∧ length l = 4%nat.
Proof.
  destruct (expand_prefix_positive [10; 0; 0; 7] 30
              ltac:(by apply (bool_decide_unpack (wfIP _)); vm_compute) eq_refl ltac:(lia))
    as (m & n & l & Hm & Hn & Hexp & _ & _ & Hvals & Hlen & _).
  exists m, n, l. split; [exact Hm|]. split; [exact Hn|].
  split; [exact Hexp|]. split; [exact Hvals | exact Hlen].
Defined.

(** ** The end of the program *)

Lemma sum_list_append (l k : list nat) :
  sum_list (l ++ k) = (sum_list l + sum_list k)%nat.
Proof. induction l as [|x l IH]; cbn; [done|]. rewrite IH. lia. Qed.

Lemma sum_list_insert {A} (f : A → nat) (l : list A) (i : nat) (a b : A) :
  l !! i = Some a →
  (sum_list (f <$> <[i := b]> l) + f a = sum_list (f <$> l) + f b)%nat.
Proof.
  intros Hl.
  rewrite <- (take_drop_middle l i a Hl) at 2.
  rewrite insert_take_drop by (by eapply lookup_lt_Some).
  rewrite !fmap_app, !sum_list_append. cbn. lia.
Qed.

Section Termination.
Context `{Externals}.
Variable cfg : Config.
Variable fuel : nat.

(** A step of a job brings [jobPending] down, or leaves it and brings
    down [jobWork], by two when it sends a hostname on [ch]. *)
Lemma job_step_decreases (j : Pool.Job) (e : Pool.Effect) (j' : Pool.Job) :
  (∀ n, ParseCIDR (Pool.j_cidr j) = Some n → is_Some (expand fuel n)) →
  Pool.processCIDR_step cfg j e j' → Pool.job_ok cfg j →
  (Pool.jobPending fuel j' < Pool.jobPending fuel j)%nat
  ∨ (Pool.jobPending fuel j' = Pool.jobPending fuel j
     ∧ (Pool.jobWork j' + match e with Pool.ESend _ => 2 | _ => 1 end
        <= Pool.jobWork j)%nat).
Proof.
  intros Hfin Hstep Hok.
  destruct Hstep as [j Hp Hn|j n Hp Hn|j n ip w wk wk' Hp Hc Hw Hwk|j n ip Hp Hc
                    |j w ip r wk' Hw Hwk|j w wk wk' Hw Hwk|j w wk h wk' Hw Hwk
                    |j w wk wk' Hw Hwk|j w wk wk' Hp Hw Hwk|j Hp Hz];
    unfold Pool.jobPending, Pool.jobWork; cbn.
  - left. rewrite Hp. lia.
  - left. rewrite Hp. lia.
  - left. rewrite Hp. destruct Hok as (_ & _ & Hprod). rewrite Hp in Hprod.
    destruct Hprod as (Hn & Htr & _). destruct (Hfin n Hn) as [l Hl].
    pose proof (loopTrace_enqueued n _ _ Htr 1) as Hq. cbn in Hq. rewrite Hc in Hq.
    destruct (enqueue_total fuel n (loopStart n) l (Pool.j_enq j ++ [ip]) Hl) as [Hlt [rest Hpre]].
    { by rewrite length_app. }
    apply (f_equal length) in Hpre. rewrite !length_app in Hpre. cbn in Hpre.
    rewrite length_app. cbn. lia.
  - right. rewrite Hp. split; [done|]. lia.
  - left. destruct Hok as (Hinf & _).
    pose proof (filter_length_pos Pool.inLookup _ _ _ Hw eq_refl) as Hpos.
    unfold Pool.lookupsInFlight in Hinf. lia.
  - right. split; [done|]. inversion Hwk; subst.
    pose proof (sum_list_insert Pool.workerWork _ _ _ (Pool.WLoop rest) Hw) as Hs.
    cbn in Hs. lia.
  - right. split; [done|]. inversion Hwk; subst.
    pose proof (sum_list_insert Pool.workerWork _ _ _ (Pool.WLoop rest) Hw) as Hs.
    cbn in Hs. lia.
  - right. split; [done|]. inversion Hwk; subst.
    pose proof (sum_list_insert Pool.workerWork _ _ _ Pool.WRecv Hw) as Hs.
    cbn in Hs. lia.
  - right. split; [done|]. inversion Hwk; subst.
    pose proof (sum_list_insert Pool.workerWork _ _ _ Pool.WExit Hw) as Hs.
    cbn in Hs. lia.
  - right. rewrite Hp. split; [done|]. lia.
Qed.

Variable cidrList : list string.

(** No network of the list has a range of [fuel] addresses or more. *)
Hypothesis Hfinite :
  ∀ cidr n, cidr ∈ cidrList → ParseCIDR cidr = Some n → is_Some (expand fuel n).

Lemma step_decreases (s s' : Pool.Sys) :
  Pool.sys_ok cfg cidrList s → Pool.main_step cfg s s' →
  (Pool.pending fuel s' < Pool.pending fuel s)%nat
  ∨ (Pool.pending fuel s' = Pool.pending fuel s
     ∧ (Pool.work s' < Pool.work s)%nat).
Proof.
  intros Hok Hstep.
  destruct Hstep as [s i j e j' s' Hi Hj He|s Hwg Hcl|s result rest Hch Hdone|s Hch Hcl Hdone].
  - pose proof (job_cidr_listed cfg _ _ _ _ Hok Hi) as Hlisted.
    destruct Hok as (Hjobs & _).
    pose proof (proj1 (Forall_lookup _ _) Hjobs i j Hi) as Hjok.
    assert (Hfin : ∀ n, ParseCIDR (Pool.j_cidr j) = Some n → is_Some (expand fuel n)).
    { intros n. apply Hfinite. by eapply list_elem_of_lookup_2. }
    apply applyEffect_inv in He.
    destruct He as (Hj' & Hcl' & Hd' & _ & _ & _ & Hch' & _).
    cbn in Hj', Hcl', Hd', Hch'.
    unfold Pool.pending, Pool.work. rewrite Hj', Hcl', Hd', Hch'.
    pose proof (sum_list_insert (Pool.jobPending fuel) _ _ _ j' Hi) as Hp.
    pose proof (sum_list_insert Pool.jobWork _ _ _ j' Hi) as Hw.
    destruct (job_step_decreases j e j' Hfin Hj Hjok) as [Hlt|[Heq Hlt]].
    + left. lia.
    + right. split; [lia|].
      destruct e; try lia. rewrite length_app. cbn. lia.
  - right. unfold Pool.pending, Pool.work. cbn. rewrite Hcl. split; [done|]. lia.
  - right. unfold Pool.pending, Pool.work. cbn. rewrite Hch. split; [done|]. cbn. lia.
  - right. unfold Pool.pending, Pool.work. cbn. rewrite Hdone. split; [done|]. lia.
Qed.

Lemma reachable_acc (s : Pool.Sys) :
  Pool.reachable cfg cidrList s → Acc (flip (Pool.main_step cfg)) s.
Proof.
  intros Hreach. pose proof (reachable_ok cfg _ _ Hreach) as Hok. clear Hreach.
  remember (Pool.pending fuel s) as a eqn:Ha.
  revert s Ha Hok. induction (lt_wf a) as [a _ IHa]. intros s Ha Hok.
  remember (Pool.work s) as b eqn:Hb.
  revert s Ha Hb Hok. induction (lt_wf b) as [b _ IHb]. intros s Ha Hb Hok.
  constructor. intros s' Hstep. unfold flip in Hstep.
  pose proof (step_ok cfg _ _ _ Hok Hstep) as Hok'.
  destruct (step_decreases s s' Hok Hstep) as [Hlt|[Heq Hlt]].
  - apply (IHa (Pool.pending fuel s')); [lia | done | done].
  - apply (IHb (Pool.work s')); [lia | lia | done | done].
Qed.

End Termination.

Section Ending.
Context `{Externals}.
Variable cfg : Config.

Lemma acc_no_infinite_run (s : Pool.Sys) :
  Acc (flip (Pool.main_step cfg)) s →
  ∀ run : nat → Pool.Sys,
    run 0%nat = s → ¬ ∀ k, Pool.main_step cfg (run k) (run (S k)).
Proof.
  induction 1 as [s _ IH]. intros run H0 Hrun.
  apply (IH (run 1%nat)) with (run := λ k, run (S k)).
  - unfold flip. rewrite <- H0. apply Hrun.
  - done.
  - intros k. apply Hrun.
Qed.

(** X22: if no network of the list has a range of [fuel] addresses or
    more (for a prefix length of one or more the range has [2^(32-p)]
    addresses), the program has no infinite run, however its goroutines
    are scheduled and whatever the network answers: from every state it
    can reach, every sequence of steps comes to an end. *)
Theorem no_infinite_run (fuel : nat) (cidrList : list string) (s : Pool.Sys)
    (run : nat → Pool.Sys) :
  (∀ cidr n, cidr ∈ cidrList → ParseCIDR cidr = Some n → is_Some (expand fuel n)) →
  Pool.reachable cfg cidrList s → run 0%nat = s →
  ¬ ∀ k, Pool.main_step cfg (run k) (run (S k)).
Proof.
  intros Hfinite Hreach. apply acc_no_infinite_run.
  by apply (reachable_acc cfg fuel cidrList Hfinite).
Qed.

(** X23: with at least one worker, room in [ch], a network that answers
    every request and ranges of less than [fuel] addresses, the program
    ends by itself: from every state it can reach, a state in which no
    goroutine can take a step is one where [main] has left the printing
    loop, and such a state can be reached. *)
Theorem program_ends (fuel : nat) (cidrList : list string) (s : Pool.Sys) :
  (∀ cidr n, cidr ∈ cidrList → ParseCIDR cidr = Some n → is_Some (expand fuel n)) →
  1 <= c_concurrency cfg → 1 <= c_cap cfg → (∀ url, ∃ r, clientGet url r) →
  Pool.reachable cfg cidrList s →
  (∀ s', rtc (Pool.main_step cfg) s s' → (∀ s'', ¬ Pool.main_step cfg s' s'') →
         Pool.s_mainDone s' = true)
  ∧ ∃ s', rtc (Pool.main_step cfg) s s' ∧ Pool.s_mainDone s' = true
          ∧ ∀ s'', ¬ Pool.main_step cfg s' s''.
Proof.
  intros Hfinite Hc Hcap Hnet Hreach. split.
  - intros s' Hrun Hstuck.
    assert (Hreach' : Pool.reachable cfg cidrList s') by (by eapply rtc_trans).
    destruct (Pool.s_mainDone s') eqn:Hdone; [done|].
    destruct (some_step cfg Hnet cidrList s' Hc Hcap Hreach' Hdone) as [s'' Hstep].
    by destruct (Hstuck s'').
  - pose proof (reachable_acc cfg fuel cidrList Hfinite s Hreach) as Hacc.
    induction Hacc as [s _ IH].
    destruct (Pool.s_mainDone s) eqn:Hdone.
    + exists s. split; [apply rtc_refl|]. split; [done|].
      intros s''. by apply (ended_no_step cfg cidrList).
    + destruct (some_step cfg Hnet cidrList s Hc Hcap Hreach Hdone) as [s1 Hstep].
      destruct (IH s1 Hstep) as (s' & Hrun & Hend).
      { eapply rtc_r; [exact Hreach | exact Hstep]. }
      exists s'. split; [|done]. by eapply rtc_l.
Qed.

End Ending.

Lemma no_infinite_run_witness :
  let cfg := @mkConfig Example.mock 2 None None false 20 in
  ¬ ∀ k : nat, Pool.main_step cfg (Pool.init ["10.0.0.0/31"%string])
                 (Pool.init ["10.0.0.0/31"%string]).
Proof.
  intros cfg.
  apply (@no_infinite_run Example.mock cfg 3%nat ["10.0.0.0/31"%string]
           (Pool.init ["10.0.0.0/31"%string])
           (λ _, Pool.init ["10.0.0.0/31"%string])).
  - intros cidr n Hin Hn. apply list_elem_of_singleton in Hin. subst cidr.
    vm_compute in Hn. injection Hn as <-. eexists. reflexivity.
  - apply rtc_refl.
  - reflexivity.
Defined.

Lemma program_ends_witness :
  let cfg := @mkConfig Example.mock 2 None None false 20 in
  ∃ s', rtc (Pool.main_step cfg) (Pool.init ["10.0.0.0/31"%string]) s'
        ∧ Pool.s_mainDone s' = true
        ∧ ∀ s'', ¬ Pool.main_step cfg s' s''.
Proof.
  intros cfg.
  apply (@program_ends Example.mock cfg 3%nat ["10.0.0.0/31"%string]
           (Pool.init ["10.0.0.0/31"%string])).
  - intros cidr n Hin Hn. apply list_elem_of_singleton in Hin. subst cidr.
    vm_compute in Hn. injection Hn as <-. eexists. reflexivity.
  - by vm_compute.
  - by vm_compute.
  - intros url. by eexists.
  - apply rtc_refl.
Defined.

(** ** What the program has printed at its end *)

Lemma mjoin_insert_perm {A} (ls : list (list A)) (i : nat) (a b : list A) :
  ls !! i = Some a → mjoin (<[i := b]> ls) ++ a ≡ₚ mjoin ls ++ b.
Proof.
  intros Hl.
  rewrite <- (take_drop_middle ls i a Hl) at 2.
  rewrite insert_take_drop by (by eapply lookup_lt_Some).
  rewrite !join_app. cbn. rewrite <- !app_assoc. f_equiv.
  rewrite (Permutation_app_comm b), (Permutation_app_comm a).
  rewrite <- !app_assoc. f_equiv. apply Permutation_app_comm.
Qed.

Lemma enqueue_det (f1 f2 : nat) (n : net.IPNet) (ip : IP) (l1 l2 : list IP) :
  enqueue f1 n ip = Some l1 → enqueue f2 n ip = Some l2 → l1 = l2.
Proof.
  intros H1 H2.
  destruct (enqueue_total _ _ _ _ _ H1 (enqueue_enqueued _ _ _ _ H2)) as [_ [k1 Hk1]].
  destruct (enqueue_total _ _ _ _ _ H2 (enqueue_enqueued _ _ _ _ H1)) as [_ [k2 Hk2]].
  assert (k1 = []) as ->.
  { apply length_zero_iff_nil. apply (f_equal length) in Hk1, Hk2.
    rewrite length_app in Hk1, Hk2. lia. }
  by rewrite app_nil_r in Hk1.
Qed.

Section Complete.
Context `{Externals}.
Variable cfg : Config.
Variable lookup : IP → GetResult.
Hypothesis Hdet : ∀ ip r, clientGet (shodanURL (IP_String ip)) r → r = lookup ip.

Lemma job_step_complete (j : Pool.Job) (e : Pool.Effect) (j' : Pool.Job) :
  Pool.processCIDR_step cfg j e j' → Pool.job_ok cfg j →
  job_complete cfg lookup j → job_complete cfg lookup j'.
Proof.
  intros Hstep Hok Hc. unfold job_complete in *.
  assert (Hins : ∀ w wk wk', Pool.j_workers j !! w = Some wk →
            mjoin (pendingOf cfg lookup <$> <[w := wk']> (Pool.j_workers j))
            ++ pendingOf cfg lookup wk
            ≡ₚ mjoin (pendingOf cfg lookup <$> Pool.j_workers j)
               ++ pendingOf cfg lookup wk').
  { intros w wk wk' Hw. rewrite list_fmap_insert.
    apply mjoin_insert_perm. by rewrite list_lookup_fmap, Hw. }
  assert (Hhosts : ∀ ip, hostsOf cfg lookup ip
                         = forward (c_filter cfg) (c_match cfg)
                             (fetchEnd (c_verbose cfg) (IP_String ip) (lookup ip)).1)
    by done.
  destruct Hstep as [j Hp Hn|j n Hp Hn|j n ip w wk wk' Hp Hcont Hw Hwk|j n ip Hp Hcont
                    |j w ip r wk' Hw Hwk|j w wk wk' Hw Hwk|j w wk h wk' Hw Hwk
                    |j w wk wk' Hw Hwk|j w wk wk' Hp Hw Hwk|j Hp Hz];
    unfold Pool.setProd, Pool.setWorker;
    cbn [Pool.j_sent Pool.j_workers Pool.j_enq].
  - done.
  - destruct Hok as (_ & _ & Hun). rewrite Hp in Hun.
    destruct Hun as (_ & _ & _ & Henq & _ & Hs). rewrite Henq, Hs. cbn.
    induction (Z.to_nat (c_concurrency cfg)) as [|k IH]; [done|]. exact IH.
  - inversion Hwk; subst. specialize (Hins w _ (Pool.WInLookup ip) Hw).
    cbn [pendingOf] in Hins. rewrite app_nil_r in Hins.
    rewrite scanSends_snoc, Hins, app_assoc. by rewrite Hc.
  - done.
  - inversion Hwk; subst.
    specialize (Hins w _ (Pool.WLoop (fetchEnd (c_verbose cfg) (IP_String ip) r).1) Hw).
    cbn [pendingOf] in Hins. rewrite <- Hc.
    assert (Hr : r = lookup ip) by (by apply Hdet). subst r.
    rewrite <- Hhosts in Hins. f_equiv.
    by apply (Permutation_app_inv_r (hostsOf cfg lookup ip)).
  - inversion Hwk; subst. specialize (Hins w _ (Pool.WLoop rest) Hw).
    cbn [pendingOf forward] in Hins.
    match goal with Hf : forwarded _ _ _ = _ |- _ => rewrite Hf in Hins end.
    rewrite <- Hc. f_equiv.
    by apply (Permutation_app_inv_r (forward (c_filter cfg) (c_match cfg) rest)).
  - inversion Hwk; subst. specialize (Hins w _ (Pool.WLoop rest) Hw).
    cbn [pendingOf forward] in Hins.
    match goal with Hf : forwarded _ _ _ = _ |- _ => rewrite Hf in Hins end.
    rewrite <- Hc, <- app_assoc. f_equiv.
    apply (Permutation_app_inv_r (forward (c_filter cfg) (c_match cfg) rest)).
    rewrite <- app_assoc, <- Hins.
    rewrite (Permutation_app_comm [h]), <- app_assoc.
    f_equiv. symmetry. apply Permutation_cons_append.
  - inversion Hwk; subst. specialize (Hins w _ Pool.WRecv Hw).
    cbn [pendingOf forward] in Hins. rewrite !app_nil_r in Hins. by rewrite Hins.
  - inversion Hwk; subst. specialize (Hins w _ Pool.WExit Hw).
    cbn [pendingOf] in Hins. rewrite !app_nil_r in Hins. by rewrite Hins.
  - done.
Qed.

Lemma reachable_complete (cidrList : list string) (s : Pool.Sys) :
  Pool.reachable cfg cidrList s → Forall (job_complete cfg lookup) (Pool.s_jobs s).
Proof.
  intros Hreach.
  enough (Pool.sys_ok cfg cidrList s ∧ Forall (job_complete cfg lookup) (Pool.s_jobs s))
    as [_ ?]; [done|].
  revert s Hreach.
  apply (rtc_ind_r (λ s, Pool.sys_ok cfg cidrList s
                         ∧ Forall (job_complete cfg lookup) (Pool.s_jobs s))).
  - split; [apply init_ok|]. cbn. apply Forall_fmap, Forall_forall.
    intros cidr _. unfold compose, job_complete. by cbn.
  - intros s s' _ Hstep [Hok Hall]. split; [by eapply step_ok|].
    destruct Hstep as [s i j e j' s' Hi Hj He| | |]; try done.
    apply applyEffect_inv in He. destruct He as (-> & _). cbn.
    apply Forall_insert; [done|].
    destruct Hok as (Hjobs & _).
    apply (job_step_complete j e j' Hj).
    + exact (proj1 (Forall_lookup _ _) Hjobs i j Hi).
    + exact (proj1 (Forall_lookup _ _) Hall i j Hi).
Qed.

End Complete.

Section FinalOutput.
Context `{Externals}.
Variable cfg : Config.
Variable lookup : IP → GetResult.
Hypothesis Hdet : ∀ ip r, clientGet (shodanURL (IP_String ip)) r → r = lookup ip.

Lemma exited_nothing_pending (ws : list Pool.Worker) :
  Pool.running ws = 0%nat → mjoin (pendingOf cfg lookup <$> ws) = [].
Proof.
  unfold Pool.running. induction ws as [|wk ws IH]; [done|]. cbn.
  destruct wk; cbn; try (intros; lia). exact IH.
Qed.

(** A job that has returned has sent the hostnames of all its addresses. *)
Lemma finished_job_sent (j : Pool.Job) :
  Pool.job_ok cfg j → job_complete cfg lookup j → Pool.finished j = true →
  Pool.j_sent j ≡ₚ scanSends cfg lookup (Pool.j_enq j)
  ∧ (∀ n, ParseCIDR (Pool.j_cidr j) = Some n →
          expand (S (length (Pool.j_enq j))) n = Some (Pool.j_enq j)).
Proof.
  intros (_ & _ & Hp) Hc Hfin. unfold Pool.finished in Hfin.
  destruct (Pool.j_prod j); try done. unfold job_complete in Hc.
  destruct Hp as [[Hnone (Hw & _)]|((n' & Hn' & Hexp) & _ & _ & Hrun)].
  - rewrite Hw in Hc. cbn in Hc. rewrite app_nil_r in Hc. split; [done|].
    intros n Hn. congruence.
  - rewrite (exited_nothing_pending _ Hrun), app_nil_r in Hc. split; [done|].
    intros n Hn. congruence.
Qed.

Lemma elem_of_scanSends (l : list IP) (h : string) :
  h ∈ scanSends cfg lookup l ↔ ∃ ip, ip ∈ l ∧ h ∈ hostsOf cfg lookup ip.
Proof.
  unfold scanSends. rewrite list_elem_of_In, List.in_flat_map.
  split; intros (ip & Hip & Hh); exists ip; by rewrite ?list_elem_of_In in *.
Qed.

(** X24: what the program has printed when it ends, for any number of
    workers and any schedule, when the network answers each address in
    one way: every job has sent the hostnames that pass the filters of
    every address of its range, and the lines printed are exactly the
    hostnames that pass the filters among those found for the addresses
    of the ranges of the descriptors of the list. *)
Theorem final_output (cidrList : list string) (s : Pool.Sys) :
  Pool.reachable cfg cidrList s → Pool.s_mainDone s = true →
  (∀ i j, Pool.s_jobs s !! i = Some j →
          Pool.j_sent j ≡ₚ scanSends cfg lookup (Pool.j_enq j)
          ∧ ∀ n, ParseCIDR (Pool.j_cidr j) = Some n →
                 expand (S (length (Pool.j_enq j))) n = Some (Pool.j_enq j))
  ∧ ∀ h, h ∈ stdout (Pool.s_printer s)
         ↔ ∃ cidr n fuel l ip,
             cidr ∈ cidrList ∧ ParseCIDR cidr = Some n
             ∧ expand fuel n = Some l ∧ ip ∈ l ∧ h ∈ hostsOf cfg lookup ip.
Proof.
  intros Hreach Hdone.
  pose proof (reachable_complete cfg lookup Hdet _ _ Hreach) as Hall.
  destruct (reachable_flow cfg _ _ Hreach) as (_ & Hperm & _).
  destruct (reachable_ok cfg _ _ Hreach) as (Hjobs & Hcidr & Hwg & Hclosed & Hd & Hpr).
  destruct (Hd Hdone) as [Hcl Hch]. specialize (Hclosed Hcl).
  rewrite Hclosed in Hwg. symmetry in Hwg. rewrite Hch, app_nil_r in Hperm.
  assert (Hjob : ∀ i j, Pool.s_jobs s !! i = Some j →
            Pool.j_sent j ≡ₚ scanSends cfg lookup (Pool.j_enq j)
            ∧ ∀ n, ParseCIDR (Pool.j_cidr j) = Some n →
                   expand (S (length (Pool.j_enq j))) n = Some (Pool.j_enq j)).
  { intros i j Hi. apply finished_job_sent.
    - exact (proj1 (Forall_lookup _ _) Hjobs i j Hi).
    - exact (proj1 (Forall_lookup _ _) Hall i j Hi).
    - apply (filter_length_zero _ _ i j) in Hwg; [|done].
      by apply negb_false_iff in Hwg. }
  split; [exact Hjob|].
  intros h. rewrite Hpr, stdout_aggregate_elem, Hperm, elem_of_sent. split.
  - intros (i & j & Hi & Hh). destruct (Hjob i j Hi) as [Hsent Hexp].
    rewrite Hsent in Hh. apply elem_of_scanSends in Hh as (ip & Hip & Hh).
    pose proof (proj1 (Forall_lookup _ _) Hjobs i j Hi) as Hjok.
    destruct (job_ok_parsed cfg j Hjok) as [n Hn].
    { intros Hnil. rewrite Hnil in Hip. by apply elem_of_nil in Hip. }
    exists (Pool.j_cidr j), n, (S (length (Pool.j_enq j))), (Pool.j_enq j), ip.
    split. { rewrite <- Hcidr. apply list_elem_of_fmap. exists j. split; [done|].
             by eapply list_elem_of_lookup_2. }
    split; [done|]. split; [by apply Hexp|]. done.
  - intros (cidr & n & fuel & l & ip & Hin & Hn & Hl & Hip & Hh).
    rewrite <- Hcidr in Hin. apply list_elem_of_fmap in Hin as (j & -> & Hj).
    apply list_elem_of_lookup in Hj as [i Hi].
    destruct (Hjob i j Hi) as [Hsent Hexp].
    pose proof (enqueue_det _ _ _ _ _ _ Hl (Hexp n Hn)) as ->.
    exists i, j. split; [done|]. rewrite Hsent.
    apply elem_of_scanSends. by exists ip.
Qed.

End FinalOutput.

(** The run of [10.0.0.0/31] with one worker to its end: the hostname of
    [10.0.0.1] has been printed. *)
Lemma final_output_witness :
  ∃ s,
    @Pool.reachable Example.mock (@mkConfig Example.mock 1 None None false 10)
      ["10.0.0.0/31"%string] s
    ∧ Pool.s_mainDone s = true
    ∧ "a.example.com"%string ∈ stdout (Pool.s_printer s).
Proof.
  set (cfg := @mkConfig Example.mock 1 None None false 10).
  set (lookup := λ ip : IP, Example.mockGet (shodanURL (Example.dottedQuad ip))).
  destruct (@run_complete_state Example.mock cfg lookup eq_refl eq_refl
              (λ ip, eq_refl) "10.0.0.0/31"%string
              (net.mkIPNet [10; 0; 0; 0] [255; 255; 255; 254]) 3%nat
              [[10; 0; 0; 0]; [10; 0; 0; 1]] eq_refl eq_refl)
    as (urls & E & Hrun).
  eexists. split; [exact Hrun|]. split; [reflexivity|].
  apply (proj2 (proj2 (@final_output Example.mock cfg lookup (λ ip r Hr, Hr)
                         _ _ Hrun eq_refl) "a.example.com"%string)).
  exists "10.0.0.0/31"%string, (net.mkIPNet [10; 0; 0; 0] [255; 255; 255; 254]),
    3%nat, [[10; 0; 0; 0]; [10; 0; 0; 1]], [10; 0; 0; 1].
  split; [apply list_elem_of_here|]. split; [reflexivity|]. split; [reflexivity|].
  split; [apply list_elem_of_further, list_elem_of_here|].
  vm_compute. apply list_elem_of_here.
Defined.
